(** * Stream resolution engine of [src/api/proxy.ts]

    A shallow embedding of the cache store, the host-specific extractors and
    the resolution orchestrator ([resolveLink]) of the proxy API, followed by
    the properties checked against the specification.

    Conventions of the embedding.
    - A JavaScript string is a [string]: a sequence of 8-bit code units.
    - A JavaScript number holding a timestamp ([Date.now()]) is a [Z].
    - A [Map] is an association list in insertion order, as iteration over a
      [Map] (and hence the stable [sort] used for eviction) observes it.
    - The outside world (network, clock, random numbers, the HTML parser) is
      an explicit state [W] with the operations of a [Runtime] record.
    - Code inside [try { ... } catch] runs in a state-and-exception monad;
      the local array [streams] that a [catch] block still sees lives in the
      state of that monad.
    - A JSON document is a [Json] value: what [res.json()] gives is not
      checked against the type that the source declares for it.
    - Output on the console is not part of the model. *)

From Stdlib Require Import List String Ascii Bool Arith ZArith Lia DecimalString.
Import ListNotations.

Open Scope string_scope.
Open Scope list_scope.

Infix "+++" := String.append (right associativity, at level 60).

(** ** Strings as the source uses them *)

Module Str.

(** [strip p s] is the rest of [s] after the prefix [p], if [s] starts
    with [p]. *)
Fixpoint strip (p s : string) : option string :=
  match p, s with
  | EmptyString, _ => Some s
  | String a p', String b s' => if Ascii.eqb a b then strip p' s' else None
  | String _ _, EmptyString => None
  end.

(** [s.startsWith(p)] *)
Definition startsWith (s p : string) : bool :=
  match strip p s with Some _ => true | None => false end.

(** [s.includes(sub)] *)
Fixpoint includes (s sub : string) : bool :=
  if startsWith s sub then true
  else match s with
       | EmptyString => false
       | String _ s' => includes s' sub
       end.

(** One code unit of [s.toLowerCase()]: the letters A-Z and the upper-case
    letters of the Latin-1 block. *)
Definition lower_char (c : ascii) : ascii :=
  let n := nat_of_ascii c in
  if (((65 <=? n) && (n <=? 90))
      || ((192 <=? n) && (n <=? 222) && negb (n =? 215)))%nat
  then ascii_of_nat (n + 32) else c.

(** [s.toLowerCase()] *)
Fixpoint toLowerCase (s : string) : string :=
  match s with
  | EmptyString => EmptyString
  | String c s' => String (lower_char c) (toLowerCase s')
  end.

(** A string used as a condition: the empty string is falsy. *)
Definition truthy (s : string) : bool :=
  match s with EmptyString => false | _ => true end.

(** [a || b] on strings that may be [undefined]. *)
Definition or_else (a : option string) (b : option string) : option string :=
  match a with
  | Some s => if truthy s then a else b
  | None => b
  end.

(** [v || dflt] where [dflt] is a string. *)
Definition or_default (a : option string) (dflt : string) : string :=
  match a with
  | Some s => if truthy s then s else dflt
  | None => dflt
  end.

(** [s.split(sep)] for a non-empty separator: the pieces between the
    occurrences of [sep], scanning from the left. [cur] holds the code
    units of the current piece, last one first. *)
Fixpoint rev_string (acc s : string) : string :=
  match s with
  | EmptyString => acc
  | String c s' => rev_string (String c acc) s'
  end.

Fixpoint split_fuel (fuel : nat) (sep s cur : string) : list string :=
  match fuel with
  | O => [rev_string EmptyString cur]
  | S fuel' =>
      match s with
      | EmptyString => [rev_string EmptyString cur]
      | String c s' =>
          match strip sep s with
          | Some rest => rev_string EmptyString cur :: split_fuel fuel' sep rest EmptyString
          | None => split_fuel fuel' sep s' (String c cur)
          end
      end
  end.

Definition split (s sep : string) : list string :=
  split_fuel (S (String.length s)) sep s EmptyString.

(** [parts.join(sep)] *)
Fixpoint join (sep : string) (parts : list string) : string :=
  match parts with
  | [] => EmptyString
  | [p] => p
  | p :: rest => p +++ sep +++ join sep rest
  end.

(** [s.substring(n)]: [s] without its first [n] code units. *)
Fixpoint substring_from (n : nat) (s : string) : string :=
  match n, s with
  | O, _ => s
  | S n', String _ s' => substring_from n' s'
  | S _, EmptyString => EmptyString
  end.

(** [parts.pop()]: the last element. *)
Definition pop (parts : list string) : option string := last (map Some parts) None.

End Str.

(** ** The cache store *)

(** [interface CacheEntry<T>] *)
Record CacheEntry (T : Type) : Type := mkEntry { data : T; timestamp : Z }.
Arguments mkEntry {T} _ _.
Arguments data {T} _.
Arguments timestamp {T} _.

(** [Map<string, CacheEntry<T>>], entries in insertion order. *)
Definition JsMap (T : Type) : Type := list (string * CacheEntry T).

Module JsMapOps.
Section Ops.
Context {T : Type}.

(** [map.size] *)
Definition size (m : JsMap T) : nat := List.length m.

(** [map.get(key)] *)
Fixpoint get (m : JsMap T) (key : string) : option (CacheEntry T) :=
  match m with
  | [] => None
  | (k, e) :: m' => if String.eqb k key then Some e else get m' key
  end.

(** [map.delete(key)] *)
Fixpoint delete (m : JsMap T) (key : string) : JsMap T :=
  match m with
  | [] => []
  | (k, e) :: m' => if String.eqb k key then m' else (k, e) :: delete m' key
  end.

(** [map.set(key, e)]: an existing key keeps its place in the iteration
    order, a new key goes to the end. *)
Fixpoint set (m : JsMap T) (key : string) (e : CacheEntry T) : JsMap T :=
  match m with
  | [] => [(key, e)]
  | (k, e') :: m' =>
      if String.eqb k key then (k, e) :: m' else (k, e') :: set m' key e
  end.

(** [entries.sort((a, b) => a[1].timestamp - b[1].timestamp)]: the sort of
    an array is stable, so entries with equal timestamps keep their order. *)
Fixpoint insert_sorted (x : string * CacheEntry T) (l : JsMap T) : JsMap T :=
  match l with
  | [] => [x]
  | y :: l' =>
      if (timestamp (snd x) <=? timestamp (snd y))%Z then x :: l
      else y :: insert_sorted x l'
  end.

Fixpoint sort_by_timestamp (l : JsMap T) : JsMap T :=
  match l with
  | [] => []
  | x :: l' => insert_sorted x (sort_by_timestamp l')
  end.

(** The head of a list is a lower bound of the timestamps of the list. *)
Definition head_least (l : JsMap T) : Prop :=
  match l with
  | [] => True
  | x :: _ => forall y, In y l -> (timestamp (snd x) <= timestamp (snd y))%Z
  end.

End Ops.
End JsMapOps.

(** [const CACHE_TTL], in milliseconds *)
Module CACHE_TTL.
Definition providerUrls : Z := 10 * 60 * 1000.
Definition posts : Z := 5 * 60 * 1000.
Definition meta : Z := 30 * 60 * 1000.
Definition streams : Z := 15 * 60 * 1000.
End CACHE_TTL.

(** The result of a cache hit: [{ data, cached: true }]. *)
Record Hit (T : Type) : Type := mkHit { hit_data : T; cached : bool }.
Arguments mkHit {T} _ _.
Arguments hit_data {T} _.
Arguments cached {T} _.

(** [getCached(map, key, ttl)], with [now] the value of [Date.now()]. An
    entry is an object, hence truthy whenever it is present. *)
Definition getCached {T : Type} (map : JsMap T) (key : string) (ttl now : Z)
  : option (Hit T) :=
  match JsMapOps.get map key with
  | Some entry =>
      if (now - timestamp entry <? ttl)%Z then Some (mkHit (data entry) true)
      else None
  | None => None
  end.

(** The entry that [setCache] deletes: [sort(...)[0]], if any. *)
Definition oldest {T : Type} (map : JsMap T) : option (string * CacheEntry T) :=
  hd_error (JsMapOps.sort_by_timestamp map).

(** [setCache(map, key, data)], with [now] the value of [Date.now()]; the
    result is the map after the call. *)
Definition setCache {T : Type} (map : JsMap T) (key : string) (d : T) (now : Z)
  : JsMap T :=
  let map1 :=
    if (1000 <? JsMapOps.size map)%nat then
      match oldest map with
      | Some o => JsMapOps.delete map (fst o)
      | None => map
      end
    else map in
  JsMapOps.set map1 key (mkEntry d now).

(** ** Regular expressions *)

(** The fragment of JavaScript regular expressions that the source uses:
    literals, character classes, greedy [*] and [+] on a class, an optional
    character, sequence, alternation and capturing groups, matched with the
    backtracking priority of the language (longest repetition first, left
    alternative first). *)
Module Regex.

Inductive regex : Type :=
| Lit (s : string)              (* the characters of [s] *)
| Cls (p : ascii -> bool)       (* one character of a class *)
| Star (p : ascii -> bool)      (* [class*] *)
| Plus (p : ascii -> bool)      (* [class+] *)
| OptC (c : ascii)              (* [c?] *)
| Seq (r1 r2 : regex)
| Alt (r1 r2 : regex)
| Group (r : regex).            (* [( ... )] *)

(** Comparison of a pattern character with an input character; [ci] is the
    [i] flag. *)
Definition char_eq (ci : bool) (a b : ascii) : bool :=
  if ci then Ascii.eqb (Str.lower_char a) (Str.lower_char b) else Ascii.eqb a b.

Fixpoint lit (ci : bool) (p s : string) : option string :=
  match p, s with
  | EmptyString, _ => Some s
  | String a p', String b s' => if char_eq ci a b then lit ci p' s' else None
  | String _ _, EmptyString => None
  end.

(** The first [length s - length rest] characters of [s]: what a match that
    started at [s] and stopped at [rest] has consumed. *)
Definition taken (s rest : string) : string :=
  String.substring 0 (String.length s - String.length rest) s.

Section Run.
Context {R : Type}.

(** Greedy repetition: the longest run first, then shorter ones. *)
Fixpoint star (p : ascii -> bool) (s : string) (k : string -> option R)
  : option R :=
  match s with
  | String c s' =>
      if p c then
        match star p s' k with
        | Some r => Some r
        | None => k s
        end
      else k s
  | EmptyString => k s
  end.

(** [run ci r s caps k]: match [r] at the start of [s], then continue
    with [k] on the rest of the input and the captures so far; the first
    success in priority order is the result. *)
Fixpoint run (ci : bool) (r : regex) (s : string) (caps : list string)
    (k : string -> list string -> option R) : option R :=
  match r with
  | Lit l =>
      match lit ci l s with
      | Some s' => k s' caps
      | None => None
      end
  | Cls p =>
      match s with
      | String c s' => if p c then k s' caps else None
      | EmptyString => None
      end
  | Star p => star p s (fun s' => k s' caps)
  | Plus p =>
      match s with
      | String c s' => if p c then star p s' (fun s'' => k s'' caps) else None
      | EmptyString => None
      end
  | OptC c =>
      match s with
      | String c' s' =>
          if char_eq ci c c' then
            match k s' caps with
            | Some r => Some r
            | None => k s caps
            end
          else k s caps
      | EmptyString => k s caps
      end
  | Seq r1 r2 => run ci r1 s caps (fun s' caps' => run ci r2 s' caps' k)
  | Alt r1 r2 =>
      match run ci r1 s caps k with
      | Some r => Some r
      | None => run ci r2 s caps k
      end
  | Group r1 => run ci r1 s caps (fun s' caps' => k s' (caps' ++ [taken s s']))
  end.
End Run.

(** A successful match: the input before it, the matched text followed by
    the captures ([m[0]], [m[1]], ...), and the input after it. *)
Record found : Type := mkFound { before : string; groups : list string; after : string }.

(** A match that starts exactly at the start of [s]. *)
Definition match_here (ci : bool) (r : regex) (s : string)
  : option (list string * string) :=
  run ci r s [] (fun rest caps => Some (taken s rest :: caps, rest)).

(** The leftmost match; [pre] holds the skipped characters, last first. *)
Fixpoint search_from (ci : bool) (r : regex) (pre s : string) : option found :=
  match match_here ci r s with
  | Some (g, rest) => Some (mkFound (Str.rev_string EmptyString pre) g rest)
  | None =>
      match s with
      | String c s' => search_from ci r (String c pre) s'
      | EmptyString => None
      end
  end.

Definition search (ci : bool) (r : regex) (s : string) : option found :=
  search_from ci r EmptyString s.

(** [s.match(re)] without the [g] flag: the array [m], or [null]. *)
Definition exec (ci : bool) (r : regex) (s : string) : option (list string) :=
  option_map groups (search ci r s).

(** [m[i]] *)
Definition group (m : list string) (i : nat) : string := nth i m EmptyString.

(** [re.test(s)] *)
Definition test (ci : bool) (r : regex) (s : string) : bool :=
  match search ci r s with Some _ => true | None => false end.

(** [s.match(re)] with the [g] flag: all matches from left to right, each
    search starting where the previous match ended (one character further
    after an empty match). The empty list stands for [null]. *)
Fixpoint match_all_fuel (fuel : nat) (ci : bool) (r : regex) (s : string)
  : list string :=
  match fuel with
  | O => []
  | S fuel' =>
      match search ci r s with
      | None => []
      | Some f =>
          let whole := group (groups f) 0 in
          match whole, after f with
          | EmptyString, EmptyString => [whole]
          | EmptyString, String _ t => whole :: match_all_fuel fuel' ci r t
          | _, t => whole :: match_all_fuel fuel' ci r t
          end
      end
  end.

Definition match_all (ci : bool) (r : regex) (s : string) : list string :=
  match_all_fuel (S (String.length s)) ci r s.

(** [s.replace(re, by)] without the [g] flag, for a replacement text
    without [$]. *)
Definition replace (ci : bool) (r : regex) (s by_ : string) : string :=
  match search ci r s with
  | Some f => before f +++ by_ +++ after f
  | None => s
  end.

(** Character classes of the source. *)
Definition code (c : ascii) : nat := nat_of_ascii c.
Definition is_alnum (c : ascii) : bool :=
  let n := code c in
  (((97 <=? n) && (n <=? 122)) || ((65 <=? n) && (n <=? 90))
   || ((48 <=? n) && (n <=? 57)))%nat.
(** [\s] on 8-bit code units: tab, line feed, vertical tab, form feed,
    carriage return, space and the no-break space. *)
Definition is_space (c : ascii) : bool :=
  let n := code c in
  (((9 <=? n) && (n <=? 13)) || (n =? 32) || (n =? 160))%nat.
Definition dquote : ascii := ascii_of_nat 34.
Definition squote : ascii := ascii_of_nat 39.
Definition is_quote (c : ascii) : bool := Ascii.eqb c dquote || Ascii.eqb c squote.
Definition not_quote (c : ascii) : bool := negb (is_quote c).
Definition not_squote (c : ascii) : bool := negb (Ascii.eqb c squote).
(** Any character but an ampersand or a quote. *)
Definition not_amp_quote (c : ascii) : bool :=
  negb (Ascii.eqb c "&"%char || is_quote c).
(** Any character but white space, a quote, or an angle bracket. *)
Definition url_char (c : ascii) : bool :=
  negb (is_space c || is_quote c || Ascii.eqb c "<"%char || Ascii.eqb c ">"%char).

(** [r1 r2 ... rn] *)
Fixpoint seq_of (rs : list regex) : regex :=
  match rs with
  | [] => Lit EmptyString
  | [r] => r
  | r :: rs' => Seq r (seq_of rs')
  end.

(** [(s1|s2|...|sn)] without the group. *)
Fixpoint alt_of (ss : list string) : regex :=
  match ss with
  | [] => Cls (fun _ => false)
  | [s] => Lit s
  | s :: ss' => Alt (Lit s) (alt_of ss')
  end.

End Regex.

(** ** Effects: state and exceptions *)

(** A thrown value. *)
Definition Exn : Type := string.

(** How a statement completes: normally with a value, or by throwing. *)
Inductive Res (A : Type) : Type :=
| Ok (a : A)
| Throw (e : Exn).
Arguments Ok {A} _.
Arguments Throw {A} _.

(** A computation over a state of type [S]. The state survives a throw, as
    the variables of an enclosing function do. *)
Definition SE (S A : Type) : Type := S -> Res A * S.

Definition ret {S A : Type} (a : A) : SE S A := fun s => (Ok a, s).

Definition bind {S A B : Type} (c : SE S A) (f : A -> SE S B) : SE S B :=
  fun s =>
    match c s with
    | (Ok a, s') => f a s'
    | (Throw e, s') => (Throw e, s')
    end.

Definition throw {S A : Type} (e : Exn) : SE S A := fun s => (Throw e, s).

(** [try { c } catch (e) { h(e) }] *)
Definition try_catch {S A : Type} (c : SE S A) (h : Exn -> SE S A) : SE S A :=
  fun s =>
    match c s with
    | (Ok a, s') => (Ok a, s')
    | (Throw e, s') => h e s'
    end.

(** An operation that cannot throw. *)
Definition total {S A : Type} (f : S -> A * S) : SE S A :=
  fun s => let (a, s') := f s in (Ok a, s').

(** A pure operation that may throw. *)
Definition of_res {S A : Type} (r : Res A) : SE S A := fun s => (r, s).

(** Run a computation on the second component of the state. *)
Definition on_snd {L S A : Type} (c : SE S A) : SE (L * S) A :=
  fun ls => let (r, s') := c (snd ls) in (r, (fst ls, s')).

(** Read and update the first component of the state. *)
Definition get_fst {L S : Type} : SE (L * S) L := fun ls => (Ok (fst ls), ls).
Definition modify_fst {L S : Type} (f : L -> L) : SE (L * S) unit :=
  fun ls => (Ok tt, (f (fst ls), snd ls)).

Declare Scope se_scope.
Delimit Scope se_scope with se.
Notation "x <- c1 ;; c2" := (bind c1 (fun x => c2))
  (at level 61, c1 at next level, right associativity) : se_scope.
Notation "c1 ;;; c2" := (bind c1 (fun _ => c2))
  (at level 61, right associativity) : se_scope.
Open Scope se_scope.

(** [for (const x of xs) body(x)] *)
Fixpoint for_each {S A : Type} (xs : list A) (body : A -> SE S unit) : SE S unit :=
  match xs with
  | [] => ret tt
  | x :: xs' => body x ;;; for_each xs' body
  end.

(** [if (c) body] *)
Definition when {S : Type} (c : bool) (body : SE S unit) : SE S unit :=
  if c then body else ret tt.

(** ** Data of the resolution engine *)

(** The field [type] of a [StreamLink]. *)
Inductive StreamType : Type := m3u8 | mp4 | mkv.

(** [Record<string, string>] *)
Definition Headers : Type := list (string * string).

(** [interface StreamLink] *)
Record StreamLink : Type := mkStream {
  server : string;
  link : string;
  type : StreamType;
  quality : option string;
  headers : option Headers
}.

(** [{ server, link, type, quality: "HD" }] *)
Definition hd_stream (srv lnk : string) (ty : StreamType) : StreamLink :=
  mkStream srv lnk ty (Some "HD") None.

(** A JSON value other than [null]; where a value may be [null] it is an
    [option], with [None] for [null]. A number keeps its literal text. The
    members of an object are its own properties, each key once. *)
#[warnings="-register-all"]
Inductive Json : Type :=
| JBool (b : bool)
| JNumber (literal : string)
| JString (s : string)
| JArray (items : list (option Json))
| JObject (members : list (string * option Json)).

(** The [info] document of the file host. The type that the source declares
    for it, [{ name, size, mime_type }], is not checked when the program
    runs: the document is whatever [res.json()] gives. *)
Definition FileInfo : Type := Json.

(** [v.key] for a value [v] that is not nullish; the outer [None] is
    [undefined]. Only an object has members of its own, and the key read
    here is inherited by no value. *)
Definition member (v : Json) (key : string) : option (option Json) :=
  match v with
  | JObject members =>
      option_map snd (find (fun kv => String.eqb (fst kv) key) members)
  | _ => None
  end.

(** [info?.mime_type?.includes("video")], read as a condition. The chain
    stops at a nullish [info] or [mime_type] and gives [undefined]. A string
    has [includes] for pieces of text and an array for elements; a boolean,
    a number and an object have no function of that name, and the call
    throws a [TypeError]. *)
Definition mime_type_is_video (info : option FileInfo) : Res bool :=
  match info with
  | None => Ok false
  | Some i =>
      match member i "mime_type" with
      | None | Some None => Ok false
      | Some (Some (JString mt)) => Ok (Str.includes mt "video")
      | Some (Some (JArray items)) =>
          Ok (existsb (fun x => match x with
                                | Some (JString s) => String.eqb s "video"
                                | _ => false
                                end) items)
      | Some (Some _) => Throw "TypeError"
      end
  end.

(** ** The HTML query library *)

(** An element of a parsed document, with what the source reads of it. *)
Record Element : Type := mkElement {
  tag : string;
  classes : list string;
  href : option string;        (* [attr("href")] *)
  text : string                (* [text()] *)
}.

(** A parsed document: its elements in document order and its serialisation
    ([$.html()]). *)
Record Doc : Type := mkDoc {
  elements : list Element;
  html : string
}.

(** The selectors of the source. *)
Inductive Selector : Type :=
| ByClass (cs : list string)          (* [.c1.c2] *)
| AHrefContains (v : string)          (* [a[href*=v]] *)
| AHrefStartsWith (v : string)        (* [a[href^=v]] *)
| AContains (v : string).             (* [a:contains(v)] *)

Module Cheerio.

Definition has_class (el : Element) (c : string) : bool :=
  existsb (String.eqb c) (classes el).

Definition is_anchor (el : Element) : bool := String.eqb (tag el) "a".

Definition matches (sel : Selector) (el : Element) : bool :=
  match sel with
  | ByClass cs => forallb (has_class el) cs
  | AHrefContains v =>
      is_anchor el
      && match href el with Some h => Str.includes h v | None => false end
  | AHrefStartsWith v =>
      is_anchor el
      && match href el with Some h => Str.startsWith h v | None => false end
  | AContains v => is_anchor el && Str.includes (text el) v
  end.

(** [$(sel)]: the matching elements in document order. *)
Definition select (d : Doc) (sel : Selector) : list Element :=
  filter (matches sel) (elements d).

(** [$(sel).attr("href")]: the attribute of the first matching element. *)
Definition attr_href (els : list Element) : option string :=
  match els with
  | el :: _ => href el
  | [] => None
  end.

End Cheerio.

(** ** The runtime *)

(** A response of [fetch]: [res.ok], and what [res.text()] and [res.json()]
    complete with. *)
Record Response : Type := mkResponse {
  ok : bool;
  res_text : Res string;
  res_json : Res (option FileInfo)
}.

(** What the program takes from outside, over a world state [W]: the network,
    the clock, the random number generator, the base64 decoder and the HTML
    parser. *)
Record Runtime (W : Type) : Type := mkRuntime {
  fetch : string -> Headers -> SE W Response;            (* may throw *)
  Date_now : W -> Z;                                     (* [Date.now()] *)
  Math_random_base36 : W -> string * W;                  (* [Math.random().toString(36)] *)
  atob : string -> Res string;                           (* may throw *)
  cheerio_load : string -> Res Doc                       (* [cheerio.load(html)] *)
}.
Arguments fetch {W} _ _ _ _.
Arguments Date_now {W} _ _.
Arguments Math_random_base36 {W} _ _.
Arguments atob {W} _ _.
Arguments cheerio_load {W} _ _.

(** ** The patterns of the source

    In the comments, [Q] stands for the two quote characters (single and
    double) and [U] for a character that is neither white space, a quote nor
    an angle bracket. *)
Module Patterns.
Import Regex.

(** [/\/u\/([a-zA-Z0-9]+)/] *)
Definition file_id_u : regex := Seq (Lit "/u/") (Group (Plus is_alnum)).

(** [/\/api\/file\/([a-zA-Z0-9]+)/] *)
Definition file_id_api : regex := Seq (Lit "/api/file/") (Group (Plus is_alnum)).

(** [/getElementById\('robotlink'\)\.innerHTML\s*=\s*[Q]([^Q]+)[Q]/] *)
Definition robotlink : regex :=
  seq_of [Lit "getElementById('robotlink').innerHTML"; Star is_space; Lit "=";
          Star is_space; Cls is_quote; Group (Plus not_quote); Cls is_quote].

(** [/token=([^&Q]+)/] *)
Definition token : regex := Seq (Lit "token=") (Group (Plus not_amp_quote)).

(** [/document\.getElementById\('norobotlink'\)\.innerHTML\s*=\s*[Q](\/\/[^Q]+)[Q]\s*\+\s*\('([^']+)'\)/] *)
Definition norobotlink : regex :=
  seq_of [Lit "document.getElementById('norobotlink').innerHTML"; Star is_space;
          Lit "="; Star is_space; Cls is_quote;
          Group (Seq (Lit "//") (Plus not_quote)); Cls is_quote;
          Star is_space; Lit "+"; Star is_space; Lit "('";
          Group (Plus not_squote); Lit "')"].

(** [/dood\.(wf|cx|la|pm|so|ws|sh|to|re|yt)/] *)
Definition dood_domain : regex :=
  Seq (Lit "dood.")
      (Group (alt_of ["wf"; "cx"; "la"; "pm"; "so"; "ws"; "sh"; "to"; "re"; "yt"])).

(** [/\/pass_md5\/([^Q]+)/] *)
Definition pass_md5 : regex := Seq (Lit "/pass_md5/") (Group (Plus not_quote)).

(** [/file\s*:\s*[Q](G)/i] with the group [G = [^Q]+\.m3u8[^Q]*] *)
Definition file_m3u8 : regex :=
  seq_of [Lit "file"; Star is_space; Lit ":"; Star is_space; Cls is_quote;
          Group (seq_of [Plus not_quote; Lit ".m3u8"; Star not_quote])].

(** [/sources\s*:\s*\[\{file\s*:\s*[Q]([^Q]+)/i] *)
Definition sources_file : regex :=
  seq_of [Lit "sources"; Star is_space; Lit ":"; Star is_space; Lit "[{file";
          Star is_space; Lit ":"; Star is_space; Cls is_quote;
          Group (Plus not_quote)].

(** [/https?:\/\/U+\.m3u8U*/gi] *)
Definition m3u8_url : regex :=
  seq_of [Lit "http"; OptC "s"; Lit "://"; Plus url_char; Lit ".m3u8"; Star url_char].

(** [/MDCore\.wurl\s*=\s*[Q]([^Q]+)/] *)
Definition mdcore_wurl : regex :=
  seq_of [Lit "MDCore.wurl"; Star is_space; Lit "="; Star is_space; Cls is_quote;
          Group (Plus not_quote)].

(** [/var\s+url\s*=\s*[Q]([^Q]+)[Q]/] *)
Definition var_url : regex :=
  seq_of [Lit "var"; Plus is_space; Lit "url"; Star is_space; Lit "=";
          Star is_space; Cls is_quote; Group (Plus not_quote); Cls is_quote].

(** [/location\.replace\([Q]([^Q]+)[Q]\)/] *)
Definition location_replace : regex :=
  seq_of [Lit "location.replace("; Cls is_quote; Group (Plus not_quote);
          Cls is_quote; Lit ")"].

(** [/window\.location\s*=\s*[Q]([^Q]+)[Q]/] *)
Definition window_location : regex :=
  seq_of [Lit "window.location"; Star is_space; Lit "="; Star is_space;
          Cls is_quote; Group (Plus not_quote); Cls is_quote].

(** [/\.(mp4|mkv|m3u8)/i] *)
Definition media_ext : regex :=
  Seq (Lit ".") (Group (alt_of ["mp4"; "mkv"; "m3u8"])).

(** [/https?:\/\/U+\.(mp4|mkv|m3u8)U*/gi] *)
Definition media_url : regex :=
  seq_of [Lit "http"; OptC "s"; Lit "://"; Plus url_char; Lit ".";
          Group (alt_of ["mp4"; "mkv"; "m3u8"]); Star url_char].

End Patterns.

(** ** Helpers of the extractors *)

(** [streamType(url)] *)
Definition streamType (url : string) : StreamType :=
  let u := Str.toLowerCase url in
  if Str.includes u ".m3u8" then m3u8
  else if Str.includes u ".mp4" then mp4
  else mkv.

(** [const defaultHeaders] *)
Definition defaultHeaders : Headers :=
  [("User-Agent", "Mozilla/5.0 (Windows NT 10.0; Win64; x64) AppleWebKit/537.36 Chrome/120.0.0.0 Safari/537.36");
   ("Accept", "text/html,application/xhtml+xml,application/xml;q=0.9,*/*;q=0.8");
   ("Accept-Language", "en-US,en;q=0.9")].

(** [{ ...a, ...b }]: a key of [a] keeps its place and takes the value
    that [b] gives it, if any; the other keys of [b] follow in their
    order. *)
Definition spread (a b : Headers) : Headers :=
  map (fun kv =>
         match find (fun kv' => String.eqb (fst kv') (fst kv)) b with
         | Some kv' => (fst kv, snd kv')
         | None => kv
         end) a
  ++ filter (fun kv' => negb (existsb (fun kv => String.eqb (fst kv) (fst kv')) a)) b.

(** The decimal text of an integer, as a template literal prints it. *)
Definition number_text (z : Z) : string :=
  DecimalString.NilEmpty.string_of_int (Z.to_int z).

(** The local variables of an extractor that outlive its [try] block. *)
Record Locals : Type := mkLocals {
  streams : list StreamLink;
  processed : list string          (* [Set<string>] *)
}.

Section Extractors.
Context {W : Type} (rt : Runtime W).

(** The monad of the body of an extractor. *)
Definition Body (A : Type) : Type := SE (Locals * W) A.

(** [fetchHtml(url, { headers })]: the text of the page, or [null]. The
    timeout makes [fetch] throw, which is caught as every other failure. *)
Definition fetchHtml (url : string) (hs : Headers) : SE W (option string) :=
  try_catch
    (res <- fetch rt url (spread defaultHeaders hs) ;;
     if ok res then (t <- of_res (res_text res) ;; ret (Some t)) else ret None)
    (fun _ => ret None).

(** [fetchJson(url)] *)
Definition fetchJson (url : string) (hs : Headers) : SE W (option FileInfo) :=
  try_catch
    (res <- fetch rt url (spread defaultHeaders hs) ;;
     if ok res then of_res (res_json res) else ret None)
    (fun _ => ret None).

(** [decodeBase64(value)] *)
Definition decodeBase64 (value : option string) : string :=
  match value with
  | None => EmptyString
  | Some v =>
      if negb (Str.truthy v) then EmptyString
      else match atob rt v with
           | Ok s => s
           | Throw _ => EmptyString
           end
  end.

(** [streams.push(s)] *)
Definition push (s : StreamLink) : Body unit :=
  modify_fst (fun l => mkLocals (streams l ++ [s]) (processed l)).

(** [streams.push(...ss)] *)
Definition push_all (ss : list StreamLink) : Body unit :=
  modify_fst (fun l => mkLocals (streams l ++ ss) (processed l)).

(** [streams.length] *)
Definition streams_length : Body nat :=
  l <- get_fst ;; ret (List.length (streams l)).

(** [processed.has(h)] *)
Definition processed_has (h : string) : Body bool :=
  l <- get_fst ;; ret (existsb (String.eqb h) (processed l)).

(** [processed.add(h)] *)
Definition processed_add (h : string) : Body unit :=
  modify_fst (fun l =>
    mkLocals (streams l)
             (if existsb (String.eqb h) (processed l) then processed l
              else processed l ++ [h])).

(** The frame of every extractor:
    [const streams = []; const processed = new Set();
     try { body } catch (e) { } return streams;]
    An early [return streams] inside [body] is a normal end of [body]. *)
Definition extractor_frame (body : Body unit) : SE W (list StreamLink) :=
  fun w =>
    let (_, lw) := body (mkLocals [] [], w) in
    (Ok (streams (fst lw)), snd lw).

(** *** File host *)

Definition pixeldrain_body (url : string) : Body unit :=
  let fileId :=
    Str.or_else
      (option_map (fun m => Regex.group m 1) (Regex.exec false Patterns.file_id_u url))
      (option_map (fun m => Regex.group m 1) (Regex.exec false Patterns.file_id_api url)) in
  match fileId with
  | Some fileId =>
      when (Str.truthy fileId)
        (info <- on_snd (fetchJson ("https://pixeldrain.com/api/file/" +++ fileId +++ "/info") []) ;;
         let directUrl := "https://pixeldrain.com/api/file/" +++ fileId +++ "?download" in
         is_video <- of_res (mime_type_is_video info) ;;
         push (hd_stream "Pixeldrain" directUrl (if is_video then mp4 else mkv)))
  | None => ret tt
  end.

Definition pixeldrainExtractor (url : string) : SE W (list StreamLink) :=
  extractor_frame (pixeldrain_body url).

(** *** Embed host A *)

Definition streamtape_body (url : string) : Body unit :=
  html <- on_snd (fetchHtml url []) ;;
  match html with
  | None => ret tt
  | Some html =>
      when (Str.truthy html)
        (let linkMatch := Regex.exec false Patterns.robotlink html in
         let tokenMatch := Regex.exec false Patterns.token html in
         match linkMatch with
         | Some lm =>
             let videoUrl :=
               match tokenMatch with
               | Some tm => "https:" +++ Regex.group lm 1 +++ "&token=" +++ Regex.group tm 1
               | None => "https:" +++ Regex.group lm 1
               end in
             push (hd_stream "Streamtape" videoUrl mp4)
         | None => ret tt
         end ;;;
         let altMatch := Regex.exec false Patterns.norobotlink html in
         n <- streams_length ;;
         match altMatch with
         | Some am =>
             when (n =? 0)%nat
               (push (hd_stream "Streamtape"
                        ("https:" +++ Regex.group am 1 +++ Regex.group am 2) mp4))
         | None => ret tt
         end)
  end.

Definition streamtapeExtractor (url : string) : SE W (list StreamLink) :=
  extractor_frame (streamtape_body url).

(** *** Embed host B *)

Definition doodstream_body (url : string) : Body unit :=
  let normalizedUrl := Regex.replace false Patterns.dood_domain url "dood.li" in
  html <- on_snd (fetchHtml normalizedUrl []) ;;
  match html with
  | None => ret tt
  | Some html =>
      when (Str.truthy html)
        (match Regex.exec false Patterns.pass_md5 html with
         | Some passMatch =>
             let passUrl := "https://dood.li/pass_md5/" +++ Regex.group passMatch 1 in
             passRes <- on_snd (fetchHtml passUrl [("Referer", normalizedUrl)]) ;;
             match passRes with
             | Some passRes =>
                 when (Str.truthy passRes)
                   (rnd <- on_snd (total (Math_random_base36 rt)) ;;
                    now <- on_snd (total (fun w => (Date_now rt w, w))) ;;
                    let token := "zUEJeL3mUN" +++ Str.substring_from 2 rnd in
                    let last :=
                      match Str.pop (Str.split (Regex.group passMatch 1) "/") with
                      | Some p => p
                      | None => "undefined"
                      end in
                    let videoUrl :=
                      passRes +++ token +++ "?token=" +++ last +++ "&expiry="
                        +++ number_text now in
                    push (mkStream "Doodstream" videoUrl mp4 (Some "HD")
                            (Some [("Referer", "https://dood.li/")])))
             | None => ret tt
             end
         | None => ret tt
         end)
  end.

Definition doodstreamExtractor (url : string) : SE W (list StreamLink) :=
  extractor_frame (doodstream_body url).

(** *** Embed host C *)

Definition filemoon_body (url : string) : Body unit :=
  html <- on_snd (fetchHtml url []) ;;
  match html with
  | None => ret tt
  | Some html =>
      when (Str.truthy html)
        (let fileMatch :=
           match Regex.exec true Patterns.file_m3u8 html with
           | Some m => Some m
           | None => Regex.exec true Patterns.sources_file html
           end in
         match fileMatch with
         | Some fm => push (hd_stream "Filemoon" (Regex.group fm 1) m3u8)
         | None => ret tt
         end ;;;
         let m3u8Match := Regex.match_all true Patterns.m3u8_url html in
         n <- streams_length ;;
         match m3u8Match with
         | first :: _ => when (n =? 0)%nat (push (hd_stream "Filemoon" first m3u8))
         | [] => ret tt
         end)
  end.

Definition filemoonExtractor (url : string) : SE W (list StreamLink) :=
  extractor_frame (filemoon_body url).

(** *** Embed host D *)

Definition mixdrop_body (url : string) : Body unit :=
  html <- on_snd (fetchHtml url []) ;;
  match html with
  | None => ret tt
  | Some html =>
      when (Str.truthy html)
        (match Regex.exec false Patterns.mdcore_wurl html with
         | Some wurlMatch =>
             let videoUrl := Regex.group wurlMatch 1 in
             let videoUrl :=
               if Str.startsWith videoUrl "//" then "https:" +++ videoUrl else videoUrl in
             push (hd_stream "Mixdrop" videoUrl mp4)
         | None => ret tt
         end)
  end.

Definition mixdropExtractor (url : string) : SE W (list StreamLink) :=
  extractor_frame (mixdrop_body url).

(** *** Link aggregator A *)

(** The selectors of [hubcloudExtractor], in the order of the source. *)
Definition hubcloud_selectors : list Selector :=
  [ByClass ["btn-success"; "btn-lg"]; ByClass ["btn-success"]; ByClass ["btn-danger"];
   ByClass ["btn-primary"]; ByClass ["btn-secondary"];
   AHrefContains "pixeldrain"; AHrefContains "workers.dev"; AHrefContains "hubcdn";
   AHrefContains "cloudflarestorage"; AHrefContains "r2.dev";
   AHrefContains ".mp4"; AHrefContains ".mkv"; AHrefContains ".m3u8"].

(** [href.split("/").pop()?.split("?")[0]] *)
Definition last_segment_token (href : string) : option string :=
  match Str.pop (Str.split href "/") with
  | Some p => nth_error (Str.split p "?") 0
  | None => None
  end.

(** The callback of [$target(sel).each] in [hubcloudExtractor]. *)
Definition hubcloud_link (el : Element) : Body unit :=
  let href := Str.or_default (href el) EmptyString in
  seen <- processed_has href ;;
  if negb (Str.truthy href) || String.eqb href "#"
     || String.eqb href "javascript:void(0)" || seen
  then ret tt
  else
    processed_add href ;;;
    if Str.includes href "workers.dev"
       || (Str.includes href ".dev" && negb (Str.includes href "/?id="))
    then push (hd_stream "CfWorker" href mkv)
    else if Str.includes href "pixeldrain" then
      let href' :=
        match last_segment_token href with
        | Some token =>
            if Str.truthy token && negb (Str.includes href "/api/file/")
            then "https://pixeldrain.com/api/file/" +++ token +++ "?download"
            else href
        | None => href
        end in
      push (hd_stream "Pixeldrain" href' mkv)
    else if Str.includes href "cloudflarestorage" || Str.includes href "r2.dev"
            || Str.includes href "r2.cloudflarestorage"
    then push (hd_stream "CfStorage" href mkv)
    else if Str.includes href "hubcdn" && negb (Str.includes href "/?id=")
    then push (hd_stream "HubCdn" href mkv)
    else if Regex.test true Patterns.media_ext href
    then push (hd_stream "Direct" href (streamType href))
    else ret tt.

(** [url.split("/").slice(0, 3).join("/")] *)
Definition base_url (url : string) : string :=
  Str.join "/" (firstn 3 (Str.split url "/")).

(** The three redirect patterns of [hubcloudExtractor], first match wins. *)
Definition hubcloud_redirect (html : string) : option (list string) :=
  match Regex.exec false Patterns.var_url html with
  | Some m => Some m
  | None =>
      match Regex.exec false Patterns.location_replace html with
      | Some m => Some m
      | None => Regex.exec false Patterns.window_location html
      end
  end.

(** The destination of a redirect found in a page of aggregator A. *)
Definition hubcloud_target (baseUrl target : string) : string :=
  let target :=
    if Str.includes target "r=" then
      let decoded := decodeBase64 (nth_error (Str.split target "r=") 1) in
      if Str.truthy decoded then decoded else target
    else target in
  let target := if Str.startsWith target "/" then baseUrl +++ target else target in
  if negb (Str.startsWith target "http") then baseUrl +++ "/" +++ target else target.

(** The scan of the page text for media URLs; [skip] tells which URLs are
    left out. *)
Definition direct_url (skip : string -> bool) (u : string) : Body unit :=
  seen <- processed_has u ;;
  when (negb seen && negb (skip u))
    (processed_add u ;;; push (hd_stream "Direct" u (streamType u))).

Definition hubcloud_body (url : string) : Body unit :=
  let baseUrl := base_url url in
  page <- on_snd (fetchHtml url []) ;;
  match page with
  | None => ret tt
  | Some page =>
      when (Str.truthy page)
        (_ <- of_res (cheerio_load rt page) ;;
         targetHtml <-
           match hubcloud_redirect page with
           | Some redirect =>
               if Str.truthy (Regex.group redirect 1) then
                 let target := hubcloud_target baseUrl (Regex.group redirect 1) in
                 newHtml <- on_snd (fetchHtml target []) ;;
                 ret (match newHtml with
                      | Some h => if Str.truthy h then h else page
                      | None => page
                      end)
               else ret page
           | None => ret page
           end ;;
         doc <- of_res (cheerio_load rt targetHtml) ;;
         for_each hubcloud_selectors
           (fun sel => for_each (Cheerio.select doc sel) hubcloud_link) ;;;
         for_each (Regex.match_all true Patterns.media_url targetHtml)
           (direct_url (fun u => Str.includes u "example" || Str.includes u "sample")))
  end.

Definition hubcloudExtractor (url : string) : SE W (list StreamLink) :=
  extractor_frame (hubcloud_body url).

(** *** Link aggregator B *)

Definition gdflix_selectors : list Selector :=
  [ByClass ["btn-outline-success"]; ByClass ["btn-success"]; ByClass ["btn-danger"];
   ByClass ["btn-primary"];
   AHrefContains "cloudflarestorage"; AHrefContains "r2.dev";
   AHrefContains "pixeldrain"; AHrefContains "workers.dev";
   AHrefContains "streamtape"; AHrefContains "dood"; AHrefContains "filemoon";
   AHrefContains "mixdrop"].

(** The callback of [$(sel).each] in [gdflixExtractor]. *)
Definition gdflix_link (baseUrl : string) (el : Element) : Body unit :=
  let href := Str.or_default (href el) EmptyString in
  let text := Str.toLowerCase (text el) in
  seen <- processed_has href ;;
  if negb (Str.truthy href) || String.eqb href "#" || seen then ret tt
  else
    processed_add href ;;;
    if Str.includes href "cloudflarestorage" || Str.includes href "r2.dev"
    then push (hd_stream "R2Storage" href mkv)
    else if Str.includes href "pixeldrain" then
      let directUrl :=
        match last_segment_token href with
        | Some token =>
            if Str.truthy token
            then "https://pixeldrain.com/api/file/" +++ token +++ "?download"
            else href
        | None => href
        end in
      push (hd_stream "Pixeldrain" directUrl mkv)
    else if Str.includes href "workers.dev"
    then push (hd_stream "CfWorker" href mkv)
    else if Str.includes text "fast" || Str.includes text "gdrive" then
      let fullUrl := if Str.startsWith href "http" then href else baseUrl +++ href in
      push (hd_stream "FastDL" fullUrl mkv)
    else ret tt.

(** The callback of [$("a[href^='http']").each] in [gdflixExtractor]. *)
Definition gdflix_embed (el : Element) : Body unit :=
  let href := Str.or_default (href el) EmptyString in
  seen <- processed_has href ;;
  if seen then ret tt
  else if Str.includes href "streamtape"
  then processed_add href ;;; push (hd_stream "Streamtape" href mp4)
  else if Str.includes href "dood"
  then processed_add href ;;; push (hd_stream "Doodstream" href mp4)
  else if Str.includes href "filemoon"
  then processed_add href ;;; push (hd_stream "Filemoon" href m3u8)
  else if Str.includes href "mixdrop"
  then processed_add href ;;; push (hd_stream "Mixdrop" href mp4)
  else ret tt.

(** The link to a page of aggregator A found in a page of aggregator B. *)
Definition gdflix_hub_link (doc : Doc) : option string :=
  Str.or_else (Cheerio.attr_href (Cheerio.select doc (AContains "V-Cloud")))
    (Str.or_else (Cheerio.attr_href (Cheerio.select doc (AContains "HubCloud")))
       (Str.or_else (Cheerio.attr_href (Cheerio.select doc (AContains "Hub-Cloud")))
          (Str.or_else (Cheerio.attr_href (Cheerio.select doc (AHrefContains "hubcloud")))
             (Cheerio.attr_href (Cheerio.select doc (AHrefContains "vcloud")))))).

(** The selectors that [gdflixExtractor] uses after the loop over
    [gdflix_selectors]. *)
Definition gdflix_link_selectors : list Selector :=
  [AContains "V-Cloud"; AContains "HubCloud"; AContains "Hub-Cloud";
   AHrefContains "hubcloud"; AHrefContains "vcloud"; AHrefStartsWith "http"].

Definition gdflix_redirect (html : string) : option (list string) :=
  match Regex.exec false Patterns.location_replace html with
  | Some m => Some m
  | None => Regex.exec false Patterns.window_location html
  end.

Definition gdflix_body (url : string) : Body unit :=
  let baseUrl := base_url url in
  page <- on_snd (fetchHtml url []) ;;
  match page with
  | None => ret tt
  | Some page =>
      when (Str.truthy page)
        (doc0 <- of_res (cheerio_load rt page) ;;
         doc <-
           match gdflix_redirect page with
           | Some redirect =>
               let r1 := Regex.group redirect 1 in
               if Str.truthy r1 then
                 let target := if Str.startsWith r1 "http" then r1 else baseUrl +++ r1 in
                 newHtml <- on_snd (fetchHtml target []) ;;
                 match newHtml with
                 | Some h => if Str.truthy h then of_res (cheerio_load rt h) else ret doc0
                 | None => ret doc0
                 end
               else ret doc0
           | None => ret doc0
           end ;;
         for_each gdflix_selectors
           (fun sel => for_each (Cheerio.select doc sel) (gdflix_link baseUrl)) ;;;
         match gdflix_hub_link doc with
         | Some hubLink =>
             seen <- processed_has hubLink ;;
             when (Str.truthy hubLink && negb seen)
               (hubStreams <- on_snd (hubcloudExtractor hubLink) ;;
                push_all hubStreams)
         | None => ret tt
         end ;;;
         for_each (Cheerio.select doc (AHrefStartsWith "http")) gdflix_embed ;;;
         for_each (Regex.match_all true Patterns.media_url (html doc))
           (direct_url (fun u => Str.includes u "example")))
  end.

Definition gdflixExtractor (url : string) : SE W (list StreamLink) :=
  extractor_frame (gdflix_body url).

(** ** The orchestrator *)

(** The first step of [resolveLink]: the extractor is chosen by the first
    marker found in the lower-cased URL; a URL without a marker goes to
    aggregator A and, if that finds nothing, to aggregator B. *)
Definition extract_by_host (url : string) : SE W (list StreamLink) :=
  let lowerUrl := Str.toLowerCase url in
  if Str.includes lowerUrl "pixeldrain" then pixeldrainExtractor url
  else if Str.includes lowerUrl "streamtape" then streamtapeExtractor url
  else if Str.includes lowerUrl "dood" then doodstreamExtractor url
  else if Str.includes lowerUrl "filemoon" then filemoonExtractor url
  else if Str.includes lowerUrl "mixdrop" then mixdropExtractor url
  else if Str.includes lowerUrl "gdflix" || Str.includes lowerUrl "nexdrive"
  then gdflixExtractor url
  else if Str.includes lowerUrl "hubcloud" || Str.includes lowerUrl "vcloud"
  then hubcloudExtractor url
  else
    streams <- hubcloudExtractor url ;;
    if (List.length streams =? 0)%nat then gdflixExtractor url else ret streams.

(** [resolved.length > 0 ? resolved : [stream]]: what one round of the
    deep-resolve loop pushes after a second extraction. *)
Definition resolved_or (stream : StreamLink) (resolved : list StreamLink)
  : list StreamLink :=
  if (0 <? List.length resolved)%nat then resolved else [stream].

(** One round of the loop over [streams]: the candidates it pushes to
    [deepResolved]. *)
Definition deep_resolve_one (stream : StreamLink) : SE W (list StreamLink) :=
  if String.eqb (server stream) "Streamtape"
     && negb (Str.includes (link stream) "get_video")
  then resolved <- streamtapeExtractor (link stream) ;; ret (resolved_or stream resolved)
  else if String.eqb (server stream) "Doodstream"
          && negb (Str.includes (link stream) "pass_md5")
  then resolved <- doodstreamExtractor (link stream) ;; ret (resolved_or stream resolved)
  else if String.eqb (server stream) "Filemoon"
          && negb (Str.includes (link stream) ".m3u8")
  then resolved <- filemoonExtractor (link stream) ;; ret (resolved_or stream resolved)
  else if String.eqb (server stream) "Mixdrop"
          && negb (Str.includes (link stream) "delivery")
  then resolved <- mixdropExtractor (link stream) ;; ret (resolved_or stream resolved)
  else ret [stream].

(** [for (const stream of streams) { ... }], with [deepResolved] so far. *)
Fixpoint deep_resolve (streams deepResolved : list StreamLink)
  : SE W (list StreamLink) :=
  match streams with
  | [] => ret deepResolved
  | stream :: rest =>
      pushed <- deep_resolve_one stream ;;
      deep_resolve rest (deepResolved ++ pushed)
  end.

(** [resolveLink(url)], over the store [cache.streams] and the world. *)
Definition resolveLink (url : string)
  : SE (JsMap (list StreamLink) * W) (list StreamLink) :=
  store <- get_fst ;;
  now <- on_snd (total (fun w => (Date_now rt w, w))) ;;
  match getCached store url CACHE_TTL.streams now with
  | Some hit => ret (hit_data hit)
  | None =>
      streams <- on_snd (extract_by_host url) ;;
      deepResolved <- on_snd (deep_resolve streams []) ;;
      let finalStreams :=
        if (0 <? List.length deepResolved)%nat then deepResolved else streams in
      when (0 <? List.length finalStreams)%nat
        (now' <- on_snd (total (fun w => (Date_now rt w, w))) ;;
         modify_fst (fun store => setCache store url finalStreams now')) ;;;
      ret finalStreams
  end.

End Extractors.

(** ** The extractor set as a whole *)

(** The hosts that have an extractor. *)
Inductive Host : Type :=
| Pixeldrain | Streamtape | Doodstream | Filemoon | Mixdrop | Gdflix | Hubcloud.

Section Hosts.
Context {W : Type} (rt : Runtime W).

(** The extractor of a host. *)
Definition extractor (h : Host) : string -> SE W (list StreamLink) :=
  match h with
  | Pixeldrain => pixeldrainExtractor rt
  | Streamtape => streamtapeExtractor rt
  | Doodstream => doodstreamExtractor rt
  | Filemoon => filemoonExtractor rt
  | Mixdrop => mixdropExtractor rt
  | Gdflix => gdflixExtractor rt
  | Hubcloud => hubcloudExtractor rt
  end.

(** The body of its [try] block. *)
Definition extractor_body (h : Host) : string -> Body unit :=
  match h with
  | Pixeldrain => pixeldrain_body rt
  | Streamtape => streamtape_body rt
  | Doodstream => doodstream_body rt
  | Filemoon => filemoon_body rt
  | Mixdrop => mixdrop_body rt
  | Gdflix => gdflix_body rt
  | Hubcloud => hubcloud_body rt
  end.

(** The page that the extractor of a host fetches first; the file host
    reads the URL only. *)
Definition page_url (h : Host) (url : string) : option string :=
  match h with
  | Pixeldrain => None
  | Doodstream => Some (Regex.replace false Patterns.dood_domain url "dood.li")
  | _ => Some url
  end.

(** The fetch of the page fails: [fetchHtml] returns [null] or an empty
    text. *)
Definition page_fetch_failed (h : Host) (url : string) (w : W) : Prop :=
  match page_url h url with
  | Some p =>
      exists w1, fetchHtml rt p [] w = (Ok None, w1)
                 \/ fetchHtml rt p [] w = (Ok (Some EmptyString), w1)
  | None => False
  end.

(** The page is fetched but holds none of the markup that the extractor of
    the host looks for (for the file host: the URL holds no file
    identifier). *)
Definition no_markup (h : Host) (url : string) (w : W) : Prop :=
  match h with
  | Pixeldrain =>
      Regex.exec false Patterns.file_id_u url = None
      /\ Regex.exec false Patterns.file_id_api url = None
  | _ =>
      exists p page w1,
        page_url h url = Some p
        /\ fetchHtml rt p [] w = (Ok (Some page), w1)
        /\ match h with
           | Pixeldrain => True
           | Streamtape =>
               Regex.exec false Patterns.robotlink page = None
               /\ Regex.exec false Patterns.norobotlink page = None
           | Doodstream => Regex.exec false Patterns.pass_md5 page = None
           | Filemoon =>
               Regex.exec true Patterns.file_m3u8 page = None
               /\ Regex.exec true Patterns.sources_file page = None
               /\ Regex.match_all true Patterns.m3u8_url page = []
           | Mixdrop => Regex.exec false Patterns.mdcore_wurl page = None
           | Hubcloud =>
               hubcloud_redirect page = None
               /\ Regex.match_all true Patterns.media_url page = []
               /\ exists doc,
                   cheerio_load rt page = Ok doc
                   /\ Forall (fun sel => Cheerio.select doc sel = [])
                        hubcloud_selectors
           | Gdflix =>
               gdflix_redirect page = None
               /\ exists doc,
                   cheerio_load rt page = Ok doc
                   /\ Forall (fun sel => Cheerio.select doc sel = [])
                        (gdflix_selectors ++ gdflix_link_selectors)
                   /\ Regex.match_all true Patterns.media_url (html doc) = []
           end
  end.

(** The fallback of [resolveLink] for a URL without a marker. *)
Definition fallback (url : string) : SE W (list StreamLink) :=
  streams <- hubcloudExtractor rt url ;;
  if (List.length streams =? 0)%nat then gdflixExtractor rt url else ret streams.

End Hosts.

(** ** The second requests of the extractors

    Four extractors make a request after the first one: the file host
    extractor asks for the [info] document, the extractor of embed host B
    for the token of the video, and the two aggregators for the target of a
    redirect. What follows names the parts of their bodies around these
    requests. *)

Section Phases.
Context {W : Type} (rt : Runtime W).

(** [fileId] in [pixeldrainExtractor] *)
Definition pixeldrain_file_id (url : string) : option string :=
  Str.or_else
    (option_map (fun m => Regex.group m 1) (Regex.exec false Patterns.file_id_u url))
    (option_map (fun m => Regex.group m 1) (Regex.exec false Patterns.file_id_api url)).

(** The URL holds the file identifier [fileId], and the request for the
    [info] document of that file fails: [fetchJson] returns [null]. *)
Definition info_fetch_failed (url : string) (w : W) (fileId : string) (w1 : W)
  : Prop :=
  pixeldrain_file_id url = Some fileId
  /\ Str.truthy fileId = true
  /\ fetchJson rt ("https://pixeldrain.com/api/file/" +++ fileId +++ "/info") [] w
     = (Ok None, w1).

(** The page of embed host B holds the path of the token, and the request
    for the token fails: [fetchHtml] returns [null] or an empty text. *)
Definition token_fetch_failed (url : string) (w : W) : Prop :=
  let normalizedUrl := Regex.replace false Patterns.dood_domain url "dood.li" in
  exists page w1 passMatch w2,
    fetchHtml rt normalizedUrl [] w = (Ok (Some page), w1)
    /\ Regex.exec false Patterns.pass_md5 page = Some passMatch
    /\ (fetchHtml rt ("https://dood.li/pass_md5/" +++ Regex.group passMatch 1)
          [("Referer", normalizedUrl)] w1 = (Ok None, w2)
        \/ fetchHtml rt ("https://dood.li/pass_md5/" +++ Regex.group passMatch 1)
             [("Referer", normalizedUrl)] w1 = (Ok (Some EmptyString), w2)).

(** [target] in the two aggregators: the address that a redirect found in
    [page] leads to, if one is found. *)
Definition redirect_target (h : Host) (url page : string) : option string :=
  match h with
  | Hubcloud =>
      match hubcloud_redirect page with
      | Some redirect =>
          if Str.truthy (Regex.group redirect 1)
          then Some (hubcloud_target rt (base_url url) (Regex.group redirect 1))
          else None
      | None => None
      end
  | Gdflix =>
      match gdflix_redirect page with
      | Some redirect =>
          let r1 := Regex.group redirect 1 in
          if Str.truthy r1
          then Some (if Str.startsWith r1 "http" then r1 else base_url url +++ r1)
          else None
      | None => None
      end
  | _ => None
  end.

(** [hubcloudExtractor] from [cheerio.load(targetHtml)] on. *)
Definition hubcloud_scan (targetHtml : string) : Body (W := W) unit :=
  doc <- of_res (cheerio_load rt targetHtml) ;;
  for_each hubcloud_selectors
    (fun sel => for_each (Cheerio.select doc sel) hubcloud_link) ;;;
  for_each (Regex.match_all true Patterns.media_url targetHtml)
    (direct_url (fun u => Str.includes u "example" || Str.includes u "sample")).

(** [gdflixExtractor] from the loop over the selectors on, with [doc] for
    the document [$]. *)
Definition gdflix_scan (baseUrl : string) (doc : Doc) : Body (W := W) unit :=
  for_each gdflix_selectors
    (fun sel => for_each (Cheerio.select doc sel) (gdflix_link baseUrl)) ;;;
  match gdflix_hub_link doc with
  | Some hubLink =>
      seen <- processed_has hubLink ;;
      when (Str.truthy hubLink && negb seen)
        (hubStreams <- on_snd (hubcloudExtractor rt hubLink) ;;
         push_all hubStreams)
  | None => ret tt
  end ;;;
  for_each (Cheerio.select doc (AHrefStartsWith "http")) gdflix_embed ;;;
  for_each (Regex.match_all true Patterns.media_url (html doc))
    (direct_url (fun u => Str.includes u "example")).

(** What an aggregator does with the page text that it ends up with: it
    parses the text and collects the candidates. *)
Definition scan (h : Host) (url text : string) : Body (W := W) unit :=
  match h with
  | Hubcloud => hubcloud_scan text
  | Gdflix => doc <- of_res (cheerio_load rt text) ;; gdflix_scan (base_url url) doc
  | _ => ret tt
  end.

(** An aggregator has fetched and parsed its page [page], in the world
    [w1]. *)
Definition page_loaded (h : Host) (url : string) (w : W) (page : string) (w1 : W)
  : Prop :=
  (h = Hubcloud \/ h = Gdflix)
  /\ fetchHtml rt url [] w = (Ok (Some page), w1)
  /\ Str.truthy page = true
  /\ exists doc0, cheerio_load rt page = Ok doc0.

(** [scans h url w text w']: the aggregator [h], run on [url] in the world
    [w], gets as far as the scan, of the page text [text], in the world
    [w']. The text is that of the target of the redirect when there is one
    and it could be fetched, and that of the first page otherwise. *)
Definition scans (h : Host) (url : string) (w : W) (text : string) (w' : W)
  : Prop :=
  exists page w1,
    page_loaded h url w page w1
    /\ match redirect_target h url page with
       | Some target =>
           exists newHtml,
             fetchHtml rt target [] w1 = (Ok newHtml, w')
             /\ text = match newHtml with
                       | Some t => if Str.truthy t then t else page
                       | None => page
                       end
       | None => text = page /\ w' = w1
       end.

(** The page [page] of an aggregator holds a redirect, and the request for
    its target fails: [fetchHtml] returns [null] or an empty text. *)
Definition redirect_fetch_failed (h : Host) (url : string) (w : W)
    (page : string) (w2 : W) : Prop :=
  exists w1 target,
    page_loaded h url w page w1
    /\ redirect_target h url page = Some target
    /\ (fetchHtml rt target [] w1 = (Ok None, w2)
        \/ fetchHtml rt target [] w1 = (Ok (Some EmptyString), w2)).

(** The page text holds none of the links that the aggregator [h] looks
    for. *)
Definition no_links (h : Host) (text : string) : Prop :=
  match h with
  | Hubcloud =>
      Regex.match_all true Patterns.media_url text = []
      /\ exists doc,
          cheerio_load rt text = Ok doc
          /\ Forall (fun sel => Cheerio.select doc sel = []) hubcloud_selectors
  | Gdflix =>
      exists doc,
        cheerio_load rt text = Ok doc
        /\ Forall (fun sel => Cheerio.select doc sel = [])
             (gdflix_selectors ++ gdflix_link_selectors)
        /\ Regex.match_all true Patterns.media_url (html doc) = []
  | _ => False
  end.

End Phases.

(** ** The classification as the specification words it *)

(** The markers of each host, in the order of precedence. *)
Definition host_markers : list (Host * list string) :=
  [(Pixeldrain, ["pixeldrain"]); (Streamtape, ["streamtape"]); (Doodstream, ["dood"]);
   (Filemoon, ["filemoon"]); (Mixdrop, ["mixdrop"]);
   (Gdflix, ["gdflix"; "nexdrive"]); (Hubcloud, ["hubcloud"; "vcloud"])].

(** Some marker of the entry occurs in the lower-cased URL. *)
Definition marked (url : string) (entry : Host * list string) : bool :=
  existsb (Str.includes (Str.toLowerCase url)) (snd entry).

(** The host of the first entry with a marker in the URL. *)
Definition classify_spec (url : string) : option Host :=
  option_map fst (find (marked url) host_markers).

(** ** Absolute URLs *)

Module Url.
Definition is_alpha (c : ascii) : bool :=
  let n := nat_of_ascii c in
  (((97 <=? n) && (n <=? 122)) || ((65 <=? n) && (n <=? 90)))%nat.

Definition is_scheme_char (c : ascii) : bool :=
  Regex.is_alnum c || Ascii.eqb c "+"%char || Ascii.eqb c "-"%char
  || Ascii.eqb c "."%char.

Fixpoint scheme_rest (s : string) : bool :=
  match s with
  | String c s' =>
      if Ascii.eqb c ":"%char then true
      else if is_scheme_char c then scheme_rest s' else false
  | EmptyString => false
  end.

(** An absolute URL starts with a scheme: a letter, then letters, digits,
    [+], [-] or [.], then a colon. A scheme-relative URL ([//host/...]) and
    a path-relative one ([/path], [path]) do not. *)
Definition is_absolute (s : string) : bool :=
  match s with
  | String c s' => is_alpha c && scheme_rest s'
  | EmptyString => false
  end.
End Url.

(** The text starts with a letter or a digit. *)
Definition starts_alnum (s : string) : bool :=
  match s with
  | String c _ => Regex.is_alnum c
  | EmptyString => false
  end.

(** ** Specifications of computations *)

(** [hoare P c Q E]: from a state in [P], the computation [c] either
    completes normally with a value and a state in [Q], or throws in a state
    in [E]. *)
Definition hoare {S A : Type} (P : S -> Prop) (c : SE S A)
    (Q : A -> S -> Prop) (E : S -> Prop) : Prop :=
  forall s, P s ->
    match c s with
    | (Ok a, s') => Q a s'
    | (Throw _, s') => E s'
    end.

(** [quiet c]: the computation [c] never throws. *)
Definition quiet {S A : Type} (c : SE S A) : Prop :=
  hoare (fun _ => True) c (fun _ _ => True) (fun _ => False).

(** No candidate has been pushed yet. *)
Definition clean {W : Type} (lw : Locals * W) : Prop := streams (fst lw) = [].

(** [keeps c]: the computation [c] pushes no candidate, whether it completes
    normally or throws. *)
Definition keeps {W A : Type} (c : SE (Locals * W) A) : Prop :=
  hoare clean c (fun _ => clean) clean.

(** [throws_clean c]: if the computation [c] throws, no candidate has been
    pushed. *)
Definition throws_clean {W A : Type} (c : SE (Locals * W) A) : Prop :=
  hoare clean c (fun _ _ => True) clean.

(** ** Concrete runs *)

(** A [put] call: [setCache(map, key, data)] made when the clock reads
    [put_now]. *)
Record Put (T : Type) : Type := mkPut { put_key : string; put_data : T; put_now : Z }.
Arguments mkPut {T} _ _ _.
Arguments put_key {T} _.
Arguments put_data {T} _.
Arguments put_now {T} _.

(** The store after a sequence of [put] calls, first call first. *)
Definition run_puts {T : Type} (puts : list (Put T)) (map : JsMap T) : JsMap T :=
  fold_left (fun m p => setCache m (put_key p) (put_data p) (put_now p)) puts map.

(** [n] calls with pairwise different keys, at times 0, 1, ..., n-1. *)
Definition distinct_puts (n : nat) : list (Put nat) :=
  map (fun i => mkPut ("k" +++ NilEmpty.string_of_uint (Nat.to_uint i)) i (Z.of_nat i))
      (seq 0 n).

(** A world that never changes: a fixed set of pages, each with the document
    that the HTML parser builds from it; every other URL fails to load. The
    clock reads 0 and the random text is constant. *)
Definition static_site (pages : list (string * string)) (docs : list (string * Doc))
  : Runtime unit :=
  mkRuntime unit
    (fun url _ w =>
       match find (fun p => String.eqb (fst p) url) pages with
       | Some p => (Ok (mkResponse true (Ok (snd p)) (Throw "SyntaxError")), w)
       | None => (Throw "TypeError: fetch failed", w)
       end)
    (fun _ => 0%Z)
    (fun w => ("0.4fzyo82mvyr", w))
    (fun _ => Throw "InvalidCharacterError")
    (fun page =>
       match find (fun d => String.eqb (fst d) page) docs with
       | Some d => Ok (snd d)
       | None => Ok (mkDoc [] page)
       end).

(** A world without network: every fetch fails. *)
Definition offline : Runtime unit := static_site [] [].

(** A world in which the file host answers the request for the [info]
    document of the file [abc123] with the JSON document [info], and every
    other request fails. The text of the answer is not read. *)
Definition metadata_site (info : option FileInfo) : Runtime unit :=
  mkRuntime unit
    (fun url _ w =>
       if String.eqb url "https://pixeldrain.com/api/file/abc123/info"
       then (Ok (mkResponse true (Throw "TypeError: body unusable") (Ok info)), w)
       else (Throw "TypeError: fetch failed", w))
    (fun _ => 0%Z)
    (fun w => ("0.4fzyo82mvyr", w))
    (fun _ => Throw "InvalidCharacterError")
    (fun page => Ok (mkDoc [] page)).

(** The [info] document names a video. *)
Definition video_metadata_site : Runtime unit :=
  metadata_site (Some (JObject [("name", Some (JString "movie.mp4"));
                                ("size", Some (JNumber "1048576"));
                                ("mime_type", Some (JString "video/mp4"))])).

(** The [info] document holds a number where the text of the type is
    expected. *)
Definition number_metadata_site : Runtime unit :=
  metadata_site (Some (JObject [("mime_type", Some (JNumber "5"))])).

(** A page of aggregator A with one download button whose link is relative. *)
Definition relative_button_page : string :=
  "<html><body><a class='btn btn-success' href='/files/movie.mkv'>Download</a></body></html>".

Definition relative_button_doc : Doc :=
  mkDoc [mkElement "html" [] None "Download"; mkElement "body" [] None "Download";
         mkElement "a" ["btn"; "btn-success"] (Some "/files/movie.mkv") "Download"]
        relative_button_page.

(** A page of embed host C whose player configuration names a relative
    playlist. *)
Definition relative_playlist_page : string :=
  "<script>jwplayer('vplayer').setup({sources: [{file:'/hls/master.m3u8'}]});</script>".

(** A page of embed host A that assigns the video URL to the element
    [robotlink]. *)
Definition streamtape_page : string :=
  "<script>document.getElementById('robotlink').innerHTML = '//streamtape.com/get_video?id=abc&expires=9&token=t0k';</script>".

(** A site that serves this page at an embed URL. *)
Definition streamtape_site : Runtime unit :=
  static_site [("https://streamtape.com/e/abc", streamtape_page)] [].

(** The site of the two pages with relative links. *)
Definition relative_links_site : Runtime unit :=
  static_site
    [("https://hubcloud.example/drive/abc", relative_button_page);
     ("https://filemoon.example/e/xyz", relative_playlist_page)]
    [(relative_button_page, relative_button_doc)].

(** A page of aggregator B with a fast-download button whose link is
    relative, and a page of embed host D whose video URL has no scheme. *)
Definition fast_button_page : string :=
  "<html><body><a class='btn btn-success' href='/file/xyz'>Fast Download</a></body></html>".

Definition fast_button_doc : Doc :=
  mkDoc [mkElement "html" [] None "Fast Download";
         mkElement "body" [] None "Fast Download";
         mkElement "a" ["btn"; "btn-success"] (Some "/file/xyz") "Fast Download"]
        fast_button_page.

Definition wurl_page : string :=
  "<script>MDCore.wurl = '//s-delivery.example/v/abc.mp4';</script>".

Definition resolving_site : Runtime unit :=
  static_site
    [("https://gdflix.example/file/1", fast_button_page);
     ("https://mixdrop.example/e/abc", wurl_page)]
    [(fast_button_page, fast_button_doc)].

(** A page of aggregator A that redirects to [/next] and holds a download
    button as well. *)
Definition redirecting_page : string :=
  "<script>location.replace('/next')</script><a class='btn-success' href='https://cdn.example/movie.mp4'>Download</a>".

Definition redirecting_doc : Doc :=
  mkDoc [mkElement "script" [] None "location.replace('/next')";
         mkElement "a" ["btn-success"] (Some "https://cdn.example/movie.mp4") "Download"]
        redirecting_page.

(** A site that serves this page but not the target of its redirect. *)
Definition redirecting_site : Runtime unit :=
  static_site [("https://hubcloud.example/drive/r", redirecting_page)]
              [(redirecting_page, redirecting_doc)].

(** A page of aggregator A that holds a redirect and nothing else, on a site
    that does not serve the target. *)
Definition redirect_only_page : string := "<script>location.replace('/next')</script>".

Definition redirect_only_site : Runtime unit :=
  static_site [("https://hubcloud.example/drive/o", redirect_only_page)] [].

(** A page of embed host B that holds the path of the token, on a site that
    does not serve the token. *)
Definition token_page : string := "<script>$.get('/pass_md5/abc/def', go)</script>".

Definition token_site : Runtime unit :=
  static_site [("https://dood.li/e/abc", token_page)] [].

(** ** Definitions for the further properties *)

(** The keys of a map, in insertion order. *)
Definition keys {T : Type} (m : JsMap T) : list string := map fst m.

(** The key that [setCache] evicts from [m], if it evicts. *)
Definition evicted_key {T : Type} (m : JsMap T) : option string :=
  if (1000 <? JsMapOps.size m)%nat then option_map fst (oldest m) else None.

(** The text that marks a link of an embed host as final, by server name;
    the other servers have none. *)
Definition terminal_marker (srv : string) : option string :=
  if String.eqb srv "Streamtape" then Some "get_video"
  else if String.eqb srv "Doodstream" then Some "pass_md5"
  else if String.eqb srv "Filemoon" then Some ".m3u8"
  else if String.eqb srv "Mixdrop" then Some "delivery"
  else None.

(** The candidate is not of an embed host, or its link holds the marker of
    its host. *)
Definition looks_terminal (stream : StreamLink) : bool :=
  match terminal_marker (server stream) with
  | Some marker => Str.includes (link stream) marker
  | None => true
  end.

(** No page can be fetched: [fetchHtml] returns [null] for every URL. *)
Definition no_page {W : Type} (rt : Runtime W) : Prop :=
  forall url hs w, exists w', fetchHtml rt url hs w = (Ok None, w').

(** ** What a pattern matches *)

Module RegexSem.
Import Regex.

(** Every character of [s] is in the class [p]. *)
Fixpoint all_chars (p : ascii -> bool) (s : string) : bool :=
  match s with
  | EmptyString => true
  | String c s' => p c && all_chars p s'
  end.

(** [Matches ci r text caps]: the pattern [r] matches exactly [text], and
    its groups capture [caps], in the order in which [Regex.run] records
    them. *)
Inductive Matches (ci : bool) : regex -> string -> list string -> Prop :=
| M_Lit l t :
    lit ci l t = Some EmptyString -> Matches ci (Lit l) t []
| M_Cls p c :
    p c = true -> Matches ci (Cls p) (String c EmptyString) []
| M_Star p t :
    all_chars p t = true -> Matches ci (Star p) t []
| M_Plus p c t :
    p c = true -> all_chars p t = true -> Matches ci (Plus p) (String c t) []
| M_Opt_none c :
    Matches ci (OptC c) EmptyString []
| M_Opt_some c c' :
    char_eq ci c c' = true -> Matches ci (OptC c) (String c' EmptyString) []
| M_Seq r1 r2 t1 t2 c1 c2 :
    Matches ci r1 t1 c1 -> Matches ci r2 t2 c2 ->
    Matches ci (Seq r1 r2) (t1 +++ t2) (c1 ++ c2)
| M_Alt_l r1 r2 t c :
    Matches ci r1 t c -> Matches ci (Alt r1 r2) t c
| M_Alt_r r1 r2 t c :
    Matches ci r2 t c -> Matches ci (Alt r1 r2) t c
| M_Group r t c :
    Matches ci r t c -> Matches ci (Group r) t (c ++ [t]).

(** The least number of characters that a match of [r] consumes. *)
Fixpoint min_len (r : regex) : nat :=
  match r with
  | Lit l => String.length l
  | Cls _ => 1
  | Star _ => 0
  | Plus _ => 1
  | OptC _ => 0
  | Seq r1 r2 => min_len r1 + min_len r2
  | Alt r1 r2 => Nat.min (min_len r1) (min_len r2)
  | Group r1 => min_len r1
  end.

(** The number of groups of [r], when both sides of every alternation have
    the same number of groups ([balanced]). *)
Fixpoint n_groups (r : regex) : nat :=
  match r with
  | Seq r1 r2 => n_groups r1 + n_groups r2
  | Alt r1 _ => n_groups r1
  | Group r1 => S (n_groups r1)
  | _ => 0
  end.

Fixpoint balanced (r : regex) : bool :=
  match r with
  | Seq r1 r2 => balanced r1 && balanced r2
  | Alt r1 r2 => (n_groups r1 =? n_groups r2)%nat && balanced r1 && balanced r2
  | Group r1 => balanced r1
  | _ => true
  end.

(** Every text that a group of [r] can capture satisfies [P]. *)
Fixpoint caps_in (ci : bool) (P : string -> Prop) (r : regex) : Prop :=
  match r with
  | Seq r1 r2 => caps_in ci P r1 /\ caps_in ci P r2
  | Alt r1 r2 => caps_in ci P r1 /\ caps_in ci P r2
  | Group r1 => (forall t c, Matches ci r1 t c -> P t) /\ caps_in ci P r1
  | _ => True
  end.

End RegexSem.

(** The server name that the extractor of a host gives to the candidates it
    builds itself. *)
Definition host_label (h : Host) : string :=
  match h with
  | Pixeldrain => "Pixeldrain"
  | Streamtape => "Streamtape"
  | Doodstream => "Doodstream"
  | Filemoon => "Filemoon"
  | Mixdrop => "Mixdrop"
  | Gdflix => "FastDL"
  | Hubcloud => "Direct"
  end.

(** The hosts whose page is one player or one file. *)
Definition single_host (h : Host) : bool :=
  match h with
  | Gdflix | Hubcloud => false
  | _ => true
  end.

(** Every candidate pushed so far satisfies [P]. *)
Definition all_streams {W : Type} (P : StreamLink -> Prop) (lw : Locals * W) : Prop :=
  Forall P (streams (fst lw)).

(** [maintains P c]: if every candidate pushed before [c] satisfies [P], so
    does every candidate pushed when [c] ends, normally or not. *)
Definition maintains {W A : Type} (P : StreamLink -> Prop)
    (c : SE (Locals * W) A) : Prop :=
  hoare (all_streams P) c (fun _ => all_streams P) (all_streams P).

(** The server names that [hubcloudExtractor] gives. *)
Definition hubcloud_servers : list string :=
  ["CfWorker"; "Pixeldrain"; "CfStorage"; "HubCdn"; "Direct"].

(** The server names that [gdflixExtractor] gives, those of the candidates
    it takes over from [hubcloudExtractor] included. *)
Definition gdflix_servers : list string :=
  ["R2Storage"; "Pixeldrain"; "CfWorker"; "FastDL"; "Streamtape"; "Doodstream";
   "Filemoon"; "Mixdrop"; "Direct"; "CfStorage"; "HubCdn"].

(** A site with one page of aggregator A that holds a worker link. *)
Definition worker_page : string :=
  "<a class='btn-success' href='https://files.workers.dev/movie.mkv'>Download</a>".

Definition worker_doc : Doc :=
  mkDoc [mkElement "a" ["btn-success"] (Some "https://files.workers.dev/movie.mkv")
           "Download"]
        worker_page.

Definition worker_site : Runtime unit :=
  static_site [("https://hubcloud.example/drive/w", worker_page)]
              [(worker_page, worker_doc)].

(** ** Titles *)

(** The patterns of [extractEpisodeInfo] and [extractYear]; [D] stands for a
    digit. *)
Module TextPatterns.
Import Regex.

(** [\d] *)
Definition is_digit (c : ascii) : bool :=
  ((48 <=? code c) && (code c <=? 57))%nat.

(** [[0-2]] *)
Definition is_0_2 (c : ascii) : bool :=
  ((48 <=? code c) && (code c <=? 50))%nat.

(** [\w] *)
Definition is_word (c : ascii) : bool := is_alnum c || Ascii.eqb c "_"%char.

(** [/S(\d+)\s*E(\d+)/i] *)
Definition s_e : regex :=
  seq_of [Lit "S"; Group (Plus is_digit); Star is_space; Lit "E";
          Group (Plus is_digit)].

(** [/Season\s*(\d+)\s*Episode\s*(\d+)/i] *)
Definition season_episode : regex :=
  seq_of [Lit "Season"; Star is_space; Group (Plus is_digit); Star is_space;
          Lit "Episode"; Star is_space; Group (Plus is_digit)].

(** [/Episode\s*(\d+)/i] *)
Definition episode_n : regex :=
  seq_of [Lit "Episode"; Star is_space; Group (Plus is_digit)].

(** [/E(\d+)/i] *)
Definition e_n : regex := Seq (Lit "E") (Group (Plus is_digit)).

(** [\((\d{4})\)], the left side of the pattern of [extractYear] *)
Definition year_paren : regex :=
  seq_of [Lit "(";
          Group (seq_of [Cls is_digit; Cls is_digit; Cls is_digit; Cls is_digit]);
          Lit ")"].

(** [(20[0-2]\d|19\d{2})], the right side without its two [\b] *)
Definition year_bare : regex :=
  Group (Alt (seq_of [Lit "20"; Cls is_0_2; Cls is_digit])
             (seq_of [Lit "19"; Cls is_digit; Cls is_digit])).

End TextPatterns.

(** The last code unit of a string. *)
Fixpoint last_char (s : string) : option ascii :=
  match s with
  | EmptyString => None
  | String c EmptyString => Some c
  | String _ s' => last_char s'
  end.

(** [\b] at a position: [prev] is the code unit before it, if any, and [s]
    the input from it on. Exactly one side is a word character. *)
Definition boundary (prev : option ascii) (s : string) : bool :=
  xorb (match prev with Some c => TextPatterns.is_word c | None => false end)
       (match s with String c _ => TextPatterns.is_word c | EmptyString => false end).

(** One attempt of [/\((\d{4})\)|\b(20[0-2]\d|19\d{2})\b/] at a position:
    the array [m[0], m[1], m[2]], where a group that took no part is
    [undefined]. The left side is tried first. The closing [\b] is tested in
    the continuation of the matcher, so that a failure sends it back to the
    other side of the inner alternation. *)
Definition year_here (prev : option ascii) (s : string)
  : option (list (option string)) :=
  match Regex.run false TextPatterns.year_paren s []
          (fun rest caps => Some [Some (Regex.taken s rest); nth_error caps 0; None])
  with
  | Some m => Some m
  | None =>
      if boundary prev s then
        Regex.run false TextPatterns.year_bare s []
          (fun rest caps =>
             if boundary (last_char (Regex.taken s rest)) rest
             then Some [Some (Regex.taken s rest); None; nth_error caps 0]
             else None)
      else None
  end.

(** The leftmost match of the pattern of [extractYear]. *)
Fixpoint year_from (prev : option ascii) (s : string)
  : option (list (option string)) :=
  match year_here prev s with
  | Some m => Some m
  | None =>
      match s with
      | String c s' => year_from (Some c) s'
      | EmptyString => None
      end
  end.

(** [extractYear(text)] *)
Definition extractYear (text : string) : option string :=
  match year_from None text with
  | Some m => Str.or_else (nth 1 m None) (nth 0 m None)
  | None => None
  end.

Inductive ContentType : Type := movie | series.

(** [const keywords] of [getContentType] *)
Definition keywords : list string :=
  ["season"; "episode"; "s0"; "s1"; "series"; "web series"; "ep"].

(** [getContentType(title, link)] *)
Definition getContentType (title link : string) : ContentType :=
  if existsb (fun k => Str.includes (Str.toLowerCase (title +++ link)) k) keywords
  then series else movie.

(** The result of [extractEpisodeInfo]; an absent field is [None]. *)
Record EpisodeInfo : Type := mkEpisodeInfo {
  episode : option string;
  season : option string
}.

(** [const patterns] of [extractEpisodeInfo] *)
Definition episode_patterns : list Regex.regex :=
  [TextPatterns.s_e; TextPatterns.season_episode; TextPatterns.episode_n;
   TextPatterns.e_n].

(** The loop of [extractEpisodeInfo] over the patterns that are left. *)
Fixpoint episode_loop (patterns : list Regex.regex) (text : string) : EpisodeInfo :=
  match patterns with
  | [] => mkEpisodeInfo None None
  | pattern :: rest =>
      match Regex.exec true pattern text with
      | Some m =>
          if (3 <=? List.length m)%nat
          then mkEpisodeInfo (Some (Regex.group m 2)) (Some (Regex.group m 1))
          else mkEpisodeInfo (Some (Regex.group m 1)) None
      | None => episode_loop rest text
      end
  end.

(** [extractEpisodeInfo(text)] *)
Definition extractEpisodeInfo (text : string) : EpisodeInfo :=
  episode_loop episode_patterns text.

(** The keywords of [getContentType] that decide its result. *)
Definition deciding_keywords : list string := ["season"; "s0"; "s1"; "series"; "ep"].

(** A year as [extractYear] finds it in [text]: four digits in
    parentheses, or a bare number from 1900 to 2029. *)
Definition year_in (text y : string) : Prop :=
  String.length y = 4 /\ RegexSem.all_chars TextPatterns.is_digit y = true
  /\ Str.includes text y = true
  /\ (Str.includes text ("(" +++ y +++ ")") = true
      \/ exists a b,
           (y = "20" +++ String a (String b EmptyString) /\ TextPatterns.is_0_2 a = true)
           \/ y = "19" +++ String a (String b EmptyString)).

(** A non-empty run of digits. *)
Definition number_in (t : string) : Prop :=
  t <> EmptyString /\ RegexSem.all_chars TextPatterns.is_digit t = true.

(** ** The provider directory *)

Module Provider.
(** An entry of the directory: [{ name, url }]. *)
Record entry : Type := mk { name : string; url : string }.
End Provider.

(** The directory [Record<string, { name, url }>], as [Object.entries]
    lists it. *)
Definition Urls : Type := list (string * Provider.entry).

(** [urls[key]] *)
Fixpoint urls_get (urls : Urls) (key : string) : option Provider.entry :=
  match urls with
  | [] => None
  | (k, e) :: rest => if String.eqb k key then Some e else urls_get rest key
  end.

(** [const mappings] of [getBaseUrl] *)
Definition mappings : list (string * string) :=
  [("vega", "Vega"); ("vegamovies", "Vega");
   ("mod", "Moviesmod"); ("moviesmod", "Moviesmod");
   ("multi", "multi"); ("uhd", "UhdMovies")].

(** [mappings[key]], used as a key of the directory. The object [mappings]
    has a prototype, so the two lower-case names that it inherits answer
    too: the function [Object] and the prototype itself, which as keys read
    as below (in Node). *)
Definition mappings_get (key : string) : option string :=
  match find (fun kv => String.eqb (fst kv) key) mappings with
  | Some kv => Some (snd kv)
  | None =>
      if String.eqb key "constructor" then Some "function Object() { [native code] }"
      else if String.eqb key "__proto__" then Some "[object Object]"
      else None
  end.

(** [s.replace(/\/$/, Q)], where [Q] is the empty text: [s] without one
    slash at its end. *)
Fixpoint strip_slash (s : string) : string :=
  match s with
  | EmptyString => EmptyString
  | String c EmptyString => if Ascii.eqb c "/"%char then EmptyString else s
  | String c s' => String c (strip_slash s')
  end.

(** The loop of [getBaseUrl] over the entries of the directory. *)
Fixpoint entry_for (entries : Urls) (provider : string) : option string :=
  match entries with
  | [] => None
  | (key, val) :: rest =>
      if String.eqb (Str.toLowerCase key) (Str.toLowerCase provider)
         || String.eqb (Str.toLowerCase (Provider.name val)) (Str.toLowerCase provider)
      then Some (strip_slash (Provider.url val))
      else entry_for rest provider
  end.

(** The last line of [getBaseUrl]: the entry [Vega], or the fixed
    address. *)
Definition vega_or_default (urls : Urls) : string :=
  Str.or_default
    (option_map (fun e => strip_slash (Provider.url e)) (urls_get urls "Vega"))
    "https://vegamovies.gt".

(** [getBaseUrl(provider, urls)], for a directory of the declared type. *)
Definition getBaseUrl (provider : string) (urls : Urls) : string :=
  match entry_for urls provider with
  | Some u => u
  | None =>
      match mappings_get (Str.toLowerCase provider) with
      | Some mapped =>
          match urls_get urls mapped with
          | Some e => strip_slash (Provider.url e)
          | None => vega_or_default urls
          end
      | None => vega_or_default urls
      end
  end.

(** The directory that [getProviderUrls] returns when it cannot fetch
    one. *)
Definition builtin_urls : Urls :=
  [("Vega", Provider.mk "vegamovies" "https://vegamovies.gt");
   ("Moviesmod", Provider.mk "Moviesmod" "https://moviesmod.build")].

(** No slash occurs in [s]. *)
Fixpoint no_slash (s : string) : bool :=
  match s with
  | EmptyString => true
  | String c s' => negb (Ascii.eqb c "/"%char) && no_slash s'
  end.

(** ** What the store holds *)

(** A candidate with a link and with one of the eleven server names that
    the extractors give. *)
Definition well_formed (s : StreamLink) : Prop :=
  link s <> EmptyString /\ In (server s) gdflix_servers.

(** Every list in the store holds candidates with [P] only. *)
Definition store_all (P : StreamLink -> Prop) (store : JsMap (list StreamLink))
  : Prop :=
  forall k e, In (k, e) store -> Forall P (data e).

(** * Properties *)

(** ** The cache store *)

Module CacheFacts.
Import JsMapOps.
Section Facts.
Context {T : Type}.
Implicit Types (m l : JsMap T) (e : CacheEntry T) (x y o : string * CacheEntry T).

Lemma get_set_same m key e : get (set m key e) key = Some e.
Proof.
  induction m as [|[k e'] m IH]; simpl.
  - now rewrite String.eqb_refl.
  - destruct (String.eqb k key) eqn:E; simpl; rewrite E; auto.
Qed.

Lemma get_set_other m key key' e :
  key <> key' -> get (set m key e) key' = get m key'.
Proof.
  intros Hne. induction m as [|[k e'] m IH]; simpl.
  - destruct (String.eqb_spec key key'); congruence.
  - destruct (String.eqb_spec k key) as [->|Hk]; simpl.
    + destruct (String.eqb_spec key key'); congruence.
    + destruct (String.eqb k key'); auto.
Qed.

Lemma size_set m key e :
  size (set m key e) = match get m key with Some _ => size m | None => S (size m) end.
Proof.
  unfold size. induction m as [|[k e'] m IH]; simpl; auto.
  destruct (String.eqb k key); simpl; auto.
  rewrite IH. destruct (get m key); auto.
Qed.

Lemma size_delete m key :
  size (delete m key) = match get m key with Some _ => pred (size m) | None => size m end.
Proof.
  unfold size. induction m as [|[k e'] m IH]; simpl; auto.
  destruct (String.eqb k key); simpl; auto.
  rewrite IH. destruct (get m key) eqn:G; auto.
  destruct m; simpl in *; [discriminate | reflexivity].
Qed.

Lemma In_get m k e : In (k, e) m -> get m k <> None.
Proof.
  induction m as [|[k' e'] m IH]; simpl; [tauto|].
  intros [H|H].
  - inversion H; subst. now rewrite String.eqb_refl.
  - destruct (String.eqb k' k); [discriminate | auto].
Qed.

Lemma insert_sorted_In x y l : In y (insert_sorted x l) <-> y = x \/ In y l.
Proof.
  induction l as [|z l IH]; simpl.
  - intuition.
  - destruct (timestamp (snd x) <=? timestamp (snd z))%Z; simpl; [intuition|].
    rewrite IH. intuition.
Qed.

Lemma sort_by_timestamp_In y l : In y (sort_by_timestamp l) <-> In y l.
Proof.
  induction l as [|x l IH]; simpl; [tauto|].
  rewrite insert_sorted_In, IH. intuition.
Qed.

Lemma insert_sorted_head x l : head_least l -> head_least (insert_sorted x l).
Proof.
  destruct l as [|z l]; simpl.
  - intros _ y [<-|[]]. lia.
  - intros Hz. destruct (timestamp (snd x) <=? timestamp (snd z))%Z eqn:E; simpl.
    + intros y [<-|Hy]; [lia|]. apply Z.leb_le in E.
      specialize (Hz y Hy). lia.
    + intros y [<-|Hy]; [lia|]. apply Z.leb_gt in E.
      apply insert_sorted_In in Hy. destruct Hy as [->|Hy]; [lia|].
      apply Hz. now right.
Qed.

Lemma sort_by_timestamp_head l : head_least (sort_by_timestamp l).
Proof.
  induction l as [|x l IH]; simpl; [exact I|]. now apply insert_sorted_head.
Qed.

(** [oldest] picks an entry of the map whose timestamp is the smallest. *)
Lemma oldest_spec m o :
  oldest m = Some o ->
  In o m /\ forall y, In y m -> (timestamp (snd o) <= timestamp (snd y))%Z.
Proof.
  unfold oldest. intros H.
  pose proof (sort_by_timestamp_head m) as Hh.
  destruct (sort_by_timestamp m) as [|x l] eqn:E; simpl in H; [discriminate|].
  inversion H; subst x. split.
  - apply sort_by_timestamp_In. rewrite E. now left.
  - intros y Hy. apply Hh. rewrite <- E. now apply sort_by_timestamp_In.
Qed.

Lemma oldest_none m : oldest m = None -> m = [].
Proof.
  unfold oldest. destruct m as [|x m]; auto. simpl.
  destruct (sort_by_timestamp m); simpl.
  - discriminate.
  - destruct (timestamp (snd x) <=? timestamp (snd p))%Z; discriminate.
Qed.

(** What the code does guarantee: the store never holds more than 1001
    entries. *)
Lemma setCache_size_le_1001 m key d now :
  size m <= 1001 -> size (setCache m key d now) <= 1001.
Proof.
  intros Hm. unfold setCache.
  destruct (1000 <? size m)%nat eqn:E.
  - apply Nat.ltb_lt in E.
    destruct (oldest m) as [o|] eqn:Ho.
    + destruct (oldest_spec _ _ Ho) as [Hin _]. destruct o as [k e].
      apply In_get in Hin. simpl.
      rewrite size_set.
      pose proof (size_delete m k) as Hd.
      destruct (get m k); [|congruence].
      destruct (get (delete m k) key); lia.
    + apply oldest_none in Ho. subst. simpl in E. lia.
  - apply Nat.ltb_ge in E. rewrite size_set. destruct (get m key); lia.
Qed.

(** When [setCache] evicts, the evicted entry has the smallest timestamp
    of the store. *)
Lemma setCache_evicts_oldest m key d now :
  1000 < size m ->
  exists o, In o m
    /\ (forall y, In y m -> (timestamp (snd o) <= timestamp (snd y))%Z)
    /\ setCache m key d now = set (delete m (fst o)) key (mkEntry d now).
Proof.
  intros Hm. unfold setCache.
  apply Nat.ltb_lt in Hm. rewrite Hm.
  destruct (oldest m) as [o|] eqn:Ho.
  - exists o. destruct (oldest_spec _ _ Ho). auto.
  - apply oldest_none in Ho. subst. discriminate.
Qed.

End Facts.
End CacheFacts.

Lemma run_puts_size_le_1001 {T} (puts : list (Put T)) (m : JsMap T) :
  JsMapOps.size m <= 1001 -> JsMapOps.size (run_puts puts m) <= 1001.
Proof.
  revert m. induction puts as [|p puts IH]; intros m Hm.
  - exact Hm.
  - apply IH. apply CacheFacts.setCache_size_le_1001. exact Hm.
Qed.

(** C1 (the code at the failing input). After 1001 [setCache] calls with
    pairwise different keys on an empty store the store holds 1001 entries:
    the guard [map.size > 1000] lets the store grow one entry past the bound
    of 1000 before the first eviction. *)
Theorem setCache_1001_puts_size :
  JsMapOps.size (run_puts (distinct_puts 1001) []) = 1001.
Proof. vm_compute. reflexivity. Qed.

(** A key that is not in the map is not cached. *)
Lemma getCached_absent {T : Type} (m : JsMap T) (key : string) (ttl now : Z) :
  JsMapOps.get m key = None -> getCached m key ttl now = None.
Proof. unfold getCached. now intros ->. Qed.

(** C3. A [getCached] after a [setCache] of the same key returns the stored
    value exactly when the read happens strictly less than the TTL after the
    write; from then on it returns [null], as it does for a key that is
    absent ([getCached_absent]), although the entry is still in the map. *)
Theorem getCached_fresh_iff {T : Type} (m : JsMap T) (key : string) (d : T)
    (stored now ttl : Z) :
  (getCached (setCache m key d stored) key ttl now = Some (mkHit d true)
   <-> (now - stored < ttl)%Z)
  /\ (getCached (setCache m key d stored) key ttl now = None
      <-> (ttl <= now - stored)%Z)
  /\ JsMapOps.get (setCache m key d stored) key = Some (mkEntry d stored).
Proof.
  assert (G : JsMapOps.get (setCache m key d stored) key = Some (mkEntry d stored))
    by apply CacheFacts.get_set_same.
  unfold getCached. rewrite G. simpl timestamp. simpl data.
  destruct (Z.ltb_spec (now - stored) ttl); repeat split;
    try tauto; try discriminate; try lia.
Qed.

(** ** Running computations *)

Section Running.
Context {W : Type} (rt : Runtime W).

(** An extractor completes normally, with the [streams] its body leaves. *)
Lemma extractor_frame_run (body : Body unit) (w : W) :
  extractor_frame body w
  = (Ok (streams (fst (snd (body (mkLocals [] [], w))))),
     snd (snd (body (mkLocals [] [], w)))).
Proof. unfold extractor_frame. now destruct (body _) as [r lw]. Qed.

Lemma extractor_run (h : Host) (url : string) (w : W) :
  extractor rt h url w
  = (Ok (streams (fst (snd (extractor_body rt h url (mkLocals [] [], w))))),
     snd (snd (extractor_body rt h url (mkLocals [] [], w)))).
Proof. destruct h; apply extractor_frame_run. Qed.

Lemma extractor_ok (h : Host) (url : string) (w : W) :
  exists l w', extractor rt h url w = (Ok l, w').
Proof. rewrite extractor_run. eauto. Qed.

(** [bind] after a computation that completes normally. *)
Lemma bind_ok {S A B : Type} (c : SE S A) (f : A -> SE S B) s a s' :
  c s = (Ok a, s') -> bind c f s = f a s'.
Proof. unfold bind. now intros ->. Qed.

Lemma bind_assoc {S A B C : Type} (c : SE S A) (f : A -> SE S B)
    (g : B -> SE S C) s :
  bind (bind c f) g s = bind c (fun a => bind (f a) g) s.
Proof. unfold bind. now destruct (c s) as [[a|e] s']. Qed.

Lemma on_snd_ok {L S A : Type} (c : SE S A) (l : L) s a s' :
  c s = (Ok a, s') -> on_snd c (l, s) = (Ok a, (l, s')).
Proof. unfold on_snd. simpl. now intros ->. Qed.

(** The extraction step picks the extractor of the first marked host, or
    the fallback. *)
Lemma extract_by_host_classify (url : string) :
  extract_by_host rt url
  = match classify_spec url with
    | Some h => extractor rt h url
    | None => fallback rt url
    end.
Proof.
  unfold extract_by_host, classify_spec, host_markers, marked. simpl.
  repeat rewrite orb_false_r.
  repeat match goal with
         | |- context [Str.includes ?s ?m] =>
             destruct (Str.includes s m); simpl; try reflexivity
         end.
Qed.

Lemma fallback_run (url : string) (w : W) :
  exists streams w1,
    hubcloudExtractor rt url w = (Ok streams, w1)
    /\ fallback rt url w
       = match streams with
         | [] => gdflixExtractor rt url w1
         | _ :: _ => (Ok streams, w1)
         end.
Proof.
  destruct (extractor_ok Hubcloud url w) as (streams & w1 & H). simpl in H.
  exists streams, w1. split; [exact H|].
  unfold fallback. rewrite (bind_ok _ _ _ _ _ H). now destruct streams.
Qed.

(** One round of the deep-resolve loop pushes at least one candidate. *)
Lemma deep_resolve_one_ok (stream : StreamLink) (w : W) :
  exists pushed w',
    deep_resolve_one rt stream w = (Ok pushed, w') /\ 1 <= List.length pushed.
Proof.
  assert (R : forall r, 1 <= List.length (resolved_or stream r)).
  { intros [|x r]; simpl; lia. }
  assert (E : forall h, exists pushed w',
    (resolved <- extractor rt h (link stream) ;; ret (resolved_or stream resolved)) w
    = (Ok pushed, w') /\ 1 <= List.length pushed).
  { intros h. destruct (extractor_ok h (link stream) w) as (l & w' & H).
    rewrite (bind_ok _ _ _ _ _ H). unfold ret. eauto. }
  unfold deep_resolve_one.
  destruct (_ && _); [exact (E Streamtape)|].
  destruct (_ && _); [exact (E Doodstream)|].
  destruct (_ && _); [exact (E Filemoon)|].
  destruct (_ && _); [exact (E Mixdrop)|].
  exists [stream], w. split; [reflexivity | simpl; lia].
Qed.

(** The loop completes normally; what it returns starts with the
    accumulator it was given. *)
Lemma deep_resolve_acc (streams acc : list StreamLink) (w : W) :
  exists out w',
    deep_resolve rt streams [] w = (Ok out, w')
    /\ deep_resolve rt streams acc w = (Ok (acc ++ out), w')
    /\ List.length streams <= List.length out.
Proof.
  revert acc w. induction streams as [|stream rest IH]; intros acc w; simpl.
  - exists [], w. unfold ret. rewrite app_nil_r. auto.
  - destruct (deep_resolve_one_ok stream w) as (pushed & w1 & H1 & Hlen).
    rewrite !(bind_ok _ _ _ _ _ H1).
    destruct (IH [] w1) as (out & w2 & H2 & _ & Hle).
    destruct (IH pushed w1) as (out' & w2' & H2' & Hp & _).
    rewrite H2 in H2'. inversion H2'; subst out' w2'.
    destruct (IH (acc ++ pushed) w1) as (out' & w2' & H3 & Hp' & _).
    rewrite H2 in H3. inversion H3; subst out' w2'.
    exists (pushed ++ out), w2. simpl. rewrite Hp, Hp', app_assoc.
    repeat split; auto. rewrite length_app. lia.
Qed.

Lemma deep_resolve_ok (streams : list StreamLink) (w : W) :
  exists out w',
    deep_resolve rt streams [] w = (Ok out, w')
    /\ List.length streams <= List.length out.
Proof.
  destruct (deep_resolve_acc streams [] w) as (out & w' & H & _ & Hle). eauto.
Qed.

Lemma deep_resolve_app (s1 s2 : list StreamLink) (w : W) :
  deep_resolve rt (s1 ++ s2) [] w
  = (out1 <- deep_resolve rt s1 [] ;;
     out2 <- deep_resolve rt s2 [] ;;
     ret (out1 ++ out2)) w.
Proof.
  revert w. induction s1 as [|x s1 IH]; intros w; simpl.
  - destruct (deep_resolve_ok s2 w) as (out2 & w2 & H2 & _).
    unfold bind at 1. unfold ret at 1.
    rewrite (bind_ok _ _ _ _ _ H2), H2. reflexivity.
  - destruct (deep_resolve_one_ok x w) as (pushed & w1 & H1 & _).
    rewrite bind_assoc, !(bind_ok _ _ _ _ _ H1).
    destruct (deep_resolve_acc (s1 ++ s2) pushed w1) as (o & w' & Ho & -> & _).
    destruct (deep_resolve_acc s1 pushed w1) as (o1 & w1' & Ho1 & Hp1 & _).
    rewrite (bind_ok _ _ _ _ _ Hp1).
    rewrite IH, (bind_ok _ _ _ _ _ Ho1) in Ho.
    destruct (deep_resolve_ok s2 w1') as (out2 & w2 & H2 & _).
    rewrite (bind_ok _ _ _ _ _ H2) in Ho. rewrite (bind_ok _ _ _ _ _ H2).
    unfold ret in *. inversion Ho; subst. now rewrite app_assoc.
Qed.

End Running.

(** ** The orchestrator *)

Section Orchestrator.
Context {W : Type} (rt : Runtime W).

Lemma find_first {A : Type} (f : A -> bool) (pre post : list A) (x : A) :
  Forall (fun y => f y = false) pre -> f x = true ->
  find f (pre ++ x :: post) = Some x.
Proof.
  induction 1 as [|y pre Hy _ IH]; simpl; intros Hx.
  - now rewrite Hx.
  - rewrite Hy. auto.
Qed.

Lemma find_nowhere {A : Type} (f : A -> bool) (l : list A) :
  Forall (fun y => f y = false) l -> find f l = None.
Proof. induction 1 as [|y l Hy _ IH]; simpl; [|rewrite Hy]; auto. Qed.

Lemma extract_by_host_ok (url : string) (w : W) :
  exists streams w1, extract_by_host rt url w = (Ok streams, w1).
Proof.
  rewrite extract_by_host_classify. destruct (classify_spec url) as [h|].
  - apply extractor_ok.
  - destruct (fallback_run rt url w) as (sA & w1 & HA & ->).
    destruct sA; [apply (extractor_ok rt Gdflix) | eauto].
Qed.

(** A cached, fresh result is returned as it is. *)
Lemma resolveLink_cached (url : string) store (w : W) hit :
  getCached store url CACHE_TTL.streams (Date_now rt w) = Some hit ->
  resolveLink rt url (store, w) = (Ok (hit_data hit), (store, w)).
Proof.
  intros H. unfold resolveLink, bind, get_fst, on_snd, total. simpl.
  now rewrite H.
Qed.

(** Without a fresh cached result: extraction, deep resolve, and a write
    to the cache when the result is not empty. *)
Lemma resolveLink_uncached (url : string) store (w : W) :
  getCached store url CACHE_TTL.streams (Date_now rt w) = None ->
  exists streams w1 final w2,
    extract_by_host rt url w = (Ok streams, w1)
    /\ deep_resolve rt streams [] w1 = (Ok final, w2)
    /\ List.length streams <= List.length final
    /\ resolveLink rt url (store, w)
       = (Ok final,
          (match final with
           | [] => store
           | _ :: _ => setCache store url final (Date_now rt w2)
           end, w2)).
Proof.
  intros H.
  destruct (extract_by_host_ok url w) as (streams & w1 & H1).
  destruct (deep_resolve_ok rt streams w1) as (final & w2 & H2 & Hle).
  exists streams, w1, final, w2. repeat split; auto.
  unfold resolveLink.
  unfold bind at 1. unfold get_fst at 1. simpl fst.
  unfold bind at 1. unfold on_snd at 1, total at 1. simpl.
  rewrite H.
  rewrite (bind_ok _ _ _ _ _ (on_snd_ok _ store _ _ _ H1)).
  rewrite (bind_ok _ _ _ _ _ (on_snd_ok _ store _ _ _ H2)).
  destruct final as [|x final].
  - destruct streams; [|simpl in Hle; lia]. reflexivity.
  - reflexivity.
Qed.

End Orchestrator.

(** C4. A call of [resolveLink] completes with a list. When that list is
    empty the cache store is left as it was; the store changes only by a
    [setCache] of a non-empty final result under the input URL. *)
Theorem resolveLink_cache_write {W : Type} (rt : Runtime W) (url : string)
    (store : JsMap (list StreamLink)) (w : W) :
  exists final store' w',
    resolveLink rt url (store, w) = (Ok final, (store', w'))
    /\ (final = [] -> store' = store)
    /\ (store' <> store ->
        final <> [] /\ store' = setCache store url final (Date_now rt w')).
Proof.
  destruct (getCached store url CACHE_TTL.streams (Date_now rt w)) as [hit|] eqn:G.
  - exists (hit_data hit), store, w. rewrite (resolveLink_cached rt _ _ _ _ G).
    repeat split; auto; congruence.
  - destruct (resolveLink_uncached rt _ _ _ G)
      as (streams & w1 & final & w2 & _ & _ & _ & ->).
    destruct final as [|x final].
    + exists [], store, w2. repeat split; auto; congruence.
    + eexists _, _, _. split; [reflexivity|]. split; [discriminate|].
      intros _. split; [discriminate | reflexivity].
Qed.

(** C5. For a URL in which no host marker occurs, the extraction step runs
    the extractor of aggregator A first; the extractor of aggregator B runs
    (in the world that A left) exactly when A returned no candidate, and
    otherwise the candidates of A are the result. *)
Theorem fallback_order {W : Type} (rt : Runtime W) (url : string) (w : W) :
  Forall (fun entry => marked url entry = false) host_markers ->
  exists streamsA w1,
    hubcloudExtractor rt url w = (Ok streamsA, w1)
    /\ extract_by_host rt url w
       = match streamsA with
         | [] => gdflixExtractor rt url w1
         | _ :: _ => (Ok streamsA, w1)
         end.
Proof.
  intros Hno. rewrite extract_by_host_classify.
  unfold classify_spec. rewrite (find_nowhere _ _ Hno). simpl.
  apply fallback_run.
Qed.

Lemma fallback_order_witness :
  exists streamsA w1,
    hubcloudExtractor offline "https://example.com/watch/1" tt
    = (Ok streamsA, w1)
    /\ extract_by_host offline "https://example.com/watch/1" tt
       = match streamsA with
         | [] => gdflixExtractor offline "https://example.com/watch/1" w1
         | _ :: _ => (Ok streamsA, w1)
         end.
Proof.
  apply (fallback_order offline "https://example.com/watch/1" tt).
  repeat constructor.
Defined.

(** C9. The markers are tried in the order of [host_markers]: when a marker
    of a host occurs in the lower-cased URL and no marker of an earlier host
    does, the extraction step is the extractor of that host, whatever markers
    of later hosts the URL holds. *)
Theorem host_precedence {W : Type} (rt : Runtime W) (url : string)
    (earlier later : list (Host * list string)) (h : Host) (ms : list string) :
  host_markers = earlier ++ (h, ms) :: later ->
  marked url (h, ms) = true ->
  Forall (fun entry => marked url entry = false) earlier ->
  extract_by_host rt url = extractor rt h url.
Proof.
  intros Hsplit Hm Hearlier. rewrite extract_by_host_classify.
  unfold classify_spec. rewrite Hsplit, (find_first _ _ _ _ Hearlier Hm).
  reflexivity.
Qed.

Lemma host_precedence_witness :
  marked "https://dood.example/e/hubcloud-1" (Hubcloud, ["hubcloud"; "vcloud"]) = true
  /\ extract_by_host offline "https://dood.example/e/hubcloud-1"
     = doodstreamExtractor offline "https://dood.example/e/hubcloud-1".
Proof.
  split; [reflexivity|].
  apply (host_precedence offline "https://dood.example/e/hubcloud-1"
           [(Pixeldrain, ["pixeldrain"]); (Streamtape, ["streamtape"])]
           [(Filemoon, ["filemoon"]); (Mixdrop, ["mixdrop"]);
            (Gdflix, ["gdflix"; "nexdrive"]); (Hubcloud, ["hubcloud"; "vcloud"])]
           Doodstream ["dood"]).
  - reflexivity.
  - reflexivity.
  - repeat constructor.
Defined.

(** ** The deep-resolve pass *)

(** C7. In the deep-resolve loop a candidate of server [Streamtape] whose
    link does not contain [get_video] is replaced, at its place in the
    result, by what [streamtapeExtractor] returns for its link, or kept when
    that is the empty list; the candidates before and after it are resolved
    as they are on their own. *)
Theorem deep_resolve_streamtape {W : Type} (rt : Runtime W)
    (stream : StreamLink) (before after : list StreamLink) (w : W) :
  server stream = "Streamtape" ->
  Str.includes (link stream) "get_video" = false ->
  deep_resolve rt (before ++ stream :: after) [] w
  = (out1 <- deep_resolve rt before [] ;;
     resolved <- streamtapeExtractor rt (link stream) ;;
     out2 <- deep_resolve rt after [] ;;
     ret (out1 ++ match resolved with
                  | [] => [stream]
                  | _ :: _ => resolved
                  end ++ out2)) w.
Proof.
  intros Hs Hl. rewrite deep_resolve_app.
  destruct (deep_resolve_ok rt before w) as (out1 & w1 & H1 & _).
  rewrite !(bind_ok _ _ _ _ _ H1). simpl deep_resolve.
  assert (One : deep_resolve_one rt stream
                = (resolved <- streamtapeExtractor rt (link stream) ;;
                   ret (resolved_or stream resolved))).
  { unfold deep_resolve_one. now rewrite Hs, Hl. }
  rewrite One.
  destruct (extractor_ok rt Streamtape (link stream) w1) as (resolved & w2 & H2).
  simpl in H2.
  rewrite bind_assoc, bind_assoc, !(bind_ok _ _ _ _ _ H2).
  unfold ret at 1. unfold bind at 1.
  destruct (deep_resolve_acc rt after (resolved_or stream resolved) w2)
    as (out2 & w3 & H3 & H3' & _).
  rewrite (bind_ok _ _ _ _ _ H3), (bind_ok _ _ _ _ _ H3'). unfold ret.
  now destruct resolved.
Qed.

Lemma deep_resolve_streamtape_witness :
  let stream := hd_stream "Streamtape" "https://streamtape.com/e/abc" mp4 in
  deep_resolve streamtape_site [stream] [] tt
  = (out1 <- deep_resolve streamtape_site [] [] ;;
     resolved <- streamtapeExtractor streamtape_site (link stream) ;;
     out2 <- deep_resolve streamtape_site [] [] ;;
     ret (out1 ++ match resolved with
                  | [] => [stream]
                  | _ :: _ => resolved
                  end ++ out2)) tt.
Proof.
  exact (deep_resolve_streamtape streamtape_site
           (hd_stream "Streamtape" "https://streamtape.com/e/abc" mp4) [] [] tt
           eq_refl eq_refl).
Defined.

(** The same run, evaluated: the embed link is replaced by the video URL of
    the page; on a site where the page does not load it is kept. *)
Example streamtape_deep_run :
  deep_resolve streamtape_site
    [hd_stream "Streamtape" "https://streamtape.com/e/abc" mp4] [] tt
  = (Ok [hd_stream "Streamtape"
           "https://streamtape.com/get_video?id=abc&expires=9&token=t0k&token=t0k" mp4],
     tt)
  /\ deep_resolve offline
       [hd_stream "Streamtape" "https://streamtape.com/e/abc" mp4] [] tt
     = (Ok [hd_stream "Streamtape" "https://streamtape.com/e/abc" mp4], tt).
Proof. split; vm_compute; reflexivity. Qed.

(** C10. Every round of the deep-resolve loop pushes at least one candidate,
    so the loop returns at least as many candidates as it was given, and an
    uncached [resolveLink] returns the empty list exactly when the
    extraction step found no candidate. *)
Theorem deep_resolve_never_shrinks {W : Type} (rt : Runtime W) :
  (forall stream w, exists pushed w',
      deep_resolve_one rt stream w = (Ok pushed, w') /\ 1 <= List.length pushed)
  /\ (forall streams w, exists out w',
      deep_resolve rt streams [] w = (Ok out, w')
      /\ List.length streams <= List.length out
      /\ (out = [] <-> streams = []))
  /\ (forall url store w,
      getCached store url CACHE_TTL.streams (Date_now rt w) = None ->
      exists streams w1 final st',
        extract_by_host rt url w = (Ok streams, w1)
        /\ resolveLink rt url (store, w) = (Ok final, st')
        /\ (final = [] <-> streams = [])).
Proof.
  assert (Z : forall (a b : list StreamLink),
             List.length a <= List.length b ->
             (b = [] -> a = []) ).
  { intros a b Hle ->. destruct a; [reflexivity | simpl in Hle; lia]. }
  split; [apply deep_resolve_one_ok|]. split.
  - intros streams w.
    destruct (deep_resolve_acc rt streams [] w) as (out & w' & H & H' & Hle).
    exists out, w'. repeat split; auto.
    + now apply Z.
    + intros ->. simpl in H. unfold ret in H. congruence.
  - intros url store w G.
    destruct (resolveLink_uncached rt _ _ _ G)
      as (streams & w1 & final & w2 & H1 & H2 & Hle & ->).
    eexists streams, w1, final, _. repeat split; auto.
    + now apply Z.
    + intros ->. simpl in H2. unfold ret in H2. congruence.
Qed.

(** ** The file host scenario *)

Module RegexFacts.
Import Regex.

Lemma lit_strip (p s : string) : lit false p s = Str.strip p s.
Proof.
  revert s. induction p as [|a p IH]; intros [|b s]; simpl; auto.
  unfold char_eq. destruct (Ascii.eqb a b); auto.
Qed.

Lemma substring_0_app (a rest : string) :
  String.substring 0 (String.length a) (a +++ rest) = a.
Proof.
  induction a as [|c a IH]; simpl.
  - now destruct rest.
  - now rewrite IH.
Qed.

Lemma length_append (a rest : string) :
  String.length (a +++ rest) = String.length a + String.length rest.
Proof. induction a as [|c a IH]; simpl; auto. Qed.

Lemma taken_app (a rest : string) : taken (a +++ rest) rest = a.
Proof.
  unfold taken.
  replace (String.length (a +++ rest) - String.length rest)
    with (String.length a).
  - apply substring_0_app.
  - rewrite length_append. lia.
Qed.

(** A greedy repetition stops at a character outside the class. *)
Lemma star_stop {R : Type} (p : ascii -> bool) (rest : string)
    (k : string -> option R) :
  match rest with String c _ => p c | EmptyString => false end = false ->
  star p rest k = k rest.
Proof. destruct rest as [|c rest]; simpl; [auto | now intros ->]. Qed.

Lemma includes_suffix (x y p : string) :
  Str.includes (x +++ y) p = false -> Str.includes y p = false.
Proof.
  induction x as [|c x IH]; simpl; auto.
  destruct (Str.startsWith _ _); [discriminate | auto].
Qed.

Lemma includes_head (s p : string) :
  Str.includes s p = false -> Str.strip p s = None.
Proof.
  destruct s; simpl; unfold Str.startsWith;
    destruct (Str.strip p _); auto; discriminate.
Qed.

End RegexFacts.

Module PixeldrainFacts.
Import Regex RegexFacts.

(** The file identifier pattern matches at [/u/abc123] when a character
    that is neither a letter nor a digit, or nothing, follows. *)
Lemma file_id_here (rest : string) :
  starts_alnum rest = false ->
  match_here false Patterns.file_id_u ("/u/abc123" +++ rest)
  = Some (["/u/abc123"; "abc123"], rest).
Proof.
  intros Hrest. unfold match_here, Patterns.file_id_u. simpl.
  rewrite star_stop by exact Hrest.
  change (String "/" (String "u" (String "/" (String "a" (String "b"
            (String "c" (String "1" (String "2" (String "3" rest)))))))))
    with ("/u/abc123" +++ rest).
  change (String "a" (String "b" (String "c" (String "1" (String "2"
            (String "3" rest))))))
    with ("abc123" +++ rest).
  now rewrite !taken_app.
Qed.

(** It matches nowhere inside a text in which [/u/] does not occur. *)
Lemma file_id_not_here (s : string) :
  Str.strip "/u/" s = None -> match_here false Patterns.file_id_u s = None.
Proof.
  intros H. unfold match_here, Patterns.file_id_u. cbn [run].
  now rewrite lit_strip, H.
Qed.

Lemma strip_overlap (c : ascii) (o rest : string) :
  Str.strip "/u/" (String c o +++ "/u") = None ->
  Str.strip "/u/" (String c o +++ "/u/abc123" +++ rest) = None.
Proof.
  destruct o as [|c2 [|c3 o]]; cbn [Str.strip String.append];
    repeat match goal with
           | |- context [Ascii.eqb ?a ?b] =>
               first [ is_var b; destruct (Ascii.eqb a b)
                     | let v := eval vm_compute in (Ascii.eqb a b) in
                       change (Ascii.eqb a b) with v ];
               cbn [Str.strip String.append]
           end; auto; intros; discriminate.
Qed.

Lemma search_from_step (ci : bool) (r : regex) (pre s : string) :
  search_from ci r pre s
  = match match_here ci r s with
    | Some (g, rest) => Some (mkFound (Str.rev_string EmptyString pre) g rest)
    | None =>
        match s with
        | String c s' => search_from ci r (String c pre) s'
        | EmptyString => None
        end
    end.
Proof. destruct s; reflexivity. Qed.

Lemma file_id_search (origin rest pre : string) :
  Str.includes (origin +++ "/u") "/u/" = false ->
  starts_alnum rest = false ->
  option_map groups
    (search_from false Patterns.file_id_u pre (origin +++ "/u/abc123" +++ rest))
  = Some ["/u/abc123"; "abc123"].
Proof.
  intros Ho Hrest. revert pre Ho.
  induction origin as [|c o IH]; intros pre Ho.
  - change (EmptyString +++ "/u/abc123" +++ rest) with ("/u/abc123" +++ rest).
    rewrite search_from_step, (file_id_here _ Hrest). reflexivity.
  - pose proof (includes_head _ _ Ho) as Hhead.
    apply (strip_overlap c o rest) in Hhead.
    apply file_id_not_here in Hhead.
    rewrite search_from_step, Hhead.
    change ((String c o) +++ "/u/abc123" +++ rest)
      with (String c (o +++ "/u/abc123" +++ rest)).
    cbv iota. apply IH.
    apply (includes_suffix (String c EmptyString)). exact Ho.
Qed.

Lemma file_id_exec (origin rest : string) :
  Str.includes (origin +++ "/u") "/u/" = false ->
  starts_alnum rest = false ->
  exec false Patterns.file_id_u (origin +++ "/u/abc123" +++ rest)
  = Some ["/u/abc123"; "abc123"].
Proof. intros. unfold exec, search. now apply file_id_search. Qed.

End PixeldrainFacts.

Section Fetching.
Context {W : Type} (rt : Runtime W).

(** [fetchHtml] and [fetchJson] catch every failure. *)
Lemma fetchHtml_ok (url : string) (hs : Headers) (w : W) :
  exists r w', fetchHtml rt url hs w = (Ok r, w').
Proof.
  unfold fetchHtml, try_catch, bind.
  destruct (fetch rt url _ w) as [[res|e] w1]; [|unfold ret; eauto].
  destruct (ok res); [|unfold ret; eauto].
  unfold of_res. destruct (res_text res); unfold ret; eauto.
Qed.

Lemma fetchJson_ok (url : string) (hs : Headers) (w : W) :
  exists r w', fetchJson rt url hs w = (Ok r, w').
Proof.
  unfold fetchJson, try_catch, bind.
  destruct (fetch rt url _ w) as [[res|e] w1]; [|unfold ret; eauto].
  destruct (ok res); [|unfold ret; eauto].
  unfold of_res. destruct (res_json res); unfold ret; eauto.
Qed.

(** The file host extractor on a URL whose file identifier is [abc123]:
    after the request for the [info] document it pushes the candidate, unless
    the reading of [mime_type] throws. *)
Lemma pixeldrain_abc123 (url : string) (w : W) :
  Regex.exec false Patterns.file_id_u url = Some ["/u/abc123"; "abc123"] ->
  exists info w',
    fetchJson rt "https://pixeldrain.com/api/file/abc123/info" [] w = (Ok info, w')
    /\ pixeldrainExtractor rt url w
       = match mime_type_is_video info with
         | Ok is_video =>
             (Ok [hd_stream "Pixeldrain"
                    "https://pixeldrain.com/api/file/abc123?download"
                    (if is_video then mp4 else mkv)], w')
         | Throw _ => (Ok [], w')
         end.
Proof.
  intros H. unfold pixeldrainExtractor. rewrite extractor_frame_run.
  unfold pixeldrain_body. rewrite H.
  destruct (fetchJson_ok "https://pixeldrain.com/api/file/abc123/info" [] w)
    as (info & w' & Hinfo).
  exists info, w'. split; [exact Hinfo|].
  cbn -[fetchJson mime_type_is_video].
  rewrite (bind_ok _ _ _ _ _ (on_snd_ok _ _ _ _ _ Hinfo)).
  unfold bind, of_res. now destruct (mime_type_is_video info).
Qed.

End Fetching.

(** C6 (amended). For an uncached URL in which [pixeldrain] occurs (in any
    case) and whose first [/u/] segment is [/u/abc123], [resolveLink] asks
    for the [info] document of the file [abc123]. It then returns exactly one
    candidate, of server [Pixeldrain] and with the download link of that
    file, and writes it to the cache; its type is [mp4] when the [mime_type]
    of the document holds [video] and [mkv] otherwise, also when the document
    could not be fetched. The exception is a document whose [mime_type] is a
    boolean, a number or an object: reading it throws before the candidate is
    pushed, and [resolveLink] returns the empty list and leaves the cache as
    it was. *)
Theorem resolveLink_pixeldrain {W : Type} (rt : Runtime W)
    (origin rest : string) (store : JsMap (list StreamLink)) (w : W) :
  let url := origin +++ "/u/abc123" +++ rest in
  Str.includes (Str.toLowerCase url) "pixeldrain" = true ->
  Str.includes (origin +++ "/u") "/u/" = false ->
  starts_alnum rest = false ->
  getCached store url CACHE_TTL.streams (Date_now rt w) = None ->
  exists info w1,
    fetchJson rt "https://pixeldrain.com/api/file/abc123/info" [] w = (Ok info, w1)
    /\ resolveLink rt url (store, w)
       = match mime_type_is_video info with
         | Ok is_video =>
             let found :=
               [hd_stream "Pixeldrain"
                  "https://pixeldrain.com/api/file/abc123?download"
                  (if is_video then mp4 else mkv)] in
             (Ok found, (setCache store url found (Date_now rt w1), w1))
         | Throw _ => (Ok [], (store, w1))
         end.
Proof.
  intros url Hmark Horigin Hrest Hcache.
  destruct (resolveLink_uncached rt _ _ _ Hcache)
    as (streams & w1 & final & w2 & H1 & H2 & _ & ->).
  assert (Hx : extract_by_host rt url = pixeldrainExtractor rt url).
  { unfold extract_by_host. now rewrite Hmark. }
  rewrite Hx in H1.
  destruct (pixeldrain_abc123 rt url w
              (PixeldrainFacts.file_id_exec origin rest Horigin Hrest))
    as (info & w' & Hinfo & Hp).
  exists info, w'. split; [exact Hinfo|].
  rewrite Hp in H1. destruct (mime_type_is_video info) as [is_video|e];
    inversion H1; subst streams w1;
    simpl in H2; unfold bind, ret in H2; simpl in H2;
    inversion H2; subst final w2; reflexivity.
Qed.

Lemma resolveLink_pixeldrain_witness :
  exists info w1,
    fetchJson video_metadata_site "https://pixeldrain.com/api/file/abc123/info" [] tt
    = (Ok info, w1)
    /\ resolveLink video_metadata_site "https://pixeldrain.com/u/abc123" ([], tt)
       = match mime_type_is_video info with
         | Ok is_video =>
             let found :=
               [hd_stream "Pixeldrain"
                  "https://pixeldrain.com/api/file/abc123?download"
                  (if is_video then mp4 else mkv)] in
             (Ok found,
              (setCache [] "https://pixeldrain.com/u/abc123" found
                 (Date_now video_metadata_site w1), w1))
         | Throw _ => (Ok [], ([], w1))
         end.
Proof.
  exact (resolveLink_pixeldrain video_metadata_site "https://pixeldrain.com"
           EmptyString [] tt eq_refl eq_refl eq_refl eq_refl).
Defined.

(** C6 as stated fails: the URL holds [pixeldrain] and the segment
    [/u/abc123] and nothing is cached, and yet [resolveLink] need not return
    one candidate. In the world [number_metadata_site] the file host answers
    with an [info] document whose [mime_type] is the number 5, and
    [resolveLink] returns the empty list. *)
Lemma resolveLink_pixeldrain_no_candidate :
  ~ (forall (rt : Runtime unit) (store : JsMap (list StreamLink)) (w : unit),
       Str.includes (Str.toLowerCase "https://pixeldrain.com/u/abc123") "pixeldrain"
       = true ->
       getCached store "https://pixeldrain.com/u/abc123" CACHE_TTL.streams
         (Date_now rt w) = None ->
       exists s st',
         resolveLink rt "https://pixeldrain.com/u/abc123" (store, w) = (Ok [s], st')
         /\ server s = "Pixeldrain"
         /\ link s = "https://pixeldrain.com/api/file/abc123?download").
Proof.
  intros H.
  destruct (H number_metadata_site [] tt eq_refl eq_refl) as (s & st' & R & _).
  vm_compute in R. discriminate R.
Qed.

(** The two runs side by side: the same call returns nothing when the
    [mime_type] is a number and the one candidate, of type [mp4], when it is
    the text [video/mp4]. *)
Example pixeldrain_metadata_runs :
  fetchJson number_metadata_site "https://pixeldrain.com/api/file/abc123/info" [] tt
  = (Ok (Some (JObject [("mime_type", Some (JNumber "5"))])), tt)
  /\ resolveLink number_metadata_site "https://pixeldrain.com/u/abc123" ([], tt)
     = (Ok [], ([], tt))
  /\ resolveLink video_metadata_site "https://pixeldrain.com/u/abc123" ([], tt)
     = (Ok [hd_stream "Pixeldrain"
              "https://pixeldrain.com/api/file/abc123?download" mp4],
        ([("https://pixeldrain.com/u/abc123",
           mkEntry [hd_stream "Pixeldrain"
                      "https://pixeldrain.com/api/file/abc123?download" mp4] 0%Z)],
         tt)).
Proof. repeat split; vm_compute; reflexivity. Qed.

(** ** Exceptions and failures of the extractors *)

Section Hoare.
Context {S : Type}.

Lemma hoare_ret {A : Type} (P : S -> Prop) (Q : A -> S -> Prop) E (a : A) :
  (forall s, P s -> Q a s) -> hoare P (ret a) Q E.
Proof. intros H s Hs. simpl. auto. Qed.

Lemma hoare_bind {A B : Type} (P : S -> Prop) (R : A -> S -> Prop)
    (Q : B -> S -> Prop) E (c : SE S A) (f : A -> SE S B) :
  hoare P c R E -> (forall a, hoare (R a) (f a) Q E) -> hoare P (bind c f) Q E.
Proof.
  intros Hc Hf s Hs. unfold bind. specialize (Hc s Hs).
  destruct (c s) as [[a|e] s']; [apply (Hf a s' Hc) | exact Hc].
Qed.

Lemma hoare_weaken {A : Type} (P P' : S -> Prop) (Q Q' : A -> S -> Prop)
    (E E' : S -> Prop) (c : SE S A) :
  hoare P' c Q' E' ->
  (forall s, P s -> P' s) -> (forall a s, Q' a s -> Q a s) ->
  (forall s, E' s -> E s) ->
  hoare P c Q E.
Proof.
  intros H HP HQ HE s Hs. specialize (H s (HP s Hs)).
  destruct (c s) as [[a|e] s']; auto.
Qed.

Lemma quiet_run {A : Type} (c : SE S A) (s : S) :
  quiet c -> exists a s', c s = (Ok a, s').
Proof.
  intros H. specialize (H s I). destruct (c s) as [[a|e] s']; [eauto | tauto].
Qed.

Lemma quiet_ret {A : Type} (a : A) : quiet (@ret S A a).
Proof. now apply hoare_ret. Qed.

Lemma quiet_bind {A B : Type} (c : SE S A) (f : A -> SE S B) :
  quiet c -> (forall a, quiet (f a)) -> quiet (bind c f).
Proof. intros Hc Hf. eapply hoare_bind; [exact Hc | exact Hf]. Qed.

Lemma quiet_total {A : Type} (f : S -> A * S) : quiet (total f).
Proof. intros s _. unfold total. now destruct (f s). Qed.

Lemma quiet_when (c : bool) (body : SE S unit) : quiet body -> quiet (when c body).
Proof. destruct c; simpl; [auto | intros _; apply quiet_ret]. Qed.

Lemma quiet_for_each {A : Type} (xs : list A) (body : A -> SE S unit) :
  (forall x, quiet (body x)) -> quiet (for_each xs body).
Proof.
  intros H. induction xs as [|x xs IH]; simpl.
  - apply quiet_ret.
  - apply quiet_bind; auto.
Qed.

Lemma quiet_try_catch {A : Type} (c : SE S A) (h : Exn -> SE S A) :
  (forall e, quiet (h e)) -> quiet (try_catch c h).
Proof.
  intros H s _. unfold try_catch.
  destruct (c s) as [[a|e] s']; [exact I | apply (H e s' I)].
Qed.

Lemma quiet_on_snd {L A : Type} (c : SE S A) : quiet c -> quiet (@on_snd L S A c).
Proof.
  intros H [l s] _. unfold on_snd. simpl. specialize (H s I).
  destruct (c s) as [[a|e] s']; auto.
Qed.

Lemma quiet_get_fst {L : Type} : quiet (@get_fst L S).
Proof. intros s _. exact I. Qed.

Lemma quiet_modify_fst {L : Type} (f : L -> L) : quiet (@modify_fst L S f).
Proof. intros s _. exact I. Qed.

Lemma quiet_hoare {A : Type} (P : S -> Prop) (E : S -> Prop) (c : SE S A) :
  quiet c -> hoare P c (fun _ _ => True) E.
Proof.
  intros H. eapply hoare_weaken; [exact H | | | ]; simpl; auto. intros ? [].
Qed.

End Hoare.

Section Keeps.
Context {W : Type}.

Lemma keeps_ret {A : Type} (a : A) : keeps (@ret (Locals * W) A a).
Proof. now apply hoare_ret. Qed.

Lemma keeps_bind {A B : Type} (c : SE (Locals * W) A)
    (f : A -> SE (Locals * W) B) :
  keeps c -> (forall a, keeps (f a)) -> keeps (bind c f).
Proof. intros Hc Hf. eapply hoare_bind; [exact Hc | exact Hf]. Qed.

Lemma keeps_on_snd {A : Type} (c : SE W A) : keeps (@on_snd Locals W A c).
Proof.
  intros [l w] Hl. unfold on_snd. simpl.
  destruct (c w) as [[a|e] w']; exact Hl.
Qed.

Lemma keeps_of_res {A : Type} (r : Res A) : keeps (@of_res (Locals * W) A r).
Proof. intros s Hs. unfold of_res. now destruct r. Qed.

Lemma throws_clean_bind {A B : Type} (c : SE (Locals * W) A)
    (f : A -> SE (Locals * W) B) :
  keeps c -> (forall a, throws_clean (f a)) -> throws_clean (bind c f).
Proof. intros Hc Hf. eapply hoare_bind; [exact Hc | exact Hf]. Qed.

Lemma throws_clean_quiet {A : Type} (c : SE (Locals * W) A) :
  quiet c -> throws_clean c.
Proof. apply quiet_hoare. Qed.

End Keeps.

(** Proves that a computation never throws, rule by rule. *)
Ltac quiet_step :=
  first
    [ apply quiet_ret
    | apply quiet_total
    | apply quiet_get_fst
    | apply quiet_modify_fst
    | apply quiet_on_snd
    | apply quiet_when
    | apply quiet_for_each; intros
    | apply quiet_try_catch; intros
    | apply quiet_bind; [|intros]
    | match goal with
      | |- quiet (match ?x with _ => _ end) => destruct x
      end ].

Section ExtractorsQuiet.
Context {W : Type} (rt : Runtime W).

Lemma quiet_fetchHtml url hs : quiet (fetchHtml rt url hs).
Proof. unfold fetchHtml. repeat quiet_step. Qed.

Lemma quiet_extractor_frame body : quiet (extractor_frame (W := W) body).
Proof. intros w _. rewrite extractor_frame_run. exact I. Qed.

Lemma quiet_push s : quiet (push (W := W) s).
Proof. apply quiet_modify_fst. Qed.

Lemma quiet_push_all ss : quiet (push_all (W := W) ss).
Proof. apply quiet_modify_fst. Qed.

Lemma quiet_processed_add h : quiet (processed_add (W := W) h).
Proof. apply quiet_modify_fst. Qed.

Lemma quiet_processed_has h : quiet (processed_has (W := W) h).
Proof. unfold processed_has. repeat quiet_step. Qed.

Lemma quiet_streams_length : quiet (streams_length (W := W)).
Proof. unfold streams_length. repeat quiet_step. Qed.

End ExtractorsQuiet.

Create HintDb quiet.
#[export] Hint Resolve quiet_fetchHtml quiet_extractor_frame quiet_push quiet_push_all
  quiet_processed_add quiet_processed_has quiet_streams_length : quiet.

Ltac quiet := repeat first [ solve [auto with quiet] | quiet_step ].

Section Bodies.
Context {W : Type} (rt : Runtime W).

Lemma quiet_streamtape_body url : quiet (streamtape_body rt url).
Proof. unfold streamtape_body. cbv zeta. quiet. Qed.

Lemma quiet_doodstream_body url : quiet (doodstream_body rt url).
Proof. unfold doodstream_body. cbv zeta. quiet. Qed.

Lemma quiet_filemoon_body url : quiet (filemoon_body rt url).
Proof. unfold filemoon_body. cbv zeta. quiet. Qed.

Lemma quiet_mixdrop_body url : quiet (mixdrop_body rt url).
Proof. unfold mixdrop_body. cbv zeta. quiet. Qed.

Lemma quiet_hubcloud_link el : quiet (hubcloud_link (W := W) el).
Proof. unfold hubcloud_link. cbv zeta. quiet. Qed.

Lemma quiet_gdflix_link baseUrl el : quiet (gdflix_link (W := W) baseUrl el).
Proof. unfold gdflix_link. cbv zeta. quiet. Qed.

Lemma quiet_gdflix_embed el : quiet (gdflix_embed (W := W) el).
Proof. unfold gdflix_embed. cbv zeta. quiet. Qed.

Lemma quiet_direct_url skip u : quiet (direct_url (W := W) skip u).
Proof. unfold direct_url. quiet. Qed.

Lemma quiet_extractor (h : Host) url : quiet (extractor rt h url).
Proof. destruct h; apply quiet_extractor_frame. Qed.

Lemma quiet_hubcloudExtractor url : quiet (hubcloudExtractor rt url).
Proof. apply (quiet_extractor Hubcloud). Qed.

Hint Resolve quiet_hubcloud_link quiet_gdflix_link quiet_gdflix_embed
  quiet_direct_url quiet_hubcloudExtractor : quiet.

(** In the bodies of the two aggregators only the HTML parser can throw,
    and it runs before the first candidate is pushed. *)
Lemma throws_clean_hubcloud_body url : throws_clean (hubcloud_body rt url).
Proof.
  unfold hubcloud_body. cbv zeta.
  apply throws_clean_bind; [apply keeps_on_snd|]. intros [page|].
  2: { apply throws_clean_quiet. quiet. }
  destruct (Str.truthy page); simpl when.
  2: { apply throws_clean_quiet. quiet. }
  apply throws_clean_bind; [apply keeps_of_res|]. intros _.
  apply throws_clean_bind.
  { destruct (hubcloud_redirect page) as [redirect|]; [|apply keeps_ret].
    destruct (Str.truthy _); [|apply keeps_ret].
    apply keeps_bind; [apply keeps_on_snd | intros; apply keeps_ret]. }
  intros targetHtml.
  apply throws_clean_bind; [apply keeps_of_res|]. intros doc.
  apply throws_clean_quiet. quiet.
Qed.

Lemma throws_clean_gdflix_body url : throws_clean (gdflix_body rt url).
Proof.
  unfold gdflix_body. cbv zeta.
  apply throws_clean_bind; [apply keeps_on_snd|]. intros [page|].
  2: { apply throws_clean_quiet. quiet. }
  destruct (Str.truthy page); simpl when.
  2: { apply throws_clean_quiet. quiet. }
  apply throws_clean_bind; [apply keeps_of_res|]. intros doc0.
  apply throws_clean_bind.
  { destruct (gdflix_redirect page) as [redirect|]; [|apply keeps_ret].
    destruct (Str.truthy _); [|apply keeps_ret].
    apply keeps_bind; [apply keeps_on_snd|]. intros [h|]; [|apply keeps_ret].
    destruct (Str.truthy h); [apply keeps_of_res | apply keeps_ret]. }
  intros doc.
  apply throws_clean_quiet. quiet.
Qed.

(** In the body of the file host extractor only the reading of the
    [info] document can throw, and it is read before the candidate is
    pushed. *)
Lemma throws_clean_pixeldrain_body url : throws_clean (pixeldrain_body rt url).
Proof.
  unfold pixeldrain_body. cbv zeta.
  destruct (Str.or_else _ _) as [fileId|]; [|apply throws_clean_quiet; quiet].
  destruct (Str.truthy fileId); simpl when; [|apply throws_clean_quiet; quiet].
  apply throws_clean_bind; [apply keeps_on_snd|]. intros info.
  apply throws_clean_bind; [apply keeps_of_res|]. intros is_video.
  apply throws_clean_quiet. quiet.
Qed.

Lemma throws_clean_body (h : Host) url : throws_clean (extractor_body rt h url).
Proof.
  destruct h; simpl;
    first [ apply throws_clean_hubcloud_body
          | apply throws_clean_gdflix_body
          | apply throws_clean_pixeldrain_body
          | apply throws_clean_quiet ].
  - apply quiet_streamtape_body.
  - apply quiet_doodstream_body.
  - apply quiet_filemoon_body.
  - apply quiet_mixdrop_body.
Qed.

End Bodies.

Section Failures.
Context {W : Type} (rt : Runtime W).

(** The result of an extractor whose body is known to leave [lw]. *)
Lemma extractor_result (h : Host) url w r lw :
  extractor_body rt h url (mkLocals [] [], w) = (r, lw) ->
  extractor rt h url w = (Ok (streams (fst lw)), snd lw).
Proof. intros H. rewrite extractor_run, H. reflexivity. Qed.

(** Without the page there is no candidate. *)
Lemma page_fetch_failed_empty (h : Host) url w :
  page_fetch_failed rt h url w ->
  exists w', extractor rt h url w = (Ok [], w').
Proof.
  unfold page_fetch_failed, page_url.
  destruct h; [intros [] | ..]; intros (w1 & [F|F]);
    exists w1; rewrite extractor_run; simpl extractor_body;
    cbv beta zeta delta [streamtape_body doodstream_body filemoon_body
                           mixdrop_body gdflix_body hubcloud_body];
    rewrite (bind_ok _ _ _ _ _ (on_snd_ok _ _ _ _ _ F)); reflexivity.
Qed.

(** A page without the expected markup yields no candidate. *)
Lemma no_markup_empty (h : Host) url w :
  no_markup rt h url w ->
  exists w', extractor rt h url w = (Ok [], w').
Proof.
  destruct h; simpl no_markup.
  - intros [Hu Ha]. exists w. rewrite extractor_run. simpl extractor_body.
    unfold pixeldrain_body. now rewrite Hu, Ha.
  - intros (p & page & w1 & Hp & F & Hr & Hn). inversion Hp; subst p.
    exists w1. rewrite extractor_run. simpl extractor_body.
    unfold streamtape_body.
    rewrite (bind_ok _ _ _ _ _ (on_snd_ok _ _ _ _ _ F)).
    destruct (Str.truthy page); [|reflexivity]. simpl when.
    now rewrite Hr, Hn.
  - intros (p & page & w1 & Hp & F & Hn). inversion Hp; subst p.
    exists w1. rewrite extractor_run. simpl extractor_body.
    unfold doodstream_body. cbv zeta.
    rewrite (bind_ok _ _ _ _ _ (on_snd_ok _ _ _ _ _ F)).
    destruct (Str.truthy page); [|reflexivity]. simpl when.
    now rewrite Hn.
  - intros (p & page & w1 & Hp & F & Hf & Hs & Hm). inversion Hp; subst p.
    exists w1. rewrite extractor_run. simpl extractor_body.
    unfold filemoon_body.
    rewrite (bind_ok _ _ _ _ _ (on_snd_ok _ _ _ _ _ F)).
    destruct (Str.truthy page); [|reflexivity]. simpl when.
    now rewrite Hf, Hs, Hm.
  - intros (p & page & w1 & Hp & F & Hn). inversion Hp; subst p.
    exists w1. rewrite extractor_run. simpl extractor_body.
    unfold mixdrop_body.
    rewrite (bind_ok _ _ _ _ _ (on_snd_ok _ _ _ _ _ F)).
    destruct (Str.truthy page); [|reflexivity]. simpl when.
    now rewrite Hn.
  - intros (p & page & w1 & Hp & F & Hr & doc & Hd & Hsel & Hm).
    inversion Hp; subst p.
    exists w1. rewrite extractor_run. simpl extractor_body.
    unfold gdflix_body. cbv zeta.
    rewrite (bind_ok _ _ _ _ _ (on_snd_ok _ _ _ _ _ F)).
    destruct (Str.truthy page); [|reflexivity]. simpl when.
    rewrite Hd, Hr.
    unfold gdflix_selectors, gdflix_link_selectors in Hsel. simpl app in Hsel.
    repeat match goal with
           | H : Forall _ (_ :: _) |- _ => inversion H; clear H; subst
           end.
    unfold gdflix_hub_link, gdflix_selectors.
    cbn [for_each bind of_res ret].
    repeat match goal with
           | H : Cheerio.select doc _ = [] |- _ => rewrite H; clear H
           end.
    rewrite Hm. reflexivity.
  - intros (p & page & w1 & Hp & F & Hr & Hm & doc & Hd & Hsel).
    inversion Hp; subst p.
    exists w1. rewrite extractor_run. simpl extractor_body.
    unfold hubcloud_body. cbv zeta.
    rewrite (bind_ok _ _ _ _ _ (on_snd_ok _ _ _ _ _ F)).
    destruct (Str.truthy page); [|reflexivity]. simpl when.
    rewrite Hd, Hr.
    unfold hubcloud_selectors in *.
    repeat match goal with
           | H : Forall _ (_ :: _) |- _ => inversion H; clear H; subst
           end.
    cbn [for_each bind of_res ret]. rewrite Hd, Hm.
    cbn [for_each bind of_res ret].
    repeat match goal with
           | H : Cheerio.select doc _ = [] |- _ => rewrite H; clear H
           end.
    reflexivity.
Qed.

(** Without the token there is no candidate of embed host B. *)
Lemma token_fetch_failed_empty url w :
  token_fetch_failed rt url w ->
  exists w', doodstreamExtractor rt url w = (Ok [], w').
Proof.
  unfold token_fetch_failed. cbv zeta.
  intros (page & w1 & passMatch & w2 & F & Hm & Hf).
  unfold doodstreamExtractor. rewrite extractor_frame_run.
  unfold doodstream_body. cbv zeta.
  rewrite (bind_ok _ _ _ _ _ (on_snd_ok _ _ _ _ _ F)).
  destruct (Str.truthy page); [|eexists; reflexivity]. simpl when. rewrite Hm.
  destruct Hf as [Hf|Hf];
    rewrite (bind_ok _ _ _ _ _ (on_snd_ok _ _ _ _ _ Hf)); eexists; reflexivity.
Qed.

(** Without the [info] document the file host extractor still returns its
    candidate. *)
Lemma info_fetch_failed_candidate url w fileId w1 :
  info_fetch_failed rt url w fileId w1 ->
  pixeldrainExtractor rt url w
  = (Ok [hd_stream "Pixeldrain"
           ("https://pixeldrain.com/api/file/" +++ fileId +++ "?download") mkv], w1).
Proof.
  unfold info_fetch_failed, pixeldrain_file_id. intros (Hid & Ht & F).
  unfold pixeldrainExtractor. rewrite extractor_frame_run.
  unfold pixeldrain_body. cbv zeta. rewrite Hid, Ht. simpl when.
  rewrite (bind_ok _ _ _ _ _ (on_snd_ok _ _ _ _ _ F)). reflexivity.
Qed.

(** An aggregator that gets as far as the scan returns what the scan
    finds. *)
Lemma scans_body h url w text w2 :
  scans rt h url w text w2 ->
  extractor_body rt h url (mkLocals [] [], w)
  = scan rt h url text (mkLocals [] [], w2).
Proof.
  intros (page & w1 & (Hh & F & Ht & doc0 & Hd) & Hr).
  destruct Hh as [-> | ->]; simpl extractor_body; simpl scan;
    simpl redirect_target in Hr.
  - unfold hubcloud_body. cbv zeta.
    rewrite (bind_ok _ _ _ _ _ (on_snd_ok _ _ _ _ _ F)). rewrite Ht. simpl when.
    rewrite Hd. unfold of_res at 1. unfold bind at 1.
    destruct (hubcloud_redirect page) as [redirect|].
    + destruct (Str.truthy (Regex.group redirect 1)).
      * destruct Hr as (newHtml & Hn & ->).
        rewrite bind_assoc.
        rewrite (bind_ok _ _ _ _ _ (on_snd_ok _ _ _ _ _ Hn)). reflexivity.
      * destruct Hr as [-> ->]. reflexivity.
    + destruct Hr as [-> ->]. reflexivity.
  - unfold gdflix_body. cbv zeta.
    rewrite (bind_ok _ _ _ _ _ (on_snd_ok _ _ _ _ _ F)). rewrite Ht. simpl when.
    rewrite Hd. unfold of_res at 1. unfold bind at 1.
    destruct (gdflix_redirect page) as [redirect|].
    + destruct (Str.truthy (Regex.group redirect 1)).
      * destruct Hr as (newHtml & Hn & ->).
        rewrite bind_assoc.
        rewrite (bind_ok _ _ _ _ _ (on_snd_ok _ _ _ _ _ Hn)).
        destruct newHtml as [t|]; [destruct (Str.truthy t)|];
          first [reflexivity | rewrite Hd; reflexivity].
      * destruct Hr as [-> ->]. rewrite Hd. reflexivity.
    + destruct Hr as [-> ->]. rewrite Hd. reflexivity.
Qed.

Lemma scans_run h url w text w2 :
  scans rt h url w text w2 ->
  extractor rt h url w = extractor_frame (scan rt h url text) w2.
Proof.
  intros H. rewrite extractor_run, extractor_frame_run, (scans_body _ _ _ _ _ H).
  reflexivity.
Qed.

(** A failed request for the target of a redirect leaves the first page to
    be scanned. *)
Lemma redirect_fetch_failed_scans h url w page w2 :
  redirect_fetch_failed rt h url w page w2 -> scans rt h url w page w2.
Proof.
  intros (w1 & target & Hp & Hr & Hf). exists page, w1. split; [exact Hp|].
  rewrite Hr. destruct Hf as [Hf|Hf]; eexists; (split; [exact Hf | reflexivity]).
Qed.

(** The scan of a text without links finds nothing. *)
Lemma no_links_empty h url text w2 :
  no_links rt h text ->
  extractor_frame (scan rt h url text) w2 = (Ok [], w2).
Proof.
  rewrite extractor_frame_run.
  destruct h; simpl no_links; try tauto; simpl scan.
  - intros (doc & Hd & Hsel & Hm).
    rewrite Hd. unfold gdflix_scan.
    unfold gdflix_selectors, gdflix_link_selectors in Hsel. simpl app in Hsel.
    repeat match goal with
           | H : Forall _ (_ :: _) |- _ => inversion H; clear H; subst
           end.
    unfold gdflix_hub_link, gdflix_selectors.
    cbn [for_each bind of_res ret].
    repeat match goal with
           | H : Cheerio.select doc _ = [] |- _ => rewrite H; clear H
           end.
    rewrite Hm. reflexivity.
  - intros (Hm & doc & Hd & Hsel).
    unfold hubcloud_scan. rewrite Hd, Hm.
    unfold hubcloud_selectors in *.
    repeat match goal with
           | H : Forall _ (_ :: _) |- _ => inversion H; clear H; subst
           end.
    cbn [for_each bind of_res ret].
    repeat match goal with
           | H : Cheerio.select doc _ = [] |- _ => rewrite H; clear H
           end.
    reflexivity.
Qed.

End Failures.

(** C8 (amended). Every extractor completes normally with a list, on every
    URL and in every world: it never throws. The list is empty when the page
    of the host cannot be fetched, when the page holds none of the markup
    that the extractor looks for, when the body of the extractor throws, and,
    for embed host B, when the token cannot be fetched. Two failed requests
    are tolerated. When the [info] document of the file host cannot be
    fetched, the extractor returns its one candidate, of type [mkv]. When the
    target of a redirect in an aggregator page cannot be fetched, the
    aggregator scans the page it has. Whichever page text an aggregator ends
    up with, its result is what the scan of that text finds, and that is
    nothing when the text holds no link. *)
Theorem extractors_never_throw {W : Type} (rt : Runtime W) (h : Host)
    (url : string) (w : W) :
  exists l w',
    extractor rt h url w = (Ok l, w')
    /\ (page_fetch_failed rt h url w -> l = [])
    /\ (no_markup rt h url w -> l = [])
    /\ (forall e lw,
          extractor_body rt h url (mkLocals [] [], w) = (Throw e, lw) -> l = [])
    /\ (h = Doodstream -> token_fetch_failed rt url w -> l = [])
    /\ (forall fileId w1,
          h = Pixeldrain -> info_fetch_failed rt url w fileId w1 ->
          l = [hd_stream "Pixeldrain"
                 ("https://pixeldrain.com/api/file/" +++ fileId +++ "?download") mkv]
          /\ w' = w1)
    /\ (forall page w2,
          redirect_fetch_failed rt h url w page w2 ->
          (Ok l, w') = extractor_frame (scan rt h url page) w2)
    /\ (forall text w2,
          scans rt h url w text w2 ->
          (Ok l, w') = extractor_frame (scan rt h url text) w2
          /\ (no_links rt h text -> l = [])).
Proof.
  destruct (extractor_ok rt h url w) as (l & w' & H).
  exists l, w'. split; [exact H|].
  split; [|split; [|split; [|split; [|split; [|split]]]]].
  - intros F. destruct (page_fetch_failed_empty rt h url w F) as (w1 & H1).
    congruence.
  - intros F. destruct (no_markup_empty rt h url w F) as (w1 & H1).
    congruence.
  - intros e lw Hb. rewrite (extractor_result rt _ _ _ _ _ Hb) in H.
    pose proof (throws_clean_body rt h url (mkLocals [] [], w) eq_refl) as C.
    rewrite Hb in C. unfold clean in C. congruence.
  - intros -> F. destruct (token_fetch_failed_empty rt url w F) as (w1 & H1).
    simpl in H. congruence.
  - intros fileId w1 -> F. simpl in H.
    rewrite (info_fetch_failed_candidate rt _ _ _ _ F) in H.
    split; congruence.
  - intros page w2 F. rewrite <- H.
    apply scans_run, redirect_fetch_failed_scans, F.
  - intros text w2 Hs. split; [rewrite <- H; now apply scans_run|].
    intros N. rewrite (scans_run rt _ _ _ _ _ Hs), (no_links_empty rt _ _ _ _ N) in H.
    congruence.
Qed.

(** The failures that the statement names do happen: a page of embed host B
    whose token cannot be fetched, and a page of aggregator A that holds a
    redirect only, whose target cannot be fetched. Both extractors return
    the empty list. *)
Example second_requests_fail :
  token_fetch_failed token_site "https://dood.li/e/abc" tt
  /\ doodstreamExtractor token_site "https://dood.li/e/abc" tt = (Ok [], tt)
  /\ redirect_fetch_failed redirect_only_site Hubcloud
       "https://hubcloud.example/drive/o" tt redirect_only_page tt
  /\ no_links redirect_only_site Hubcloud redirect_only_page
  /\ hubcloudExtractor redirect_only_site "https://hubcloud.example/drive/o" tt
     = (Ok [], tt)
  /\ info_fetch_failed offline "https://pixeldrain.com/u/abc123" tt "abc123" tt.
Proof.
  split.
  { exists token_page, tt. do 2 eexists.
    split; [vm_compute; reflexivity|]. split; [vm_compute; reflexivity|].
    left. vm_compute. reflexivity. }
  split; [vm_compute; reflexivity|].
  split.
  { exists tt. eexists. split.
    - split; [now left|]. split; [vm_compute; reflexivity|].
      split; [reflexivity|]. eexists. vm_compute. reflexivity.
    - split; [vm_compute; reflexivity|]. left. vm_compute. reflexivity. }
  split.
  { split; [vm_compute; reflexivity|]. eexists. split; [vm_compute; reflexivity|].
    repeat constructor. }
  split; [vm_compute; reflexivity|].
  repeat split; vm_compute; reflexivity.
Qed.

(** C8 as stated fails: without network the only fetch of the file host
    extractor fails, and the extractor still returns a candidate. *)
Lemma failed_fetch_not_empty :
  ~ (forall l w',
       fetchJson offline "https://pixeldrain.com/api/file/abc123/info" [] tt
       = (Ok None, tt) ->
       pixeldrainExtractor offline "https://pixeldrain.com/u/abc123" tt = (Ok l, w') ->
       l = []).
Proof.
  intros H.
  specialize (H [hd_stream "Pixeldrain"
                   "https://pixeldrain.com/api/file/abc123?download" mkv] tt
                eq_refl eq_refl).
  discriminate H.
Qed.

(** Likewise, when the target of a redirect cannot be fetched,
    [hubcloudExtractor] goes on with the page it has. *)
Example failed_redirect_not_empty :
  fetchHtml redirecting_site "https://hubcloud.example/next" [] tt = (Ok None, tt)
  /\ hubcloudExtractor redirecting_site "https://hubcloud.example/drive/r" tt
     = (Ok [hd_stream "Direct" "https://cdn.example/movie.mp4" mp4], tt).
Proof. split; vm_compute; reflexivity. Qed.

(** ** The links that the extractors emit *)

(** C2 (the code at the failing input). On a page whose download button has
    the link [/files/movie.mkv], [hubcloudExtractor] emits a candidate with
    exactly that link, and on a page whose player configuration names the
    playlist [/hls/master.m3u8], [filemoonExtractor] emits that text: links
    that are not absolute URLs. Neither extractor resolves the link against
    the origin of the page. *)
Theorem extractors_emit_relative_links :
  hubcloudExtractor relative_links_site "https://hubcloud.example/drive/abc" tt
  = (Ok [hd_stream "Direct" "/files/movie.mkv" mkv], tt)
  /\ Url.is_absolute "/files/movie.mkv" = false
  /\ filemoonExtractor relative_links_site "https://filemoon.example/e/xyz" tt
     = (Ok [hd_stream "Filemoon" "/hls/master.m3u8" m3u8], tt)
  /\ Url.is_absolute "/hls/master.m3u8" = false.
Proof. repeat split; vm_compute; reflexivity. Qed.

(** The sibling paths do resolve: the fast-download branch of
    [gdflixExtractor] prefixes a relative link with the origin of the page,
    and [mixdropExtractor] completes a scheme-relative URL. *)
Example siblings_resolve_links :
  gdflixExtractor resolving_site "https://gdflix.example/file/1" tt
  = (Ok [hd_stream "FastDL" "https://gdflix.example/file/xyz" mkv], tt)
  /\ mixdropExtractor resolving_site "https://mixdrop.example/e/abc" tt
     = (Ok [hd_stream "Mixdrop" "https://s-delivery.example/v/abc.mp4" mp4], tt).
Proof. split; vm_compute; reflexivity. Qed.

(** The relative link goes through [resolveLink] unchanged and is cached. *)
Example resolveLink_relative_link :
  resolveLink relative_links_site "https://hubcloud.example/drive/abc" ([], tt)
  = (Ok [hd_stream "Direct" "/files/movie.mkv" mkv],
     ([("https://hubcloud.example/drive/abc",
        mkEntry [hd_stream "Direct" "/files/movie.mkv" mkv] 0%Z)], tt)).
Proof. vm_compute. reflexivity. Qed.

(** * Further properties *)

(** ** More on the cache store *)

Module StoreFacts.
Import JsMapOps.
Section Facts.
Context {T : Type}.
Implicit Types (m l : JsMap T) (e : CacheEntry T) (x y o : string * CacheEntry T).

Lemma sort_by_timestamp_length l :
  List.length (sort_by_timestamp l) = List.length l.
Proof.
  assert (I : forall x l', List.length (insert_sorted x l') = S (List.length l')).
  { intros x l'. induction l' as [|y l' IH]; simpl; auto.
    destruct (_ <=? _)%Z; simpl; auto. }
  induction l as [|x l IH]; simpl; auto. now rewrite I, IH.
Qed.

(** The head of the sorted list is the first entry of the list, in its own
    order, among those with the smallest timestamp. *)
Lemma sort_by_timestamp_first l o rest :
  sort_by_timestamp l = o :: rest ->
  exists pre post,
    l = pre ++ o :: post
    /\ Forall (fun x => (timestamp (snd o) < timestamp (snd x))%Z) pre
    /\ Forall (fun x => (timestamp (snd o) <= timestamp (snd x))%Z) post.
Proof.
  revert o rest. induction l as [|x l IH]; intros o rest; simpl; [discriminate|].
  destruct (sort_by_timestamp l) as [|y r] eqn:E.
  - simpl. intros H. inversion H; subst.
    pose proof (sort_by_timestamp_length l) as L. rewrite E in L.
    destruct l; [|discriminate]. exists [], []. auto.
  - simpl. destruct (Z.leb_spec (timestamp (snd x)) (timestamp (snd y))) as [Hle|Hlt];
      intros H; inversion H; subst.
    + exists [], l. repeat split; auto.
      apply Forall_forall. intros z Hz.
      pose proof (CacheFacts.sort_by_timestamp_head l) as Hh. rewrite E in Hh.
      assert (Hz' : In z (y :: r))
        by (rewrite <- E; now apply CacheFacts.sort_by_timestamp_In).
      specialize (Hh z Hz'). lia.
    + destruct (IH o r eq_refl) as (pre & post & -> & Hpre & Hpost).
      exists (x :: pre), post. repeat split; auto.
Qed.

Lemma get_none_notin m key : get m key = None <-> ~ In key (keys m).
Proof.
  induction m as [|[k e] m IH]; simpl; [tauto|].
  destruct (String.eqb_spec k key) as [->|Hne].
  - split; [discriminate | tauto].
  - rewrite IH. tauto.
Qed.

Lemma keys_set m key e :
  keys (set m key e) = if existsb (String.eqb key) (keys m) then keys m
                       else keys m ++ [key].
Proof.
  induction m as [|[k e'] m IH]; simpl; auto.
  rewrite (String.eqb_sym key k).
  destruct (String.eqb_spec k key) as [->|Hne]; simpl; auto.
  rewrite IH. now destruct (existsb _ _).
Qed.

Lemma keys_delete_incl m key k : In k (keys (delete m key)) -> In k (keys m).
Proof.
  induction m as [|[k' e] m IH]; simpl; auto.
  destruct (String.eqb k' key); simpl; tauto.
Qed.

Lemma NoDup_delete m key : NoDup (keys m) -> NoDup (keys (delete m key)).
Proof.
  induction m as [|[k e] m IH]; simpl; auto. intros H. inversion H; subst.
  destruct (String.eqb k key); simpl; auto.
  constructor; auto. intros Hin. now apply keys_delete_incl in Hin.
Qed.

Lemma NoDup_set m key e : NoDup (keys m) -> NoDup (keys (set m key e)).
Proof.
  intros H. rewrite keys_set. destruct (existsb _ _) eqn:E; auto.
  apply NoDup_app; auto.
  - constructor; [tauto | constructor].
  - intros k Hk [<-|[]].
    assert (existsb (String.eqb key) (keys m) = true); [|congruence].
    apply existsb_exists. exists key. split; auto. apply String.eqb_refl.
Qed.

Lemma NoDup_setCache m key d now :
  NoDup (keys m) -> NoDup (keys (setCache m key d now)).
Proof.
  intros H. unfold setCache. apply NoDup_set.
  destruct (_ <? _)%nat; auto. destruct (oldest m); auto. now apply NoDup_delete.
Qed.

Lemma get_delete_same m key : NoDup (keys m) -> get (delete m key) key = None.
Proof.
  induction m as [|[k e] m IH]; simpl; auto. intros H. inversion H; subst.
  destruct (String.eqb_spec k key) as [->|Hne].
  - now apply get_none_notin.
  - simpl. destruct (String.eqb_spec k key); [congruence | auto].
Qed.

Lemma get_delete_other m key k' : key <> k' -> get (delete m key) k' = get m k'.
Proof.
  intros Hne. induction m as [|[k e] m IH]; simpl; auto.
  destruct (String.eqb_spec k key) as [->|Hk]; simpl.
  - destruct (String.eqb_spec key k'); [congruence | auto].
  - destruct (String.eqb k k'); auto.
Qed.

End Facts.
End StoreFacts.

(** X1. Whatever the sequence of [setCache] calls on a store that starts
    empty, the store never holds more than 1001 entries. *)
Theorem store_size_at_most_1001 {T : Type} (puts : list (Put T)) :
  JsMapOps.size (run_puts puts []) <= 1001.
Proof.
  assert (G : forall (ps : list (Put T)) m,
             JsMapOps.size m <= 1001 -> JsMapOps.size (run_puts ps m) <= 1001).
  { induction ps as [|p ps IH]; intros m Hm; [exact Hm|].
    apply IH. apply CacheFacts.setCache_size_le_1001. exact Hm. }
  apply G. unfold JsMapOps.size. simpl. lia.
Qed.

(** X2. When [setCache] finds more than 1000 entries it removes exactly one
    entry before the insert: the first one, in insertion order, among the
    entries with the smallest timestamp. Every entry inserted before it is
    strictly newer and every entry inserted after it is at least as new. *)
Theorem setCache_evicts_first_oldest {T : Type} (m : JsMap T) (key : string)
    (d : T) (now : Z) :
  1000 < JsMapOps.size m ->
  exists pre k0 e0 post,
    m = pre ++ (k0, e0) :: post
    /\ Forall (fun x => (timestamp e0 < timestamp (snd x))%Z) pre
    /\ Forall (fun x => (timestamp e0 <= timestamp (snd x))%Z) post
    /\ setCache m key d now
       = JsMapOps.set (JsMapOps.delete m k0) key (mkEntry d now).
Proof.
  intros Hm. unfold setCache. apply Nat.ltb_lt in Hm. rewrite Hm.
  unfold oldest. destruct (JsMapOps.sort_by_timestamp m) as [|[k0 e0] rest] eqn:E.
  - pose proof (StoreFacts.sort_by_timestamp_length m) as L. rewrite E in L.
    apply Nat.ltb_lt in Hm. unfold JsMapOps.size in Hm. simpl in L. lia.
  - destruct (StoreFacts.sort_by_timestamp_first _ _ _ E)
      as (pre & post & Hm' & Hpre & Hpost).
    exists pre, k0, e0, post. auto.
Qed.

Lemma setCache_evicts_first_oldest_witness :
  exists pre k0 e0 post,
    run_puts (distinct_puts 1001) [] = pre ++ (k0, e0) :: post
    /\ Forall (fun x => (timestamp e0 < timestamp (snd x))%Z) pre
    /\ Forall (fun x => (timestamp e0 <= timestamp (snd x))%Z) post
    /\ setCache (run_puts (distinct_puts 1001) []) "new" 7 5000%Z
       = JsMapOps.set (JsMapOps.delete (run_puts (distinct_puts 1001) []) k0)
           "new" (mkEntry 7 5000%Z).
Proof.
  apply (setCache_evicts_first_oldest (run_puts (distinct_puts 1001) []) "new" 7 5000%Z).
  apply Nat.ltb_lt. vm_compute. reflexivity.
Defined.

(** X3. A store that starts empty and changes by [setCache] calls only never
    holds two entries with the same key. *)
Theorem store_keys_distinct {T : Type} (puts : list (Put T)) :
  NoDup (keys (run_puts puts [])).
Proof.
  assert (G : forall (ps : list (Put T)) m,
             NoDup (keys m) -> NoDup (keys (run_puts ps m))).
  { induction ps as [|p ps IH]; intros m Hm; [exact Hm|].
    apply IH. now apply StoreFacts.NoDup_setCache. }
  apply G. constructor.
Qed.

(** X4. A [setCache] under one key leaves the entry of every other key as it
    was, except for the one key that it evicts, which is then absent. *)
Theorem setCache_other_key {T : Type} (m : JsMap T) (key key' : string)
    (d : T) (now : Z) :
  NoDup (keys m) -> key <> key' ->
  JsMapOps.get (setCache m key d now) key'
  = if match evicted_key m with
       | Some k0 => String.eqb k0 key'
       | None => false
       end
    then None else JsMapOps.get m key'.
Proof.
  intros Hnd Hne. unfold setCache, evicted_key.
  rewrite CacheFacts.get_set_other by exact Hne.
  destruct (_ <? _)%nat; [|reflexivity].
  destruct (oldest m) as [[k0 e0]|]; simpl; [|reflexivity].
  destruct (String.eqb_spec k0 key') as [->|Hk].
  - now apply StoreFacts.get_delete_same.
  - now apply StoreFacts.get_delete_other.
Qed.

Lemma setCache_other_key_witness :
  JsMapOps.get (setCache [("a", mkEntry 1 10%Z); ("b", mkEntry 2 20%Z)] "b" 3 30%Z) "a"
  = Some (mkEntry 1 10%Z).
Proof.
  exact (setCache_other_key [("a", mkEntry 1 10%Z); ("b", mkEntry 2 20%Z)]
           "b" "a" 3 30%Z
           ltac:(repeat constructor; simpl; intuition discriminate)
           ltac:(discriminate)).
Defined.

(** ** More on the orchestrator *)

(** X5. After an uncached [resolveLink] has returned a non-empty list, a
    second [resolveLink] of the same URL, made while the clock is less than
    15 minutes past the write, returns the same list from the cache: it
    changes neither the store nor the world (it fetches nothing). *)
Theorem resolveLink_then_cached {W : Type} (rt : Runtime W) (url : string)
    (store store' : JsMap (list StreamLink)) (w w' w2 : W)
    (final : list StreamLink) :
  getCached store url CACHE_TTL.streams (Date_now rt w) = None ->
  resolveLink rt url (store, w) = (Ok final, (store', w')) ->
  final <> [] ->
  (Date_now rt w2 - Date_now rt w' < CACHE_TTL.streams)%Z ->
  resolveLink rt url (store', w2) = (Ok final, (store', w2)).
Proof.
  intros Hmiss Hrun Hne Hfresh.
  destruct (resolveLink_uncached rt _ _ _ Hmiss)
    as (streams & w1 & final' & w2' & _ & _ & _ & Hrun').
  rewrite Hrun in Hrun'. inversion Hrun'; subst final' w2'.
  destruct final as [|x final]; [congruence|]. clear Hrun'.
  assert (Hhit : getCached (setCache store url (x :: final) (Date_now rt w')) url
                   CACHE_TTL.streams (Date_now rt w2)
                 = Some (mkHit (x :: final) true)).
  { unfold getCached, setCache. rewrite CacheFacts.get_set_same. simpl.
    apply Z.ltb_lt in Hfresh. now rewrite Hfresh. }
  apply (resolveLink_cached rt _ _ _ _ Hhit).
Qed.

Lemma resolveLink_then_cached_witness :
  resolveLink offline "https://pixeldrain.com/u/abc123"
    ([("https://pixeldrain.com/u/abc123",
       mkEntry [hd_stream "Pixeldrain"
                  "https://pixeldrain.com/api/file/abc123?download" mkv] 0%Z)], tt)
  = (Ok [hd_stream "Pixeldrain" "https://pixeldrain.com/api/file/abc123?download" mkv],
     ([("https://pixeldrain.com/u/abc123",
        mkEntry [hd_stream "Pixeldrain"
                   "https://pixeldrain.com/api/file/abc123?download" mkv] 0%Z)], tt)).
Proof.
  apply (resolveLink_then_cached offline "https://pixeldrain.com/u/abc123" [] _ tt tt tt).
  - reflexivity.
  - vm_compute. reflexivity.
  - discriminate.
  - reflexivity.
Defined.

Section MoreOrchestrator.
Context {W : Type} (rt : Runtime W).

Lemma deep_resolve_one_terminal (stream : StreamLink) (w : W) :
  looks_terminal stream = true ->
  deep_resolve_one rt stream w = (Ok [stream], w).
Proof.
  unfold looks_terminal, terminal_marker, deep_resolve_one.
  destruct (String.eqb_spec (server stream) "Streamtape") as [E|_].
  { try rewrite E. simpl. now intros ->. }
  destruct (String.eqb_spec (server stream) "Doodstream") as [E|_].
  { try rewrite E. simpl. now intros ->. }
  destruct (String.eqb_spec (server stream) "Filemoon") as [E|_].
  { try rewrite E. simpl. now intros ->. }
  destruct (String.eqb_spec (server stream) "Mixdrop") as [E|_].
  { try rewrite E. simpl. now intros ->. }
  reflexivity.
Qed.

Lemma deep_resolve_terminal_acc (streams acc : list StreamLink) (w : W) :
  Forall (fun s => looks_terminal s = true) streams ->
  deep_resolve rt streams acc w = (Ok (acc ++ streams), w).
Proof.
  intros H. revert acc. induction H as [|s streams Hs _ IH]; intros acc; simpl.
  - unfold ret. now rewrite app_nil_r.
  - rewrite (bind_ok _ _ _ _ _ (deep_resolve_one_terminal s w Hs)).
    rewrite IH, <- app_assoc. reflexivity.
Qed.

(** Without a page no extractor but that of the file host finds anything. *)
Lemma no_page_extractor (h : Host) (url : string) (w : W) :
  no_page rt -> h <> Pixeldrain ->
  exists w', extractor rt h url w = (Ok [], w').
Proof.
  intros Hno Hh. apply page_fetch_failed_empty.
  unfold page_fetch_failed.
  destruct h; try congruence; simpl page_url; cbv iota;
    match goal with
    | |- exists w1, fetchHtml rt ?p [] w = _ \/ _ =>
        destruct (Hno p [] w) as (w1 & H1); exists w1; now left
    end.
Qed.

Lemma classify_pixeldrain (url : string) :
  classify_spec url = Some Pixeldrain ->
  Str.includes (Str.toLowerCase url) "pixeldrain" = true.
Proof.
  unfold classify_spec, host_markers, marked. simpl.
  repeat rewrite orb_false_r.
  repeat match goal with
         | |- context [Str.includes ?s ?m] =>
             destruct (Str.includes s m); simpl; try discriminate; auto
         end.
Qed.

End MoreOrchestrator.

(** X6. The deep-resolve loop returns a list of candidates unchanged, and
    fetches nothing, when every candidate either is of a server other than
    the four embed hosts or has a link that holds the marker of its host
    ([get_video], [pass_md5], [.m3u8], [delivery]). *)
Theorem deep_resolve_terminal {W : Type} (rt : Runtime W)
    (streams : list StreamLink) (w : W) :
  Forall (fun s => looks_terminal s = true) streams ->
  deep_resolve rt streams [] w = (Ok streams, w).
Proof. intros H. now apply (deep_resolve_terminal_acc rt streams [] w). Qed.

Lemma deep_resolve_terminal_witness :
  deep_resolve offline
    [hd_stream "Streamtape" "https://streamtape.com/get_video?id=1" mp4;
     hd_stream "Direct" "https://cdn.example/a.mkv" mkv] [] tt
  = (Ok [hd_stream "Streamtape" "https://streamtape.com/get_video?id=1" mp4;
         hd_stream "Direct" "https://cdn.example/a.mkv" mkv], tt).
Proof.
  apply (deep_resolve_terminal offline
           [hd_stream "Streamtape" "https://streamtape.com/get_video?id=1" mp4;
            hd_stream "Direct" "https://cdn.example/a.mkv" mkv] tt).
  repeat constructor.
Defined.

(** X7. When no page can be fetched, an uncached [resolveLink] of a URL that
    does not contain [pixeldrain] returns the empty list and leaves the
    cache store as it was. *)
Theorem resolveLink_no_page {W : Type} (rt : Runtime W) (url : string)
    (store : JsMap (list StreamLink)) (w : W) :
  no_page rt ->
  Str.includes (Str.toLowerCase url) "pixeldrain" = false ->
  getCached store url CACHE_TTL.streams (Date_now rt w) = None ->
  exists w', resolveLink rt url (store, w) = (Ok [], (store, w')).
Proof.
  intros Hno Hpx Hmiss.
  destruct (resolveLink_uncached rt _ _ _ Hmiss)
    as (streams & w1 & final & w2 & H1 & H2 & _ & ->).
  assert (Hs : streams = []).
  { rewrite extract_by_host_classify in H1.
    destruct (classify_spec url) as [h|] eqn:C.
    - assert (Hh : h <> Pixeldrain).
      { intros ->. apply classify_pixeldrain in C. congruence. }
      destruct (no_page_extractor rt h url w Hno Hh) as (w' & H'). congruence.
    - destruct (fallback_run rt url w) as (sA & wA & HA & HF).
      destruct (no_page_extractor rt Hubcloud url w Hno ltac:(discriminate))
        as (w' & H'). simpl in H'. rewrite H' in HA. inversion HA; subst sA wA.
      destruct (no_page_extractor rt Gdflix url w' Hno ltac:(discriminate))
        as (w'' & H''). simpl in H''. congruence. }
  subst streams. simpl in H2. unfold ret in H2. inversion H2; subst. eauto.
Qed.

Lemma resolveLink_no_page_witness :
  exists w', resolveLink offline "https://streamtape.com/e/abc" ([], tt)
             = (Ok [], ([], w')).
Proof.
  apply (resolveLink_no_page offline "https://streamtape.com/e/abc" [] tt).
  - intros url hs w. exists w. reflexivity.
  - reflexivity.
  - reflexivity.
Defined.

(** ** The matcher reports matches of the pattern only *)

Module RegexSound.
Import Regex RegexSem.

Lemma lit_split (ci : bool) (l s s' : string) :
  lit ci l s = Some s' ->
  exists t, s = t +++ s' /\ lit ci l t = Some EmptyString
            /\ String.length t = String.length l.
Proof.
  revert s. induction l as [|a l IH]; intros s; simpl.
  - intros H. inversion H; subst. exists EmptyString. auto.
  - destruct s as [|b s]; [discriminate|].
    destruct (char_eq ci a b) eqn:E; [|discriminate].
    intros H. destruct (IH _ H) as (t & -> & Ht & Hl).
    exists (String b t). simpl. rewrite E. auto.
Qed.

Lemma star_sound {R : Type} (p : ascii -> bool) (s : string)
    (k : string -> option R) (x : R) :
  star p s k = Some x ->
  exists t rest, s = t +++ rest /\ all_chars p t = true /\ k rest = Some x.
Proof.
  induction s as [|c s IH]; simpl.
  - intros H. exists EmptyString, EmptyString. auto.
  - destruct (p c) eqn:E.
    + destruct (star p s k) as [y|] eqn:S.
      * intros H. inversion H; subst y.
        destruct (IH eq_refl) as (t & rest & -> & Ht & Hk).
        exists (String c t), rest. simpl. rewrite E. auto.
      * intros H. exists EmptyString, (String c s). auto.
    + intros H. exists EmptyString, (String c s). auto.
Qed.

Lemma append_assoc (a b c : string) : (a +++ b) +++ c = a +++ b +++ c.
Proof. induction a as [|x a IH]; simpl; [|rewrite IH]; auto. Qed.

Lemma append_nil_r (a : string) : a +++ EmptyString = a.
Proof. induction a as [|x a IH]; simpl; [|rewrite IH]; auto. Qed.

(** Whatever [run] answers, it has matched a prefix of the input by the
    pattern and passed the rest, with the new captures, to its
    continuation. *)
Lemma run_sound {R : Type} (ci : bool) (r : regex) :
  forall (s : string) (caps : list string)
         (k : string -> list string -> option R) (x : R),
    run ci r s caps k = Some x ->
    exists t rest new,
      s = t +++ rest /\ Matches ci r t new /\ k rest (caps ++ new) = Some x.
Proof.
  induction r as [l|p|p|p|c|r1 IH1 r2 IH2|r1 IH1 r2 IH2|r1 IH1];
    intros s caps k x; simpl.
  - destruct (lit ci l s) as [s'|] eqn:E; [|discriminate]. intros H.
    destruct (lit_split _ _ _ _ E) as (t & -> & Ht & _).
    exists t, s', []. rewrite app_nil_r. repeat split; auto. now constructor.
  - destruct s as [|c s]; [discriminate|]. destruct (p c) eqn:E; [|discriminate].
    intros H. exists (String c EmptyString), s, []. rewrite app_nil_r.
    repeat split; auto. now constructor.
  - intros H. destruct (star_sound _ _ _ _ H) as (t & rest & -> & Ht & Hk).
    exists t, rest, []. rewrite app_nil_r. repeat split; auto. now constructor.
  - destruct s as [|c s]; [discriminate|]. destruct (p c) eqn:E; [|discriminate].
    intros H. destruct (star_sound _ _ _ _ H) as (t & rest & -> & Ht & Hk).
    exists (String c t), rest, []. rewrite app_nil_r.
    repeat split; auto. now constructor.
  - assert (N : k s caps = Some x ->
                exists t rest new, s = t +++ rest /\ Matches ci (OptC c) t new
                                   /\ k rest (caps ++ new) = Some x).
    { intros H. exists EmptyString, s, []. rewrite app_nil_r.
      repeat split; auto. constructor. }
    destruct s as [|c' s]; [exact N|].
    destruct (char_eq ci c c') eqn:E; [|exact N].
    destruct (k s caps) as [y|] eqn:K; [|exact N].
    intros H. inversion H; subst y.
    exists (String c' EmptyString), s, []. rewrite app_nil_r.
    repeat split; auto. now constructor.
  - intros H. destruct (IH1 _ _ _ _ H) as (t1 & rest1 & new1 & -> & M1 & H1).
    destruct (IH2 _ _ _ _ H1) as (t2 & rest2 & new2 & -> & M2 & H2).
    exists (t1 +++ t2), rest2, (new1 ++ new2).
    rewrite append_assoc, app_assoc. repeat split; auto. now constructor.
  - destruct (run ci r1 s caps k) as [y|] eqn:E.
    + intros H. inversion H; subst y.
      destruct (IH1 _ _ _ _ E) as (t & rest & new & -> & M & Hk).
      exists t, rest, new. repeat split; auto. now apply M_Alt_l.
    + intros H. destruct (IH2 _ _ _ _ H) as (t & rest & new & -> & M & Hk).
      exists t, rest, new. repeat split; auto. now apply M_Alt_r.
  - intros H. destruct (IH1 _ _ _ _ H) as (t & rest & new & -> & M & Hk).
    rewrite RegexFacts.taken_app in Hk.
    exists t, rest, (new ++ [t]). rewrite app_assoc.
    repeat split; auto. now constructor.
Qed.

Lemma match_here_sound (ci : bool) (r : regex) (s : string) g rest :
  match_here ci r s = Some (g, rest) ->
  exists whole caps,
    g = whole :: caps /\ s = whole +++ rest /\ Matches ci r whole caps.
Proof.
  unfold match_here. intros H.
  destruct (run_sound _ _ _ _ _ _ H) as (t & rest' & new & -> & M & Hk).
  simpl in Hk. inversion Hk; subst. rewrite RegexFacts.taken_app. eauto.
Qed.

Lemma rev_string_app (acc s : string) :
  Str.rev_string acc s = Str.rev_string EmptyString s +++ acc.
Proof.
  revert acc. induction s as [|c s IH]; intros acc; simpl; auto.
  rewrite IH, (IH (String c EmptyString)), append_assoc. reflexivity.
Qed.

Lemma search_from_sound (ci : bool) (r : regex) (pre s : string) (f : found) :
  search_from ci r pre s = Some f ->
  exists whole caps,
    groups f = whole :: caps
    /\ Str.rev_string EmptyString pre +++ s = before f +++ whole +++ after f
    /\ Matches ci r whole caps.
Proof.
  revert pre. induction s as [|c s IH]; intros pre;
    rewrite PixeldrainFacts.search_from_step;
    destruct (match_here ci r _) as [[g rest]|] eqn:E; try discriminate.
  - intros H. inversion H; subst f. simpl.
    destruct (match_here_sound _ _ _ _ _ E) as (whole & caps & -> & -> & M). eauto.
  - intros H. inversion H; subst f. simpl.
    destruct (match_here_sound _ _ _ _ _ E) as (whole & caps & -> & -> & M). eauto.
  - intros H. destruct (IH _ H) as (whole & caps & Hg & Hs & M).
    exists whole, caps. repeat split; auto. rewrite <- Hs. simpl.
    rewrite (rev_string_app (String c EmptyString)), append_assoc. reflexivity.
Qed.

(** The result of a search: the input is the text before the match, the
    match and the text after it, and the match is one of the pattern. *)
Lemma search_sound (ci : bool) (r : regex) (s : string) (f : found) :
  search ci r s = Some f ->
  exists whole caps,
    groups f = whole :: caps
    /\ s = before f +++ whole +++ after f
    /\ Matches ci r whole caps.
Proof. intros H. apply search_from_sound in H. exact H. Qed.

Lemma exec_sound (ci : bool) (r : regex) (s : string) (m : list string) :
  exec ci r s = Some m ->
  exists pre whole caps post,
    m = whole :: caps /\ s = pre +++ whole +++ post /\ Matches ci r whole caps.
Proof.
  unfold exec. destruct (search ci r s) as [f|] eqn:E; [|discriminate].
  simpl. intros H. inversion H; subst m.
  destruct (search_sound _ _ _ _ E) as (whole & caps & Hg & Hs & M).
  exists (before f), whole, caps, (after f). auto.
Qed.

Lemma match_all_sound (ci : bool) (r : regex) (s : string) :
  Forall (fun m => exists caps, Matches ci r m caps) (match_all ci r s).
Proof.
  unfold match_all. generalize (S (String.length s)) as fuel. intros fuel.
  revert s. induction fuel as [|fuel IH]; intros s; simpl; [constructor|].
  destruct (search ci r s) as [f|] eqn:E; [|constructor].
  destruct (search_sound _ _ _ _ E) as (whole & caps & Hg & _ & M).
  rewrite Hg. simpl.
  destruct whole; destruct (after f); constructor; eauto.
Qed.

Lemma Matches_Lit_inv ci l t c :
  Matches ci (Lit l) t c -> c = [] /\ lit ci l t = Some EmptyString.
Proof. inversion 1; subst; auto. Qed.

Lemma Matches_Plus_inv ci p t c :
  Matches ci (Plus p) t c ->
  c = [] /\ t <> EmptyString /\ all_chars p t = true.
Proof.
  inversion 1 as [| | |p' x t' Hx Ht| | | | | |]; subst.
  repeat split; [discriminate|]. simpl. now rewrite Hx, Ht.
Qed.

Lemma Matches_Star_inv ci p t c :
  Matches ci (Star p) t c -> c = [] /\ all_chars p t = true.
Proof. inversion 1; subst; auto. Qed.

Lemma Matches_Seq_inv ci r1 r2 t c :
  Matches ci (Seq r1 r2) t c ->
  exists t1 t2 c1 c2,
    t = t1 +++ t2 /\ c = c1 ++ c2 /\ Matches ci r1 t1 c1 /\ Matches ci r2 t2 c2.
Proof. inversion 1; subst; eauto 10. Qed.

Lemma Matches_Group_inv ci r t c :
  Matches ci (Group r) t c -> exists c1, c = c1 ++ [t] /\ Matches ci r t c1.
Proof. inversion 1; subst; eauto. Qed.

Lemma Matches_min_len (ci : bool) (r : regex) (t : string) (caps : list string) :
  Matches ci r t caps -> min_len r <= String.length t.
Proof.
  induction 1; simpl; try lia.
  - destruct (lit_split _ _ _ _ H) as (t' & -> & _ & Hl).
    rewrite append_nil_r. lia.
  - rewrite RegexFacts.length_append. lia.
Qed.

Lemma Matches_caps (ci : bool) (P : string -> Prop) (r : regex) (t : string)
    (caps : list string) :
  Matches ci r t caps -> caps_in ci P r -> Forall P caps.
Proof.
  induction 1; simpl; intros C; try constructor.
  - destruct C. apply Forall_app. auto.
  - destruct C. auto.
  - destruct C. auto.
  - destruct C as [C1 C2]. apply Forall_app. split; auto.
    constructor; [|constructor]. eapply C1. eassumption.
Qed.

Lemma Matches_n_groups (ci : bool) (r : regex) (t : string) (caps : list string) :
  Matches ci r t caps -> balanced r = true -> List.length caps = n_groups r.
Proof.
  induction 1; simpl; intros B; auto.
  - apply andb_true_iff in B. destruct B. rewrite length_app. auto.
  - apply andb_true_iff in B. destruct B as [B ?].
    apply andb_true_iff in B. destruct B. auto.
  - apply andb_true_iff in B. destruct B as [B ?].
    apply andb_true_iff in B. destruct B as [B ?].
    apply Nat.eqb_eq in B. rewrite B. auto.
  - rewrite length_app. simpl. rewrite IHMatches by exact B. lia.
Qed.

(** A group of a balanced pattern, read from the result of a match,
    satisfies what every capture of the pattern satisfies. *)
Lemma exec_group (ci : bool) (P : string -> Prop) (r : regex) (s : string)
    (m : list string) (i : nat) :
  exec ci r s = Some m -> balanced r = true -> caps_in ci P r ->
  1 <= i <= n_groups r -> P (group m i).
Proof.
  intros H B C Hi.
  destruct (exec_sound _ _ _ _ H) as (pre & whole & caps & post & -> & _ & M).
  pose proof (Matches_caps _ _ _ _ _ M C) as F.
  pose proof (Matches_n_groups _ _ _ _ M B) as L.
  unfold group. destruct i as [|i]; [lia|]. simpl.
  rewrite Forall_forall in F. apply F. apply nth_In. lia.
Qed.

Lemma nonempty_length (t : string) : 1 <= String.length t -> t <> EmptyString.
Proof. destruct t; simpl; [lia | discriminate]. Qed.

Lemma match_all_nonempty (ci : bool) (r : regex) (s : string) :
  1 <= min_len r -> Forall (fun m => m <> EmptyString) (match_all ci r s).
Proof.
  intros H. eapply Forall_impl; [|apply match_all_sound].
  intros m (caps & M). apply nonempty_length.
  apply Matches_min_len in M. lia.
Qed.

End RegexSound.

(** ** The shape of what the extractors return *)

Module Shapes.
Import Regex RegexSem RegexSound.

Lemma includes_app (a b c : string) : Str.includes (a +++ b +++ c) b = true.
Proof.
  induction a as [|x a IH]; simpl.
  - assert (S : Str.startsWith (b +++ c) b = true).
    { unfold Str.startsWith. induction b as [|y b IHb]; simpl.
      - now destruct c.
      - rewrite Ascii.eqb_refl. exact IHb. }
    destruct (b +++ c); simpl in *; now rewrite S.
  - destruct (Str.startsWith _ _); auto.
Qed.

(** What the file identifier patterns capture: a non-empty run of letters
    and digits that occurs in the URL. *)
Lemma file_id_group (prefix url : string) (m : list string) :
  exec false (Seq (Lit prefix) (Group (Plus is_alnum))) url = Some m ->
  group m 1 <> EmptyString
  /\ all_chars is_alnum (group m 1) = true
  /\ Str.includes url (group m 1) = true.
Proof.
  intros H.
  destruct (exec_sound _ _ _ _ H) as (pre & whole & caps & post & -> & -> & M).
  apply Matches_Seq_inv in M. destruct M as (t1 & t2 & c1 & c2 & -> & -> & M1 & M2).
  apply Matches_Lit_inv in M1. destruct M1 as [-> _].
  apply Matches_Group_inv in M2. destruct M2 as (c3 & -> & M3).
  apply Matches_Plus_inv in M3. destruct M3 as (-> & Hne & Hal). simpl.
  repeat split; auto.
  rewrite (append_assoc t1), <- (append_assoc pre). apply includes_app.
Qed.

End Shapes.

Section SimpleExtractors.
Context {W : Type} (rt : Runtime W).
Import Regex RegexSem RegexSound.

Lemma pixeldrain_shape (url : string) (w : W) :
  exists l w',
    pixeldrainExtractor rt url w = (Ok l, w')
    /\ (l = []
        \/ exists id ty,
             l = [hd_stream "Pixeldrain"
                    ("https://pixeldrain.com/api/file/" +++ id +++ "?download") ty]
             /\ id <> EmptyString
             /\ all_chars is_alnum id = true
             /\ Str.includes url id = true).
Proof.
  unfold pixeldrainExtractor. rewrite extractor_frame_run.
  unfold pixeldrain_body. cbv zeta.
  assert (F : match Str.or_else
                       (option_map (fun m => group m 1)
                          (exec false Patterns.file_id_u url))
                       (option_map (fun m => group m 1)
                          (exec false Patterns.file_id_api url)) with
              | Some id =>
                  id = EmptyString
                  \/ (id <> EmptyString /\ all_chars is_alnum id = true
                      /\ Str.includes url id = true)
              | None => True
              end).
  { unfold Str.or_else.
    destruct (exec false Patterns.file_id_u url) as [m|] eqn:E1; simpl option_map.
    - cbv beta iota. destruct (Str.truthy (group m 1)) eqn:T; cbv iota.
      + right. apply (Shapes.file_id_group _ _ _ E1).
      + destruct (exec false Patterns.file_id_api url) as [m'|] eqn:E2;
          simpl option_map; cbv iota; auto.
        right. apply (Shapes.file_id_group _ _ _ E2).
    - destruct (exec false Patterns.file_id_api url) as [m'|] eqn:E2;
        simpl option_map; cbv iota; auto.
      right. apply (Shapes.file_id_group _ _ _ E2). }
  destruct (Str.or_else _ _) as [id|].
  2: { do 2 eexists. split; [reflexivity|]. now left. }
  destruct F as [->|(Hne & Hal & Hin)].
  { do 2 eexists. split; [reflexivity|]. now left. }
  assert (T : Str.truthy id = true) by (destruct id; auto; congruence).
  rewrite T. unfold when.
  destruct (fetchJson_ok rt ("https://pixeldrain.com/api/file/" +++ id +++ "/info") [] w)
    as (info & w' & Hinfo).
  rewrite (bind_ok _ _ _ _ _ (on_snd_ok _ _ _ _ _ Hinfo)).
  unfold bind, of_res. destruct (mime_type_is_video info) as [is_video|e].
  - unfold push, modify_fst. cbn [fst snd streams app].
    do 2 eexists. split; [reflexivity|]. right. eauto 10.
  - do 2 eexists. split; [reflexivity|]. now left.
Qed.

(** Unfolds an extractor down to what its body does after the page has been
    fetched. *)
Ltac after_page url w page w1 :=
  rewrite extractor_frame_run; cbv zeta;
  match goal with
  | |- context [on_snd (fetchHtml rt ?u [])] =>
      let F := fresh "F" in
      destruct (fetchHtml_ok rt u [] w) as (page & w1 & F);
      rewrite !(bind_ok _ _ _ _ _ (on_snd_ok _ _ _ _ _ F))
  end.

Ltac run_pure :=
  unfold when, push, streams_length, modify_fst, get_fst, bind, ret;
  cbn [fst snd streams processed app List.length Nat.eqb].

Ltac empty_result := do 2 eexists; split; [reflexivity | now left].

Lemma streamtape_shape (url : string) (w : W) :
  exists l w',
    streamtapeExtractor rt url w = (Ok l, w')
    /\ (l = [] \/ exists v, l = [hd_stream "Streamtape" ("https:" +++ v) mp4]).
Proof.
  unfold streamtapeExtractor, streamtape_body. after_page url w page w1.
  destruct page as [page|]; [|empty_result].
  destruct (Str.truthy page); [|empty_result].
  destruct (exec false Patterns.robotlink page) as [lm|];
    destruct (exec false Patterns.token page) as [tm|];
    destruct (exec false Patterns.norobotlink page) as [am|];
    run_pure; try empty_result;
    (do 2 eexists; split; [reflexivity | right; eexists; reflexivity]).
Qed.

Lemma truthy_nonempty (s : string) : Str.truthy s = true -> s <> EmptyString.
Proof. destruct s; [discriminate | discriminate]. Qed.

Lemma append_nonempty_l (a b : string) : a <> EmptyString -> a +++ b <> EmptyString.
Proof. destruct a; [congruence | discriminate]. Qed.

Lemma doodstream_shape (url : string) (w : W) :
  exists l w',
    doodstreamExtractor rt url w = (Ok l, w')
    /\ (l = []
        \/ exists v,
             l = [mkStream "Doodstream" v mp4 (Some "HD")
                    (Some [("Referer", "https://dood.li/")])]
             /\ v <> EmptyString).
Proof.
  unfold doodstreamExtractor, doodstream_body. after_page url w page w1.
  destruct page as [page|]; [|empty_result].
  destruct (Str.truthy page); [|empty_result]. unfold when at 1.
  destruct (exec false Patterns.pass_md5 page) as [passMatch|]; [|empty_result].
  match goal with
  | |- context [on_snd (fetchHtml rt ?u ?hs)] =>
      destruct (fetchHtml_ok rt u hs w1) as (passRes & w2 & F2);
      rewrite !(bind_ok _ _ _ _ _ (on_snd_ok _ _ _ _ _ F2))
  end.
  destruct passRes as [passRes|]; [|empty_result].
  destruct (Str.truthy passRes) eqn:T; [|empty_result].
  unfold when, on_snd, total, bind. cbn [fst snd].
  destruct (Math_random_base36 rt w2) as [rnd w3]. cbn [fst snd].
  unfold push, modify_fst. cbn [fst snd streams app].
  do 2 eexists. split; [reflexivity|]. right. eexists. split; [reflexivity|].
  apply append_nonempty_l. now apply truthy_nonempty.
Qed.

Lemma group1_nonempty (ci : bool) (r : regex) (s : string) (m : list string) :
  exec ci r s = Some m -> balanced r = true ->
  caps_in ci (fun t => t <> EmptyString) r -> 1 <= n_groups r ->
  group m 1 <> EmptyString.
Proof.
  intros H B C N.
  apply (exec_group ci (fun t => t <> EmptyString) r s m 1 H B C). lia.
Qed.

(** A group that holds at least one character of a class captures a
    non-empty text. *)
Lemma caps_nonempty_group (ci : bool) (r : regex) :
  1 <= min_len r -> forall t c, Matches ci r t c -> t <> EmptyString.
Proof.
  intros H t c M. apply nonempty_length. apply Matches_min_len in M. lia.
Qed.

Lemma filemoon_shape (url : string) (w : W) :
  exists l w',
    filemoonExtractor rt url w = (Ok l, w')
    /\ (l = []
        \/ exists v, l = [hd_stream "Filemoon" v m3u8] /\ v <> EmptyString).
Proof.
  unfold filemoonExtractor, filemoon_body. after_page url w page w1.
  destruct page as [page|]; [|empty_result].
  destruct (Str.truthy page); [|empty_result].
  pose proof (match_all_nonempty true Patterns.m3u8_url page
                ltac:(vm_compute; lia)) as A.
  assert (G1 : forall m, exec true Patterns.file_m3u8 page = Some m ->
                         group m 1 <> EmptyString).
  { intros m Hm. apply (group1_nonempty _ _ _ _ Hm); [reflexivity| |simpl; lia].
    simpl. repeat split. apply caps_nonempty_group. vm_compute. lia. }
  assert (G2 : forall m, exec true Patterns.sources_file page = Some m ->
                         group m 1 <> EmptyString).
  { intros m Hm. apply (group1_nonempty _ _ _ _ Hm); [reflexivity| |simpl; lia].
    simpl. repeat split. apply caps_nonempty_group. vm_compute. lia. }
  destruct (exec true Patterns.file_m3u8 page) as [fm|];
    [specialize (G1 fm eq_refl)
    | destruct (exec true Patterns.sources_file page) as [fm|];
      [specialize (G2 fm eq_refl)|]];
    destruct (match_all true Patterns.m3u8_url page) as [|first rest];
    run_pure; try empty_result;
    (do 2 eexists; split; [reflexivity|]; right; eexists; split; [reflexivity|]);
    auto.
  all: now inversion A.
Qed.

Lemma mixdrop_shape (url : string) (w : W) :
  exists l w',
    mixdropExtractor rt url w = (Ok l, w')
    /\ (l = []
        \/ exists v, l = [hd_stream "Mixdrop" v mp4] /\ v <> EmptyString).
Proof.
  unfold mixdropExtractor, mixdrop_body. after_page url w page w1.
  destruct page as [page|]; [|empty_result].
  destruct (Str.truthy page); [|empty_result].
  assert (G1 : forall m, exec false Patterns.mdcore_wurl page = Some m ->
                         group m 1 <> EmptyString).
  { intros m Hm. apply (group1_nonempty _ _ _ _ Hm); [reflexivity| |simpl; lia].
    simpl. repeat split. apply caps_nonempty_group. vm_compute. lia. }
  destruct (exec false Patterns.mdcore_wurl page) as [m|]; [|empty_result].
  specialize (G1 m eq_refl). run_pure.
  do 2 eexists. split; [reflexivity|]. right. eexists. split; [reflexivity|].
  destruct (Str.startsWith _ _); [discriminate | exact G1].
Qed.

End SimpleExtractors.

(** ** What the two aggregators push *)

Section Maintains.
Context {W : Type} (P : StreamLink -> Prop).

Lemma maintains_ret {A : Type} (a : A) : maintains P (@ret (Locals * W) A a).
Proof. now apply hoare_ret. Qed.

Lemma maintains_bind {A B : Type} (c : SE (Locals * W) A)
    (f : A -> SE (Locals * W) B) :
  maintains P c -> (forall a, maintains P (f a)) -> maintains P (bind c f).
Proof. intros Hc Hf. eapply hoare_bind; [exact Hc | exact Hf]. Qed.

Lemma maintains_on_snd {A : Type} (c : SE W A) : maintains P (@on_snd Locals W A c).
Proof.
  intros [l w] Hl. unfold on_snd. simpl.
  destruct (c w) as [[a|e] w']; exact Hl.
Qed.

Lemma maintains_of_res {A : Type} (r : Res A) :
  maintains P (@of_res (Locals * W) A r).
Proof. intros s Hs. unfold of_res. now destruct r. Qed.

Lemma maintains_when (c : bool) (body : SE (Locals * W) unit) :
  maintains P body -> maintains P (when c body).
Proof. destruct c; simpl; [auto | intros _; apply maintains_ret]. Qed.

Lemma maintains_for_each {A : Type} (xs : list A)
    (body : A -> SE (Locals * W) unit) :
  (forall x, In x xs -> maintains P (body x)) -> maintains P (for_each xs body).
Proof.
  induction xs as [|x xs IH]; simpl; intros H.
  - apply maintains_ret.
  - apply maintains_bind; [apply H; now left|].
    intros _. apply IH. intros y Hy. apply H. now right.
Qed.

Lemma maintains_push (s : StreamLink) : P s -> maintains P (push (W := W) s).
Proof.
  intros Hs [l w] Hl. unfold push, modify_fst, all_streams in *. simpl in *.
  apply Forall_app. auto.
Qed.

Lemma maintains_push_all (ss : list StreamLink) :
  Forall P ss -> maintains P (push_all (W := W) ss).
Proof.
  intros Hs [l w] Hl. unfold push_all, modify_fst, all_streams in *. simpl in *.
  apply Forall_app. auto.
Qed.

Lemma maintains_processed_add (h : string) : maintains P (processed_add (W := W) h).
Proof. intros [l w] Hl. exact Hl. Qed.

Lemma maintains_processed_has (h : string) : maintains P (processed_has (W := W) h).
Proof. intros [l w] Hl. exact Hl. Qed.

(** What an extractor returns satisfies what its body maintains. *)
Lemma maintains_frame (body : Body unit) (w : W) :
  maintains P body ->
  exists l w', extractor_frame body w = (Ok l, w') /\ Forall P l.
Proof.
  intros H. rewrite extractor_frame_run. do 2 eexists. split; [reflexivity|].
  specialize (H (mkLocals [] [], w) (Forall_nil P)).
  destruct (body _) as [[a|e] lw]; exact H.
Qed.

End Maintains.

Ltac maintains_step :=
  first
    [ apply maintains_ret
    | apply maintains_on_snd
    | apply maintains_of_res
    | apply maintains_processed_add
    | apply maintains_processed_has
    | apply maintains_when
    | apply maintains_bind; [|intros]
    | match goal with
      | |- maintains _ (match ?x with _ => _ end) => destruct x eqn:?
      end ].

Section Aggregators.
Context {W : Type} (rt : Runtime W).

(** The first lasting step of a link callback: nothing is pushed for an
    empty link. *)
Lemma maintains_hubcloud_link (P : StreamLink -> Prop) (el : Element) :
  (forall srv lnk ty,
      In srv hubcloud_servers -> lnk <> EmptyString -> P (hd_stream srv lnk ty)) ->
  maintains P (hubcloud_link (W := W) el).
Proof.
  intros HP. unfold hubcloud_link. cbv zeta.
  set (href := Str.or_default _ _).
  destruct (Str.truthy href) eqn:T.
  2: { apply maintains_bind; [apply maintains_processed_has|]. intros seen.
       simpl. apply maintains_ret. }
  pose proof (truthy_nonempty _ T) as Hne.
  assert (Hpx : forall t, "https://pixeldrain.com/api/file/" +++ t +++ "?download"
                          <> EmptyString) by discriminate.
  repeat maintains_step;
    apply maintains_push;
    (apply HP;
     [ unfold hubcloud_servers; simpl; auto 10
     | repeat match goal with
              | |- context [match ?x with _ => _ end] => destruct x
              end; auto ]).
Qed.

Lemma maintains_direct_url (P : StreamLink -> Prop) skip (u : string) :
  u <> EmptyString ->
  (forall lnk ty, lnk <> EmptyString -> P (hd_stream "Direct" lnk ty)) ->
  maintains P (direct_url (W := W) skip u).
Proof.
  intros Hu HP. unfold direct_url. repeat maintains_step.
  apply maintains_push. now apply HP.
Qed.

Lemma maintains_direct_urls (P : StreamLink -> Prop) skip (page : string) :
  (forall lnk ty, lnk <> EmptyString -> P (hd_stream "Direct" lnk ty)) ->
  maintains P
    (for_each (Regex.match_all true Patterns.media_url page)
       (direct_url (W := W) skip)).
Proof.
  intros HP. apply maintains_for_each. intros u Hu.
  apply maintains_direct_url; [|exact HP].
  pose proof (RegexSound.match_all_nonempty true Patterns.media_url page
                ltac:(vm_compute; lia)) as A.
  rewrite Forall_forall in A. now apply A.
Qed.

Lemma maintains_hubcloud_body (P : StreamLink -> Prop) (url : string) :
  (forall srv lnk ty,
      In srv hubcloud_servers -> lnk <> EmptyString -> P (hd_stream srv lnk ty)) ->
  maintains P (hubcloud_body rt url).
Proof.
  intros HP. unfold hubcloud_body. cbv zeta.
  apply maintains_bind; [apply maintains_on_snd|]. intros [page|];
    [|apply maintains_ret].
  apply maintains_when.
  apply maintains_bind; [apply maintains_of_res|]. intros _.
  apply maintains_bind.
  { repeat maintains_step. }
  intros targetHtml.
  apply maintains_bind; [apply maintains_of_res|]. intros doc.
  apply maintains_bind.
  - apply maintains_for_each. intros sel _. apply maintains_for_each. intros el _.
    now apply maintains_hubcloud_link.
  - intros _. apply maintains_direct_urls. intros lnk ty Hl.
    apply HP; auto. unfold hubcloud_servers. simpl. auto 10.
Qed.

Lemma hubcloud_result (P : StreamLink -> Prop) (url : string) (w : W) :
  (forall srv lnk ty,
      In srv hubcloud_servers -> lnk <> EmptyString -> P (hd_stream srv lnk ty)) ->
  exists l w', hubcloudExtractor rt url w = (Ok l, w') /\ Forall P l.
Proof.
  intros HP. apply maintains_frame. now apply maintains_hubcloud_body.
Qed.

Lemma includes_nonempty (s sub : string) :
  sub <> EmptyString -> Str.includes s sub = true -> s <> EmptyString.
Proof.
  intros Hs H ->. simpl in H. unfold Str.startsWith in H.
  destruct sub; [congruence | discriminate].
Qed.

Lemma maintains_gdflix_link (P : StreamLink -> Prop) (baseUrl : string)
    (el : Element) :
  (forall srv lnk ty,
      In srv gdflix_servers -> lnk <> EmptyString -> P (hd_stream srv lnk ty)) ->
  maintains P (gdflix_link (W := W) baseUrl el).
Proof.
  intros HP. unfold gdflix_link. cbv zeta.
  set (href := Str.or_default _ _).
  destruct (Str.truthy href) eqn:T.
  2: { apply maintains_bind; [apply maintains_processed_has|]. intros seen.
       simpl. apply maintains_ret. }
  pose proof (truthy_nonempty _ T) as Hne.
  assert (Hpx : forall t, "https://pixeldrain.com/api/file/" +++ t +++ "?download"
                          <> EmptyString) by discriminate.
  assert (Hb : baseUrl +++ href <> EmptyString).
  { destruct baseUrl; simpl; [exact Hne | discriminate]. }
  repeat maintains_step;
    apply maintains_push;
    (apply HP;
     [ unfold gdflix_servers; simpl; auto 15
     | repeat match goal with
              | |- context [match ?x with _ => _ end] => destruct x
              end; auto ]).
Qed.

Lemma maintains_gdflix_embed (P : StreamLink -> Prop) (el : Element) :
  (forall srv lnk ty,
      In srv gdflix_servers -> lnk <> EmptyString -> P (hd_stream srv lnk ty)) ->
  maintains P (gdflix_embed (W := W) el).
Proof.
  intros HP. unfold gdflix_embed. cbv zeta.
  set (href := Str.or_default _ _).
  apply maintains_bind; [apply maintains_processed_has|]. intros seen.
  destruct seen; [apply maintains_ret|].
  repeat match goal with
         | |- maintains _ (if Str.includes href ?m then _ else _) =>
             let E := fresh "E" in
             destruct (Str.includes href m) eqn:E;
             [ apply maintains_bind; [apply maintains_processed_add|]; intros _;
               apply maintains_push;
               (apply HP;
                [ unfold gdflix_servers; simpl; auto 15
                | apply (includes_nonempty href m); [discriminate | exact E] ])
             | ]
         end.
  apply maintains_ret.
Qed.

Lemma maintains_gdflix_body (P : StreamLink -> Prop) (url : string) :
  (forall srv lnk ty,
      In srv gdflix_servers -> lnk <> EmptyString -> P (hd_stream srv lnk ty)) ->
  maintains P (gdflix_body rt url).
Proof.
  intros HP. unfold gdflix_body. cbv zeta.
  apply maintains_bind; [apply maintains_on_snd|]. intros [page|];
    [|apply maintains_ret].
  apply maintains_when.
  apply maintains_bind; [apply maintains_of_res|]. intros doc0.
  apply maintains_bind.
  { repeat maintains_step. }
  intros doc.
  apply maintains_bind.
  { apply maintains_for_each. intros sel _. apply maintains_for_each. intros el _.
    now apply maintains_gdflix_link. }
  intros _. apply maintains_bind.
  { destruct (gdflix_hub_link doc) as [hubLink|]; [|apply maintains_ret].
    apply maintains_bind; [apply maintains_processed_has|]. intros seen.
    apply maintains_when.
    intros [l w] Hl. unfold bind, on_snd. simpl.
    destruct (hubcloud_result P hubLink w) as (hs & w' & Hrun & Hhs).
    { intros srv lnk ty Hsrv. apply HP. unfold hubcloud_servers in Hsrv.
      unfold gdflix_servers. simpl in *. tauto. }
    rewrite Hrun. unfold push_all, modify_fst, all_streams in *. simpl in *.
    apply Forall_app. auto. }
  intros _. apply maintains_bind.
  { apply maintains_for_each. intros el _. now apply maintains_gdflix_embed. }
  intros _. apply maintains_direct_urls. intros lnk ty Hl.
  apply HP; auto. unfold gdflix_servers. simpl. auto 15.
Qed.

Lemma gdflix_result (P : StreamLink -> Prop) (url : string) (w : W) :
  (forall srv lnk ty,
      In srv gdflix_servers -> lnk <> EmptyString -> P (hd_stream srv lnk ty)) ->
  exists l w', gdflixExtractor rt url w = (Ok l, w') /\ Forall P l.
Proof.
  intros HP. apply maintains_frame. now apply maintains_gdflix_body.
Qed.

End Aggregators.

(** ** What every extractor returns *)

(** X8. The extractors of the file host and of the four embed hosts return
    at most one candidate, and its server is the name of the host. *)
Theorem single_host_one_candidate {W : Type} (rt : Runtime W) (h : Host)
    (url : string) (w : W) :
  single_host h = true ->
  exists l w',
    extractor rt h url w = (Ok l, w')
    /\ List.length l <= 1
    /\ Forall (fun s => server s = host_label h) l.
Proof.
  intros Hs. destruct h; try discriminate; simpl extractor; simpl host_label.
  - destruct (pixeldrain_shape rt url w) as (l & w' & H & [->|(id & ty & -> & _)]);
      do 2 eexists; (split; [exact H|]); simpl; auto.
  - destruct (streamtape_shape rt url w) as (l & w' & H & [->|(v & ->)]);
      do 2 eexists; (split; [exact H|]); simpl; auto.
  - destruct (doodstream_shape rt url w) as (l & w' & H & [->|(v & -> & _)]);
      do 2 eexists; (split; [exact H|]); simpl; auto.
  - destruct (filemoon_shape rt url w) as (l & w' & H & [->|(v & -> & _)]);
      do 2 eexists; (split; [exact H|]); simpl; auto.
  - destruct (mixdrop_shape rt url w) as (l & w' & H & [->|(v & -> & _)]);
      do 2 eexists; (split; [exact H|]); simpl; auto.
Qed.

Lemma single_host_one_candidate_witness :
  exists l w',
    extractor streamtape_site Streamtape "https://streamtape.com/e/abc" tt = (Ok l, w')
    /\ List.length l <= 1
    /\ Forall (fun s => server s = host_label Streamtape) l.
Proof.
  apply (single_host_one_candidate streamtape_site Streamtape
           "https://streamtape.com/e/abc" tt).
  reflexivity.
Defined.

(** X9. No extractor ever returns a candidate with an empty link. *)
Theorem extractor_links_nonempty {W : Type} (rt : Runtime W) (h : Host)
    (url : string) (w : W) :
  exists l w',
    extractor rt h url w = (Ok l, w')
    /\ Forall (fun s => link s <> EmptyString) l.
Proof.
  destruct h; simpl extractor.
  - destruct (pixeldrain_shape rt url w) as (l & w' & H & [->|(id & ty & -> & _)]);
      do 2 eexists; (split; [exact H|]); repeat constructor. discriminate.
  - destruct (streamtape_shape rt url w) as (l & w' & H & [->|(v & ->)]);
      do 2 eexists; (split; [exact H|]); repeat constructor. discriminate.
  - destruct (doodstream_shape rt url w) as (l & w' & H & [->|(v & -> & Hv)]);
      do 2 eexists; (split; [exact H|]); repeat constructor. exact Hv.
  - destruct (filemoon_shape rt url w) as (l & w' & H & [->|(v & -> & Hv)]);
      do 2 eexists; (split; [exact H|]); repeat constructor. exact Hv.
  - destruct (mixdrop_shape rt url w) as (l & w' & H & [->|(v & -> & Hv)]);
      do 2 eexists; (split; [exact H|]); repeat constructor. exact Hv.
  - apply gdflix_result. auto.
  - apply hubcloud_result. auto.
Qed.

(** X10. Whatever the URL and the world, a candidate of [pixeldrainExtractor]
    has the link [https://pixeldrain.com/api/file/ID?download], where [ID] is
    a non-empty run of letters and digits that occurs in the URL. *)
Theorem pixeldrain_link_format {W : Type} (rt : Runtime W) (url : string) (w : W) :
  exists l w',
    pixeldrainExtractor rt url w = (Ok l, w')
    /\ Forall (fun s =>
         exists id,
           link s = "https://pixeldrain.com/api/file/" +++ id +++ "?download"
           /\ id <> EmptyString
           /\ RegexSem.all_chars Regex.is_alnum id = true
           /\ Str.includes url id = true) l.
Proof.
  destruct (pixeldrain_shape rt url w)
    as (l & w' & H & [->|(id & ty & -> & Hne & Hal & Hin)]);
    do 2 eexists; (split; [exact H|]); repeat constructor.
  exists id. auto.
Qed.

(** X11. Every link that [pixeldrainExtractor] or [streamtapeExtractor]
    returns is an absolute URL. *)
Theorem file_and_tape_links_absolute {W : Type} (rt : Runtime W) (url : string)
    (w : W) :
  (exists l w',
      pixeldrainExtractor rt url w = (Ok l, w')
      /\ Forall (fun s => Url.is_absolute (link s) = true) l)
  /\ (exists l w',
      streamtapeExtractor rt url w = (Ok l, w')
      /\ Forall (fun s => Url.is_absolute (link s) = true) l).
Proof.
  split.
  - destruct (pixeldrain_shape rt url w) as (l & w' & H & [->|(id & ty & -> & _)]);
      do 2 eexists; (split; [exact H|]); repeat constructor.
  - destruct (streamtape_shape rt url w) as (l & w' & H & [->|(v & ->)]);
      do 2 eexists; (split; [exact H|]); repeat constructor.
Qed.

(** X12. A candidate carries request headers only when [doodstreamExtractor]
    built it, and then they are the one header [Referer: https://dood.li/];
    the candidates of the six other extractors carry none. *)
Theorem headers_only_from_doodstream {W : Type} (rt : Runtime W) (h : Host)
    (url : string) (w : W) :
  exists l w',
    extractor rt h url w = (Ok l, w')
    /\ Forall (fun s =>
         headers s = match h with
                     | Doodstream => Some [("Referer", "https://dood.li/")]
                     | _ => None
                     end) l.
Proof.
  destruct h; simpl extractor.
  - destruct (pixeldrain_shape rt url w) as (l & w' & H & [->|(id & ty & -> & _)]);
      do 2 eexists; (split; [exact H|]); repeat constructor.
  - destruct (streamtape_shape rt url w) as (l & w' & H & [->|(v & ->)]);
      do 2 eexists; (split; [exact H|]); repeat constructor.
  - destruct (doodstream_shape rt url w) as (l & w' & H & [->|(v & -> & Hv)]);
      do 2 eexists; (split; [exact H|]); repeat constructor.
  - destruct (filemoon_shape rt url w) as (l & w' & H & [->|(v & -> & Hv)]);
      do 2 eexists; (split; [exact H|]); repeat constructor.
  - destruct (mixdrop_shape rt url w) as (l & w' & H & [->|(v & -> & Hv)]);
      do 2 eexists; (split; [exact H|]); repeat constructor.
  - apply gdflix_result. auto.
  - apply hubcloud_result. auto.
Qed.

(** X13. The server of a candidate of [hubcloudExtractor] is one of
    [CfWorker], [Pixeldrain], [CfStorage], [HubCdn] and [Direct]; that of a
    candidate of [gdflixExtractor] is one of these or of [R2Storage],
    [FastDL], [Streamtape], [Doodstream], [Filemoon] and [Mixdrop]. *)
Theorem aggregator_servers {W : Type} (rt : Runtime W) (url : string) (w : W) :
  (exists l w',
      hubcloudExtractor rt url w = (Ok l, w')
      /\ Forall (fun s => In (server s) hubcloud_servers) l)
  /\ (exists l w',
      gdflixExtractor rt url w = (Ok l, w')
      /\ Forall (fun s => In (server s) gdflix_servers) l).
Proof.
  split; [apply hubcloud_result | apply gdflix_result]; auto.
Qed.

(** X14. For an uncached URL that is classified as aggregator A,
    [resolveLink] returns exactly the list of [hubcloudExtractor]: the
    deep-resolve loop changes no candidate of aggregator A and fetches
    nothing. *)
Theorem resolveLink_hubcloud_passthrough {W : Type} (rt : Runtime W)
    (url : string) (store : JsMap (list StreamLink)) (w : W) :
  classify_spec url = Some Hubcloud ->
  getCached store url CACHE_TTL.streams (Date_now rt w) = None ->
  exists l w',
    hubcloudExtractor rt url w = (Ok l, w')
    /\ resolveLink rt url (store, w)
       = (Ok l, (match l with
                 | [] => store
                 | _ :: _ => setCache store url l (Date_now rt w')
                 end, w')).
Proof.
  intros Hc Hmiss.
  destruct (resolveLink_uncached rt _ _ _ Hmiss)
    as (streams & w1 & final & w2 & H1 & H2 & _ & ->).
  rewrite extract_by_host_classify, Hc in H1. simpl in H1.
  destruct (hubcloud_result rt (fun s => looks_terminal s = true) url w)
    as (l & w' & Hrun & Hl).
  { intros srv lnk ty Hsrv _. unfold hubcloud_servers in Hsrv. simpl in Hsrv.
    repeat destruct Hsrv as [<-|Hsrv]; try reflexivity. destruct Hsrv. }
  rewrite Hrun in H1. inversion H1; subst streams w1.
  rewrite (deep_resolve_terminal_acc rt l [] w' Hl) in H2.
  inversion H2; subst final w2. eauto.
Qed.

Lemma resolveLink_hubcloud_passthrough_witness :
  exists l w',
    hubcloudExtractor worker_site "https://hubcloud.example/drive/w" tt = (Ok l, w')
    /\ resolveLink worker_site "https://hubcloud.example/drive/w" ([], tt)
       = (Ok l, (match l with
                 | [] => []
                 | _ :: _ => setCache [] "https://hubcloud.example/drive/w" l
                               (Date_now worker_site w')
                 end, w')).
Proof.
  apply (resolveLink_hubcloud_passthrough worker_site
           "https://hubcloud.example/drive/w" [] tt); reflexivity.
Defined.

(** ** Titles *)

Module TextFacts.
Import Regex RegexSem RegexSound TextPatterns.

Lemma strip_app (p s rest : string) : Str.strip p s = Some rest -> s = p +++ rest.
Proof.
  revert s. induction p as [|a p IH]; intros s; simpl.
  - intros H. now inversion H.
  - destruct s as [|b s]; [discriminate|].
    destruct (Ascii.eqb_spec a b) as [->|]; [|discriminate].
    intros H. now rewrite <- (IH _ H).
Qed.

Lemma includes_inv (s sub : string) :
  Str.includes s sub = true -> exists a b, s = a +++ sub +++ b.
Proof.
  induction s as [|c s IH]; simpl; unfold Str.startsWith.
  - destruct (Str.strip sub EmptyString) as [rest|] eqn:E; [|discriminate].
    intros _. exists EmptyString, rest. simpl. now apply strip_app.
  - destruct (Str.strip sub (String c s)) as [rest|] eqn:E.
    + intros _. exists EmptyString, rest. simpl. now apply strip_app.
    + intros H. destruct (IH H) as (a & b & ->). now exists (String c a), b.
Qed.

Lemma includes_parts (s x y : string) :
  Str.includes s (x +++ y) = true ->
  Str.includes s x = true /\ Str.includes s y = true.
Proof.
  intros H. destruct (includes_inv _ _ H) as (a & b & ->). split.
  - rewrite (append_assoc x y b). apply Shapes.includes_app.
  - rewrite (append_assoc x y b), <- (append_assoc a x (y +++ b)).
    apply Shapes.includes_app.
Qed.

Lemma includes_refl (t : string) : Str.includes t t = true.
Proof.
  pose proof (Shapes.includes_app EmptyString t EmptyString) as I.
  simpl in I. now rewrite append_nil_r in I.
Qed.

Lemma lower_char_idem (c : ascii) :
  Str.lower_char (Str.lower_char c) = Str.lower_char c.
Proof. destruct c as [[] [] [] [] [] [] [] []]; reflexivity. Qed.

Lemma toLowerCase_idem (s : string) :
  Str.toLowerCase (Str.toLowerCase s) = Str.toLowerCase s.
Proof. induction s as [|c s IH]; simpl; [|rewrite lower_char_idem, IH]; auto. Qed.

Lemma toLowerCase_app (a b : string) :
  Str.toLowerCase (a +++ b) = Str.toLowerCase a +++ Str.toLowerCase b.
Proof. induction a as [|c a IH]; simpl; [|rewrite IH]; auto. Qed.

(** The captures of a match are pieces of the matched text. *)
Lemma Matches_caps_sub (ci : bool) (r : regex) (t : string) (caps : list string) :
  Matches ci r t caps -> Forall (fun c => exists a b, t = a +++ c +++ b) caps.
Proof.
  induction 1; try constructor; auto.
  - apply Forall_app. split.
    + eapply Forall_impl; [|exact IHMatches1]. intros c (a & b & ->).
      exists a, (b +++ t2). now rewrite !append_assoc.
    + eapply Forall_impl; [|exact IHMatches2]. intros c (a & b & ->).
      exists (t1 +++ a), b. now rewrite !append_assoc.
  - apply Forall_app. split; auto. constructor; [|constructor].
    exists EmptyString, EmptyString. simpl. now rewrite append_nil_r.
Qed.

Lemma lit_exact (l t : string) : lit false l t = Some EmptyString -> t = l.
Proof.
  rewrite RegexFacts.lit_strip. intros H. apply strip_app in H.
  now rewrite append_nil_r in H.
Qed.

Lemma Matches_Cls_inv ci p t c :
  Matches ci (Cls p) t c ->
  exists x, t = String x EmptyString /\ c = [] /\ p x = true.
Proof. inversion 1; subst; eauto. Qed.

Lemma Matches_Alt_inv ci r1 r2 t c :
  Matches ci (Alt r1 r2) t c -> Matches ci r1 t c \/ Matches ci r2 t c.
Proof. inversion 1; subst; auto. Qed.

(** What the two sides of the pattern of [extractYear] match. *)
Lemma year_paren_inv (t : string) (caps : list string) :
  Matches false year_paren t caps ->
  exists y, t = "(" +++ y +++ ")" /\ caps = [y]
            /\ String.length y = 4 /\ all_chars is_digit y = true.
Proof.
  unfold year_paren. simpl seq_of. intros M.
  apply Matches_Seq_inv in M. destruct M as (t1 & t2 & c1 & c2 & -> & -> & M1 & M).
  apply Matches_Lit_inv in M1. destruct M1 as [-> M1]. apply lit_exact in M1. subst t1.
  apply Matches_Seq_inv in M. destruct M as (y & t3 & c1 & c3 & -> & -> & My & M3).
  apply Matches_Lit_inv in M3. destruct M3 as [-> M3]. apply lit_exact in M3. subst t3.
  apply Matches_Group_inv in My. destruct My as (c & -> & My).
  apply Matches_Seq_inv in My. destruct My as (d1 & t & e1 & e & -> & -> & D1 & My).
  apply Matches_Seq_inv in My. destruct My as (d2 & t' & e2 & e' & -> & -> & D2 & My).
  apply Matches_Seq_inv in My. destruct My as (d3 & d4 & e3 & e4 & -> & -> & D3 & D4).
  apply Matches_Cls_inv in D1, D2, D3, D4.
  destruct D1 as (x1 & -> & -> & H1), D2 as (x2 & -> & -> & H2),
           D3 as (x3 & -> & -> & H3), D4 as (x4 & -> & -> & H4).
  eexists. repeat split. simpl. now rewrite H1, H2, H3, H4.
Qed.

Lemma year_bare_inv (t : string) (caps : list string) :
  Matches false year_bare t caps ->
  caps = [t]
  /\ exists a b,
       (t = "20" +++ String a (String b EmptyString)
        /\ is_0_2 a = true /\ is_digit b = true)
       \/ (t = "19" +++ String a (String b EmptyString)
           /\ is_digit a = true /\ is_digit b = true).
Proof.
  unfold year_bare. simpl seq_of. intros M.
  apply Matches_Group_inv in M. destruct M as (c & -> & M).
  apply Matches_Alt_inv in M. destruct M as [M|M];
    apply Matches_Seq_inv in M; destruct M as (t1 & t2 & c1 & c2 & -> & -> & M1 & M);
    apply Matches_Lit_inv in M1; destruct M1 as [-> M1]; apply lit_exact in M1; subst t1;
    apply Matches_Seq_inv in M; destruct M as (d1 & d2 & e1 & e2 & -> & -> & D1 & D2);
    apply Matches_Cls_inv in D1, D2;
    destruct D1 as (a & -> & -> & Ha), D2 as (b & -> & -> & Hb);
    (split; [reflexivity|]); exists a, b; [left|right]; auto.
Qed.

Lemma is_0_2_digit (a : ascii) : is_0_2 a = true -> is_digit a = true.
Proof.
  unfold is_0_2, is_digit. intros H. apply andb_true_iff in H. destruct H as [H1 H2].
  apply Nat.leb_le in H2. rewrite H1. apply Nat.leb_le. lia.
Qed.

Lemma year_here_sound (prev : option ascii) (s : string) m :
  year_here prev s = Some m ->
  exists t rest y,
    s = t +++ rest /\ Str.or_else (nth 1 m None) (nth 0 m None) = Some y
    /\ year_in t y.
Proof.
  unfold year_here.
  destruct (run false year_paren s [] _) as [m1|] eqn:E1.
  - intros H. inversion H; subst m1. clear H.
    destruct (run_sound _ _ _ _ _ _ E1) as (t & rest & new & -> & M & Hk).
    destruct (year_paren_inv _ _ M) as (y & -> & -> & Hl & Hd).
    simpl in Hk. inversion Hk; subst m. simpl.
    exists ("(" +++ y +++ ")"), rest, y. split; [reflexivity|]. split.
    { destruct y; [discriminate|reflexivity]. }
    repeat split; auto.
    + apply (Shapes.includes_app "(" y ")").
    + left. apply includes_refl.
  - destruct (boundary prev s); [|discriminate]. intros H.
    destruct (run_sound _ _ _ _ _ _ H) as (t & rest & new & -> & M & Hk).
    destruct (year_bare_inv _ _ M) as (-> & a & b & Hy).
    rewrite RegexFacts.taken_app in Hk. simpl app in Hk.
    destruct (boundary _ rest); [|discriminate]. inversion Hk; subst m. simpl.
    exists t, rest, t. split; [reflexivity|].
    pose proof (includes_refl t) as Hin.
    destruct Hy as [(-> & Ha & Hb)|(-> & Ha & Hb)].
    + split; [reflexivity|]. repeat split; auto.
      * simpl. now rewrite (is_0_2_digit _ Ha), Hb.
      * right. exists a, b. left. auto.
    + split; [reflexivity|]. repeat split; auto.
      * simpl. now rewrite Ha, Hb.
      * right. exists a, b. right. auto.
Qed.

Lemma year_in_context (pre t post y : string) :
  year_in t y -> year_in (pre +++ t +++ post) y.
Proof.
  intros (Hl & Hd & Hi & Hp). repeat split; auto.
  - destruct (includes_inv _ _ Hi) as (a & b & ->).
    rewrite !append_assoc, <- (append_assoc pre a). apply Shapes.includes_app.
  - destruct Hp as [Hp|Hp]; [left|right; exact Hp].
    destruct (includes_inv _ _ Hp) as (a & b & ->).
    rewrite (append_assoc a), (append_assoc ("(" +++ y +++ ")")),
      <- (append_assoc pre a).
    apply Shapes.includes_app.
Qed.

Lemma year_from_sound (s : string) :
  forall prev m,
    year_from prev s = Some m ->
    exists y, Str.or_else (nth 1 m None) (nth 0 m None) = Some y /\ year_in s y.
Proof.
  induction s as [|c s IH]; intros prev m; simpl.
  - destruct (year_here prev EmptyString) as [m'|] eqn:E; [|discriminate].
    intros H. inversion H; subst m'.
    destruct (year_here_sound _ _ _ E) as (t & rest & y & Hs & Hy & Hin).
    exists y. split; auto. rewrite Hs.
    apply (year_in_context EmptyString t rest y Hin).
  - destruct (year_here prev (String c s)) as [m'|] eqn:E.
    + intros H. inversion H; subst m'.
      destruct (year_here_sound _ _ _ E) as (t & rest & y & Hs & Hy & Hin).
      exists y. split; auto. rewrite Hs.
      apply (year_in_context EmptyString t rest y Hin).
    + intros H. destruct (IH _ _ H) as (y & Hy & Hin). exists y. split; auto.
      pose proof (year_in_context (String c EmptyString) s EmptyString y) as C.
      rewrite append_nil_r in C. apply C.
      destruct Hin as (? & ? & ? & ?). repeat split; auto.
Qed.

Lemma plus_digit_number ci t c : Matches ci (Plus is_digit) t c -> number_in t.
Proof. intros M. apply Matches_Plus_inv in M. destruct M as (_ & ? & ?). now split. Qed.

Lemma episode_patterns_numbers :
  Forall (fun p => balanced p = true /\ caps_in true number_in p /\ 1 <= n_groups p)
         episode_patterns.
Proof.
  pose proof plus_digit_number as N.
  unfold episode_patterns, s_e, season_episode, episode_n, e_n. simpl seq_of.
  repeat (apply Forall_cons; [simpl; intuition eauto|]). apply Forall_nil.
Qed.

End TextFacts.

(** X15. When [extractYear] finds a year, it is a text of exactly four
    digits that occurs in the input, either between parentheses or as a
    number from 1900 to 2029. *)
Theorem extractYear_four_digits (text y : string) :
  extractYear text = Some y -> year_in text y.
Proof.
  unfold extractYear. destruct (year_from None text) as [m|] eqn:E; [|discriminate].
  intros H. destruct (TextFacts.year_from_sound _ _ _ E) as (y' & Hy & Hin).
  rewrite H in Hy. inversion Hy; subst y'. exact Hin.
Qed.

Lemma extractYear_four_digits_witness : year_in "Inception (2010) 1080p" "2010".
Proof. apply (extractYear_four_digits "Inception (2010) 1080p" "2010"). reflexivity. Defined.

Section EpisodeLoop.
Import Regex RegexSem RegexSound.

Lemma group_In (whole : string) (caps : list string) (i : nat) :
  i < List.length caps -> In (group (whole :: caps) (S i)) caps.
Proof. intros H. unfold group. simpl. now apply nth_In. Qed.

Lemma episode_loop_numbers (patterns : list regex) (text : string) :
  Forall (fun p => balanced p = true /\ caps_in true number_in p /\ 1 <= n_groups p)
         patterns ->
  (season (episode_loop patterns text) <> None ->
   episode (episode_loop patterns text) <> None)
  /\ (forall v,
        season (episode_loop patterns text) = Some v
        \/ episode (episode_loop patterns text) = Some v ->
        number_in v /\ Str.includes text v = true).
Proof.
  induction 1 as [|p patterns (B & C & G) _ IH]; simpl.
  - split; [auto|]. intros v [H|H]; discriminate.
  - destruct (exec true p text) as [m|] eqn:E; [|exact IH].
    destruct (exec_sound _ _ _ _ E) as (pre & whole & caps & post & -> & -> & M).
    pose proof (Matches_caps _ _ _ _ _ M C) as F.
    pose proof (TextFacts.Matches_caps_sub _ _ _ _ M) as Sub.
    pose proof (Matches_n_groups _ _ _ _ M B) as L.
    rewrite Forall_forall in F, Sub.
    assert (Hin : forall v, In v caps ->
                            number_in v /\ Str.includes (pre +++ whole +++ post) v = true).
    { intros v Hv. split; [now apply F|].
      destruct (Sub _ Hv) as (a & b & ->).
      rewrite !append_assoc, <- (append_assoc pre a). apply Shapes.includes_app. }
    assert (Hg : forall i, i < List.length caps ->
                           In (group (whole :: caps) (S i)) caps)
      by (intros i; apply group_In).
    change (List.length (whole :: caps)) with (S (List.length caps)).
    destruct (List.length caps) as [|[|n]] eqn:Ln; [lia| |]; simpl.
    + split; [intros _; discriminate|].
      intros v [H|H]; inversion H. apply Hin, Hg. lia.
    + split; [intros _; discriminate|].
      intros v [H|H]; inversion H; apply Hin, Hg; lia.
Qed.

End EpisodeLoop.

(** X16. Every value that [extractEpisodeInfo] returns is a non-empty run
    of digits that occurs in the text, and a season is never returned without
    an episode. *)
Theorem extractEpisodeInfo_numbers (text : string) :
  (season (extractEpisodeInfo text) <> None ->
   episode (extractEpisodeInfo text) <> None)
  /\ (forall v,
        season (extractEpisodeInfo text) = Some v
        \/ episode (extractEpisodeInfo text) = Some v ->
        number_in v /\ Str.includes text v = true).
Proof. apply episode_loop_numbers. apply TextFacts.episode_patterns_numbers. Qed.

(** X17. Of the seven keywords of [getContentType] only five decide: a
    text that holds [episode] holds [ep], and one that holds [web series]
    holds [series]. So every title or link with the letters [ep], in any
    case, is a series. *)
Theorem getContentType_deciding_keywords (title link : string) :
  getContentType title link = series
  <-> existsb (fun k => Str.includes (Str.toLowerCase (title +++ link)) k)
        deciding_keywords = true.
Proof.
  unfold getContentType, keywords, deciding_keywords.
  set (s := Str.toLowerCase (title +++ link)). simpl existsb.
  pose proof (fun H => proj1 (TextFacts.includes_parts s "ep" "isode" H)) as HB.
  pose proof (fun H => proj2 (TextFacts.includes_parts s "web " "series" H)) as HF.
  simpl append in HB, HF.
  destruct (Str.includes s "episode"); [rewrite (HB eq_refl)|];
    (destruct (Str.includes s "web series"); [rewrite (HF eq_refl)|]);
    destruct (Str.includes s "season"), (Str.includes s "s0"),
      (Str.includes s "s1"), (Str.includes s "series"), (Str.includes s "ep");
    simpl; split; intros H; try reflexivity; try discriminate.
Qed.

(** X18. [streamType] and [getContentType] do not see the case of
    letters. *)
Theorem letter_case_ignored (url title link : string) :
  streamType (Str.toLowerCase url) = streamType url
  /\ getContentType (Str.toLowerCase title) (Str.toLowerCase link)
     = getContentType title link.
Proof.
  unfold streamType, getContentType.
  now rewrite <- TextFacts.toLowerCase_app, !TextFacts.toLowerCase_idem.
Qed.

(** ** The provider directory *)

Section Directory.

Lemma entry_for_case (urls : Urls) (provider : string) :
  entry_for urls (Str.toLowerCase provider) = entry_for urls provider.
Proof.
  induction urls as [|[key val] urls IH]; simpl; auto.
  now rewrite TextFacts.toLowerCase_idem, IH.
Qed.

Lemma urls_get_In (urls : Urls) (key : string) (e : Provider.entry) :
  urls_get urls key = Some e -> exists k, In (k, e) urls.
Proof.
  induction urls as [|[k e'] urls IH]; simpl; [discriminate|].
  destruct (String.eqb k key).
  - intros H. inversion H; subst. eauto.
  - intros H. destruct (IH H) as (k' & Hk). eauto.
Qed.

Lemma entry_for_In (urls : Urls) (provider u : string) :
  entry_for urls provider = Some u ->
  exists k e, In (k, e) urls /\ u = strip_slash (Provider.url e).
Proof.
  induction urls as [|[k e] urls IH]; simpl; [discriminate|].
  destruct (_ || _).
  - intros H. inversion H; subst. eauto.
  - intros H. destruct (IH H) as (k' & e' & Hin & ->). eauto.
Qed.

Lemma vega_or_default_In (urls : Urls) :
  vega_or_default urls = "https://vegamovies.gt"
  \/ exists k e, In (k, e) urls /\ vega_or_default urls = strip_slash (Provider.url e).
Proof.
  unfold vega_or_default. destruct (urls_get urls "Vega") as [e|] eqn:E; simpl; auto.
  destruct (Str.truthy _); auto.
  destruct (urls_get_In _ _ _ E) as (k & Hk). right. eauto.
Qed.

End Directory.

(** X19. [getBaseUrl] never makes up an address: its result is the fixed
    address [https://vegamovies.gt] or the [url] of an entry of the
    directory, without one slash at its end. *)
Theorem getBaseUrl_from_directory (provider : string) (urls : Urls) :
  getBaseUrl provider urls = "https://vegamovies.gt"
  \/ exists k e,
       In (k, e) urls /\ getBaseUrl provider urls = strip_slash (Provider.url e).
Proof.
  unfold getBaseUrl.
  destruct (entry_for urls provider) as [u|] eqn:E.
  - right. destruct (entry_for_In _ _ _ E) as (k & e & Hin & ->). eauto.
  - destruct (mappings_get _) as [mapped|]; [|apply vega_or_default_In].
    destruct (urls_get urls mapped) as [e|] eqn:G; [|apply vega_or_default_In].
    right. destruct (urls_get_In _ _ _ G) as (k & Hk). eauto.
Qed.

(** X20. [getBaseUrl] does not see the case of the letters of the provider
    name. *)
Theorem getBaseUrl_provider_case (provider : string) (urls : Urls) :
  getBaseUrl (Str.toLowerCase provider) urls = getBaseUrl provider urls.
Proof.
  unfold getBaseUrl. now rewrite entry_for_case, TextFacts.toLowerCase_idem.
Qed.

(** X21. With the directory that [getProviderUrls] falls back to, the
    provider names [mod] and [moviesmod], in any case, give
    [https://moviesmod.build], and every other name gives
    [https://vegamovies.gt]. *)
Theorem getBaseUrl_builtin (provider : string) :
  getBaseUrl provider builtin_urls
  = if String.eqb (Str.toLowerCase provider) "mod"
       || String.eqb (Str.toLowerCase provider) "moviesmod"
    then "https://moviesmod.build" else "https://vegamovies.gt".
Proof.
  unfold getBaseUrl, builtin_urls, entry_for, mappings_get, mappings, find.
  generalize (Str.toLowerCase provider) as p. intros p.
  cbn [fst snd Provider.name Provider.url].
  change (Str.toLowerCase "Vega") with "vega".
  change (Str.toLowerCase "vegamovies") with "vegamovies".
  change (Str.toLowerCase "Moviesmod") with "moviesmod".
  rewrite !(String.eqb_sym _ p).
  repeat match goal with
         | |- context [String.eqb p ?k] =>
             destruct (String.eqb_spec p k) as [->|?]
         end; reflexivity.
Qed.

(** ** Splitting and joining *)

Module SplitFacts.
Import RegexSound.

Lemma split_fuel_cons (fuel : nat) (sep s cur : string) :
  exists p ps, Str.split_fuel fuel sep s cur = p :: ps.
Proof.
  revert s cur. induction fuel as [|fuel IH]; intros s cur; simpl; eauto.
  destruct s as [|c s]; eauto.
  destruct (Str.strip sep (String c s)); eauto.
Qed.

Lemma join_cons (sep p q : string) (ps : list string) :
  Str.join sep (p :: q :: ps) = p +++ sep +++ Str.join sep (q :: ps).
Proof. reflexivity. Qed.

Lemma rev_string_cons (c : ascii) (cur : string) :
  Str.rev_string EmptyString (String c cur)
  = Str.rev_string EmptyString cur +++ String c EmptyString.
Proof. simpl. apply rev_string_app. Qed.

Lemma strip_length (p s rest : string) :
  Str.strip p s = Some rest -> String.length s = String.length p + String.length rest.
Proof.
  intros H. apply TextFacts.strip_app in H. subst s. apply RegexFacts.length_append.
Qed.

(** Joining the pieces of a text with the separator gives the text back. *)
Lemma join_split_fuel (sep : string) (fuel : nat) :
  1 <= String.length sep ->
  forall s cur,
    String.length s < fuel ->
    Str.join sep (Str.split_fuel fuel sep s cur)
    = Str.rev_string EmptyString cur +++ s.
Proof.
  intros Hsep. induction fuel as [|fuel IH]; intros s cur Hf; [lia|]. simpl.
  destruct s as [|c s].
  - simpl. now rewrite append_nil_r.
  - destruct (Str.strip sep (String c s)) as [rest|] eqn:E.
    + pose proof (strip_length _ _ _ E) as L.
      destruct (split_fuel_cons fuel sep rest EmptyString) as (q & qs & Hq).
      pose proof (IH rest EmptyString) as R. rewrite Hq in *.
      rewrite join_cons, R by (simpl in *; lia). simpl.
      now rewrite (TextFacts.strip_app _ _ _ E).
    + rewrite IH by (simpl in *; lia).
      rewrite rev_string_cons, append_assoc. reflexivity.
Qed.

Lemma join_split (s sep : string) :
  1 <= String.length sep -> Str.join sep (Str.split s sep) = s.
Proof. intros H. unfold Str.split. rewrite join_split_fuel; [reflexivity | exact H | lia]. Qed.

Lemma join_firstn (sep : string) (l : list string) :
  forall n, exists rest, Str.join sep l = Str.join sep (firstn n l) +++ rest.
Proof.
  induction l as [|p l IH]; intros n.
  - exists EmptyString. now destruct n.
  - destruct n as [|n]; [now exists (Str.join sep (p :: l))|].
    destruct l as [|q l].
    + exists EmptyString. destruct n; simpl; now rewrite append_nil_r.
    + destruct n as [|n].
      * exists (sep +++ Str.join sep (q :: l)). reflexivity.
      * destruct (IH (S n)) as (rest & Hr).
        exists rest. change (firstn (S (S n)) (p :: q :: l))
          with (p :: q :: firstn n l).
        change (firstn (S n) (q :: l)) with (q :: firstn n l) in Hr.
        rewrite !join_cons, Hr, !append_assoc. reflexivity.
Qed.

Lemma startsWith_app (a rest : string) : Str.startsWith (a +++ rest) a = true.
Proof.
  unfold Str.startsWith. induction a as [|c a IH]; simpl.
  - now destruct rest.
  - now rewrite Ascii.eqb_refl.
Qed.

(** Splitting at slashes a text whose first piece holds none. *)
Lemma strip_slash_free (c : ascii) (a rest : string) :
  negb (Ascii.eqb c "/"%char) = true -> Str.strip "/" (String c a +++ rest) = None.
Proof.
  intros H.
  change (Str.strip "/" (String c a +++ rest))
    with (if Ascii.eqb "/"%char c then Str.strip EmptyString (a +++ rest) else None).
  rewrite (Ascii.eqb_sym "/"%char c). now destruct (Ascii.eqb c "/"%char).
Qed.

Lemma split_fuel_piece (a : string) :
  forall fuel cur rest,
    no_slash a = true ->
    String.length a < fuel ->
    Str.split_fuel fuel "/" (a +++ "/" +++ rest) cur
    = (Str.rev_string EmptyString cur +++ a)
        :: Str.split_fuel (fuel - S (String.length a)) "/" rest EmptyString.
Proof.
  induction a as [|c a IH]; intros fuel cur rest Ha Hf.
  - destruct fuel as [|fuel]; [simpl in Hf; lia|].
    simpl. now rewrite append_nil_r, Nat.sub_0_r.
  - destruct fuel as [|fuel]; [simpl in Hf; lia|].
    simpl in Ha. apply andb_true_iff in Ha. destruct Ha as [Hc Ha].
    change (Str.split_fuel (S fuel) "/" (String c a +++ "/" +++ rest) cur)
      with (match Str.strip "/" (String c a +++ "/" +++ rest) with
            | Some rest' =>
                Str.rev_string EmptyString cur
                  :: Str.split_fuel fuel "/" rest' EmptyString
            | None => Str.split_fuel fuel "/" (a +++ "/" +++ rest) (String c cur)
            end).
    rewrite (strip_slash_free c a _ Hc).
    rewrite IH by (auto; simpl in Hf; lia).
    rewrite rev_string_cons, append_assoc. reflexivity.
Qed.

Lemma split_fuel_last (a : string) :
  forall fuel cur,
    no_slash a = true ->
    Str.split_fuel fuel "/" a cur = [Str.rev_string EmptyString cur +++ a]
    \/ String.length a >= fuel.
Proof.
  induction a as [|c a IH]; intros fuel cur Ha.
  - left. destruct fuel; simpl; now rewrite append_nil_r.
  - destruct fuel as [|fuel]; [right; simpl; lia|].
    simpl in Ha. apply andb_true_iff in Ha. destruct Ha as [Hc Ha].
    change (Str.split_fuel (S fuel) "/" (String c a) cur)
      with (match Str.strip "/" (String c a) with
            | Some rest' =>
                Str.rev_string EmptyString cur
                  :: Str.split_fuel fuel "/" rest' EmptyString
            | None => Str.split_fuel fuel "/" a (String c cur)
            end).
    pose proof (strip_slash_free c a EmptyString Hc) as N.
    rewrite append_nil_r in N. rewrite N.
    destruct (IH fuel (String c cur) Ha) as [->|G]; [left|right; simpl; lia].
    rewrite rev_string_cons, append_assoc. reflexivity.
Qed.

End SplitFacts.

(** X22. The base address that [hubcloudExtractor] and [gdflixExtractor]
    take from a URL is a prefix of that URL. *)
Theorem base_url_prefix (url : string) :
  Str.startsWith url (base_url url) = true.
Proof.
  unfold base_url.
  destruct (SplitFacts.join_firstn "/" (Str.split url "/") 3) as (rest & H).
  rewrite SplitFacts.join_split in H by (simpl; lia). rewrite H at 1.
  apply SplitFacts.startsWith_app.
Qed.

(** X23. Of a URL [scheme//host/path], where neither [scheme] nor [host]
    holds a slash, the base address is [scheme//host], and so it is of
    [scheme//host] alone. *)
Theorem base_url_origin (scheme host path : string) :
  no_slash scheme = true -> no_slash host = true ->
  base_url (scheme +++ "//" +++ host +++ "/" +++ path) = scheme +++ "//" +++ host
  /\ base_url (scheme +++ "//" +++ host) = scheme +++ "//" +++ host.
Proof.
  intros Hs Hh. unfold base_url, Str.split.
  pose proof RegexFacts.length_append as LA.
  split.
  - change (scheme +++ "//" +++ host +++ "/" +++ path)
      with (scheme +++ "/" +++ EmptyString +++ "/" +++ host +++ "/" +++ path).
    rewrite (SplitFacts.split_fuel_piece scheme)
      by (auto; rewrite LA; lia).
    rewrite (SplitFacts.split_fuel_piece EmptyString)
      by (auto; rewrite !LA; simpl; lia).
    rewrite (SplitFacts.split_fuel_piece host)
      by (auto; rewrite !LA; simpl; lia).
    reflexivity.
  - change (scheme +++ "//" +++ host)
      with (scheme +++ "/" +++ EmptyString +++ "/" +++ host).
    rewrite (SplitFacts.split_fuel_piece scheme)
      by (auto; rewrite LA; lia).
    rewrite (SplitFacts.split_fuel_piece EmptyString)
      by (auto; rewrite !LA; simpl; lia).
    destruct (SplitFacts.split_fuel_last host
                (S (String.length (scheme +++ "/" +++ EmptyString +++ "/" +++ host))
                 - S (String.length scheme) - S (String.length EmptyString))
                EmptyString Hh) as [->|G]; [reflexivity|].
    rewrite !LA in G. simpl in G. lia.
Qed.

Lemma base_url_origin_witness :
  base_url ("https:" +++ "//" +++ "hubcloud.example" +++ "/" +++ "drive/abc")
  = "https:" +++ "//" +++ "hubcloud.example"
  /\ base_url ("https:" +++ "//" +++ "hubcloud.example")
     = "https:" +++ "//" +++ "hubcloud.example".
Proof.
  apply (base_url_origin "https:" "hubcloud.example" "drive/abc"); reflexivity.
Defined.

(** ** What the store holds *)

Section WellFormed.
Context {W : Type} (rt : Runtime W).

Lemma extractor_well_formed (h : Host) (url : string) (w : W) :
  exists l w', extractor rt h url w = (Ok l, w') /\ Forall well_formed l.
Proof.
  assert (One : forall s, link s <> EmptyString -> In (server s) gdflix_servers ->
                           Forall well_formed [s]).
  { intros s H1 H2. constructor; [split; assumption | constructor]. }
  destruct h; simpl extractor.
  - destruct (pixeldrain_shape rt url w) as (l & w' & H & [->|(id & ty & -> & _)]);
      do 2 eexists; (split; [exact H|]); [constructor|].
    apply One; simpl; [discriminate | auto 15].
  - destruct (streamtape_shape rt url w) as (l & w' & H & [->|(v & ->)]);
      do 2 eexists; (split; [exact H|]); [constructor|].
    apply One; simpl; [discriminate | auto 15].
  - destruct (doodstream_shape rt url w) as (l & w' & H & [->|(v & -> & Hv)]);
      do 2 eexists; (split; [exact H|]); [constructor|].
    apply One; simpl; [exact Hv | auto 15].
  - destruct (filemoon_shape rt url w) as (l & w' & H & [->|(v & -> & Hv)]);
      do 2 eexists; (split; [exact H|]); [constructor|].
    apply One; simpl; [exact Hv | auto 15].
  - destruct (mixdrop_shape rt url w) as (l & w' & H & [->|(v & -> & Hv)]);
      do 2 eexists; (split; [exact H|]); [constructor|].
    apply One; simpl; [exact Hv | auto 15].
  - apply gdflix_result. intros srv lnk ty Hs Hl. split; auto.
  - apply hubcloud_result. intros srv lnk ty Hs Hl. split; auto.
    unfold hubcloud_servers in Hs. simpl in Hs.
    repeat destruct Hs as [<-|Hs]; simpl; auto 15.
Qed.

Lemma extract_by_host_well_formed (url : string) (w : W) :
  exists l w', extract_by_host rt url w = (Ok l, w') /\ Forall well_formed l.
Proof.
  rewrite extract_by_host_classify. destruct (classify_spec url) as [h|].
  - apply extractor_well_formed.
  - destruct (fallback_run rt url w) as (sA & w1 & HA & ->).
    destruct (extractor_well_formed Hubcloud url w) as (l & w' & H & F).
    simpl in H. rewrite H in HA. inversion HA; subst sA w1.
    destruct l; [apply (extractor_well_formed Gdflix) | eauto].
Qed.

Lemma deep_resolve_one_well_formed (stream : StreamLink) (w : W) :
  well_formed stream ->
  exists pushed w',
    deep_resolve_one rt stream w = (Ok pushed, w') /\ Forall well_formed pushed.
Proof.
  intros Hs.
  assert (E : forall h, exists pushed w',
    (resolved <- extractor rt h (link stream) ;; ret (resolved_or stream resolved)) w
    = (Ok pushed, w') /\ Forall well_formed pushed).
  { intros h. destruct (extractor_well_formed h (link stream) w) as (l & w' & H & F).
    rewrite (bind_ok _ _ _ _ _ H). unfold ret. do 2 eexists. split; [reflexivity|].
    destruct l; simpl; [constructor; [exact Hs | constructor] | exact F]. }
  unfold deep_resolve_one.
  destruct (_ && _); [exact (E Streamtape)|].
  destruct (_ && _); [exact (E Doodstream)|].
  destruct (_ && _); [exact (E Filemoon)|].
  destruct (_ && _); [exact (E Mixdrop)|].
  unfold ret. do 2 eexists. split; [reflexivity|].
  constructor; [exact Hs | constructor].
Qed.

Lemma deep_resolve_well_formed (streams : list StreamLink) :
  forall acc w,
    Forall well_formed streams -> Forall well_formed acc ->
    exists out w',
      deep_resolve rt streams acc w = (Ok out, w') /\ Forall well_formed out.
Proof.
  induction streams as [|s streams IH]; intros acc w Hs Ha; simpl.
  - unfold ret. eauto.
  - inversion Hs as [|? ? Hs1 Hs2]; subst.
    destruct (deep_resolve_one_well_formed s w Hs1) as (pushed & w1 & H1 & F1).
    rewrite (bind_ok _ _ _ _ _ H1). apply IH; auto. apply Forall_app. auto.
Qed.

Lemma get_In {T : Type} (m : JsMap T) (k : string) (e : CacheEntry T) :
  JsMapOps.get m k = Some e -> exists k', In (k', e) m.
Proof.
  induction m as [|[k' e'] m IH]; simpl; [discriminate|].
  destruct (String.eqb k' k).
  - intros H. inversion H; subst. eauto.
  - intros H. destruct (IH H) as (k'' & Hk). eauto.
Qed.

Lemma In_delete {T : Type} (m : JsMap T) (k : string) x :
  In x (JsMapOps.delete m k) -> In x m.
Proof.
  induction m as [|[k' e'] m IH]; simpl; auto.
  destruct (String.eqb k' k); simpl; intuition.
Qed.

Lemma In_set {T : Type} (m : JsMap T) (k : string) (e : CacheEntry T) x :
  In x (JsMapOps.set m k e) -> snd x = e \/ In x m.
Proof.
  induction m as [|[k' e'] m IH]; simpl.
  - intros [<-|[]]. auto.
  - destruct (String.eqb k' k); simpl; intros [<-|H]; auto.
    destruct (IH H); auto.
Qed.

Lemma In_setCache {T : Type} (m : JsMap T) (k : string) (d : T) (now : Z) x :
  In x (setCache m k d now) -> data (snd x) = d \/ In x m.
Proof.
  unfold setCache. intros H. apply In_set in H. destruct H as [->|H]; auto.
  right. destruct (_ <? _)%nat; auto.
  destruct (oldest m); auto. eapply In_delete; eauto.
Qed.

End WellFormed.

(** X24. When every candidate in the store has a non-empty link and one of
    the eleven server names of the extractors, so has every candidate that
    [resolveLink] returns, and so has every candidate in the store that it
    leaves. *)
Theorem resolveLink_well_formed {W : Type} (rt : Runtime W) (url : string)
    (store : JsMap (list StreamLink)) (w : W) :
  store_all well_formed store ->
  exists l store' w',
    resolveLink rt url (store, w) = (Ok l, (store', w'))
    /\ Forall well_formed l
    /\ store_all well_formed store'.
Proof.
  intros Hst.
  destruct (getCached store url CACHE_TTL.streams (Date_now rt w)) as [hit|] eqn:G.
  - exists (hit_data hit), store, w. rewrite (resolveLink_cached rt _ _ _ _ G).
    repeat split; auto.
    unfold getCached in G. destruct (JsMapOps.get store url) as [e|] eqn:E; [|discriminate].
    destruct (_ <? _)%Z; [|discriminate]. inversion G; subst hit. simpl.
    destruct (get_In _ _ _ E) as (k & Hk). eapply Hst; eauto.
  - destruct (resolveLink_uncached rt _ _ _ G)
      as (streams & w1 & final & w2 & H1 & H2 & _ & ->).
    destruct (extract_by_host_well_formed rt url w) as (l1 & w1' & H1' & F1).
    rewrite H1 in H1'. inversion H1'; subst l1 w1'.
    destruct (deep_resolve_well_formed rt streams [] w1 F1 (Forall_nil _))
      as (out & w2' & H2' & F2).
    rewrite H2 in H2'. inversion H2'; subst out w2'.
    do 3 eexists. split; [reflexivity|]. split; [exact F2|].
    destruct final as [|x final]; [exact Hst|].
    intros k e Hin. apply In_setCache in Hin. simpl in Hin.
    destruct Hin as [->|Hin]; [exact F2 | eapply Hst; eauto].
Qed.

Lemma resolveLink_well_formed_witness :
  exists l store' w',
    resolveLink worker_site "https://hubcloud.example/drive/w" ([], tt)
    = (Ok l, (store', w'))
    /\ Forall well_formed l
    /\ store_all well_formed store'.
Proof.
  apply (resolveLink_well_formed worker_site "https://hubcloud.example/drive/w" [] tt).
  intros k e [].
Defined.

(** X25. [fetchHtml] and [fetchJson] never throw. They make one request,
    with the default headers under those of the caller, and they return
    something other than [null] only when the request completed with an ok
    response whose body could be read. *)
Theorem fetch_failures_are_null {W : Type} (rt : Runtime W) (url : string)
    (hs : Headers) (w : W) :
  (exists r,
      fetchHtml rt url hs w = (Ok r, snd (fetch rt url (spread defaultHeaders hs) w))
      /\ forall t,
           r = Some t
           <-> exists res,
                 fst (fetch rt url (spread defaultHeaders hs) w) = Ok res
                 /\ ok res = true /\ res_text res = Ok t)
  /\ (exists r,
      fetchJson rt url hs w = (Ok r, snd (fetch rt url (spread defaultHeaders hs) w))
      /\ forall j,
           r = Some j
           <-> exists res,
                 fst (fetch rt url (spread defaultHeaders hs) w) = Ok res
                 /\ ok res = true /\ res_json res = Ok (Some j)).
Proof.
  unfold fetchHtml, fetchJson, try_catch, bind, of_res, ret.
  destruct (fetch rt url (spread defaultHeaders hs) w) as [[res|e] w1]; simpl.
  - destruct (ok res) eqn:Hok.
    + split.
      * destruct (res_text res) as [t|e] eqn:Ht; eexists; (split; [reflexivity|]);
          intros t'; split.
        -- intros H. inversion H; subst. exists res. auto.
        -- intros (res' & H & _ & H'). inversion H; subst res'. congruence.
        -- discriminate.
        -- intros (res' & H & _ & H'). inversion H; subst res'. congruence.
      * destruct (res_json res) as [j|e] eqn:Hj; eexists; (split; [reflexivity|]);
          intros j'; split.
        -- intros ->. exists res. auto.
        -- intros (res' & H & _ & H'). inversion H; subst res'. congruence.
        -- discriminate.
        -- intros (res' & H & _ & H'). inversion H; subst res'. congruence.
    + split; eexists; (split; [reflexivity|]); intros x; (split; [discriminate|]);
        intros (res' & H & H' & _); inversion H; subst res'; congruence.
  - split; eexists; (split; [reflexivity|]); intros x; (split; [discriminate|]);
      intros (res' & H & _); discriminate.
Qed.
